(** * extract_anki: LaTeX lecture notes to Anki flashcards

    A shallow embedding of [extract_anki.py] and the properties of its
    block extractor, macro expander, heading index, markup converter and
    row writer.

    Text is a list of Unicode code points, as a Python [str] is; offsets
    are indices into that list.  Regular expressions are terms of a small
    abstract syntax run by a backtracking matcher that follows the
    leftmost, first-alternative discipline of Python's [re]. *)

From Stdlib Require Import String Ascii.
From stdpp Require Import base numbers list sorting gmap.

Local Open Scope nat_scope.

(** ** Text *)

Abbreviation char := N (only parsing).
Abbreviation str := (list N) (only parsing).

(** A string literal of the source, as code points. *)
Definition lit (s : string) : str :=
  map N_of_ascii (list_ascii_of_string s).

Definition ch (a : ascii) : char := N_of_ascii a.

Definition TAB : char := 9%N.
Definition NL : char := 10%N.
Definition BACKSLASH : char := 92%N.

Definition char_eqb (a b : char) : bool := N.eqb a b.

(** [s[a:b]] for non-negative [a] and [b]. *)
Definition slice (s : str) (a b : nat) : str := take (b - a) (drop a s).

(** Whether [m] is a prefix of [s]. *)
Fixpoint starts_with (m s : str) : bool :=
  match m, s with
  | [], _ => true
  | _ :: _, [] => false
  | a :: m', b :: s' => char_eqb a b && starts_with m' s'
  end.

(** Whether the text [m] stands in [s] at offset [p]. *)
Definition occurs_at (m s : str) (p : nat) : bool := starts_with m (drop p s).

(** [s.find(m)]: the first offset of [s] at which [m] stands, [None] for
    the result -1. *)
Fixpoint find (m s : str) : option nat :=
  if starts_with m s then Some 0
  else match s with
       | [] => None
       | _ :: s' => S <$> find m s'
       end.

(** [str.isspace] on one code point: the white-space table of CPython. *)
Definition is_space (c : char) : bool :=
  ((9 <=? c) && (c <=? 13) || (28 <=? c) && (c <=? 32)
   || (c =? 133) || (c =? 160) || (c =? 5760)
   || (8192 <=? c) && (c <=? 8202)
   || (c =? 8232) || (c =? 8233) || (c =? 8239) || (c =? 8287)
   || (c =? 12288))%N.

(** [[a-zA-Z]] *)
Definition is_alpha (c : char) : bool :=
  ((65 <=? c) && (c <=? 90) || (97 <=? c) && (c <=? 122))%N.

Fixpoint drop_while (f : char → bool) (s : str) : str :=
  match s with
  | [] => []
  | c :: s' => if f c then drop_while f s' else s
  end.

(** [s.strip(chars)]: characters of the set are removed at both ends. *)
Definition strip_set (f : char → bool) (s : str) : str :=
  rev (drop_while f (rev (drop_while f s))).

(** [s.strip()] *)
Definition strip (s : str) : str := strip_set is_space s.

Definition mem_char (cs : str) (c : char) : bool := existsb (char_eqb c) cs.

(** [s.split(sep)] for a one-character separator. *)
Fixpoint split_on (sep : char) (s : str) : list str :=
  match s with
  | [] => [[]]
  | c :: s' =>
      if char_eqb c sep then [] :: split_on sep s'
      else match split_on sep s' with
           | h :: t => (c :: h) :: t
           | [] => [[c]]
           end
  end.

(** [sep.join(l)] *)
Fixpoint join (sep : str) (l : list str) : str :=
  match l with
  | [] => []
  | [x] => x
  | x :: l' => x ++ sep ++ join sep l'
  end.

(** [s.replace(old, new)] for a non-empty [old]: the occurrences are taken
    from the left and do not overlap.  [skip] counts the characters of a
    replaced occurrence still to be passed over. *)
Fixpoint replace_go (old new : str) (skip : nat) (s : str) : str :=
  match s with
  | [] => []
  | c :: s' =>
      match skip with
      | S n => replace_go old new n s'
      | 0 =>
          if starts_with old s
          then new ++ replace_go old new (length old - 1) s'
          else c :: replace_go old new 0 s'
      end
  end.

Definition replace (old new s : str) : str := replace_go old new 0 s.

(** ** Regular expressions *)

Inductive regex : Type :=
| REmpty
| RClass (f : char → bool)
| RSeq (r1 r2 : regex)
| RAlt (r1 r2 : regex)
| RRepeat (greedy : bool) (lo : nat) (hi : option nat) (r : regex)
| RGroup (n : nat) (r : regex)
| RAhead (positive : bool) (r : regex)
| RBehind (positive : bool) (width : nat) (r : regex)
| RBol (multiline : bool)
| REol (multiline : bool).

Definition RChar (c : char) : regex := RClass (char_eqb c).

(** A run of literal characters: what [re.escape] makes of a string. *)
Fixpoint RLit (m : str) : regex :=
  match m with
  | [] => REmpty
  | c :: m' => RSeq (RChar c) (RLit m')
  end.

Fixpoint RCat (rs : list regex) : regex :=
  match rs with
  | [] => REmpty
  | [r] => r
  | r :: rs' => RSeq r (RCat rs')
  end.

Definition RStar (r : regex) : regex := RRepeat true 0 None r.
Definition RPlus (r : regex) : regex := RRepeat true 1 None r.
Definition ROpt (r : regex) : regex := RRepeat true 0 (Some 1) r.
Definition RLazyStar (r : regex) : regex := RRepeat false 0 None r.
Definition RLazyPlus (r : regex) : regex := RRepeat false 1 None r.

(** [.] with and without [re.DOTALL]. *)
Definition RAnyDotall : regex := RClass (λ _, true).
Definition RAny : regex := RClass (λ c, negb (char_eqb c NL)).
Definition RNot (c : char) : regex := RClass (λ x, negb (char_eqb x c)).

(** The spans of the capture groups, latest first. *)
Definition groups : Type := list (nat * (nat * nat)).

Definition under (n : nat) (hi : option nat) : bool :=
  match hi with
  | None => true
  | Some h => n <? h
  end.

Definition or_else {A} (x : option A) (y : unit → option A) : option A :=
  match x with
  | Some a => Some a
  | None => y tt
  end.

(** The continuation of a match and a matcher of one pattern. *)
Definition cont : Type := nat → groups → option (nat * groups).
Definition matcher : Type := nat → groups → cont → option (nat * groups).

(** The turns of a repeat of [body] with [n] turns done: a greedy repeat
    tries one more turn first, a lazy one tries to stop first.  Once the
    lower bound is reached a turn that consumes nothing ends the
    repeat. *)
Fixpoint repeat_loop (body : matcher) (greedy : bool) (lo : nat)
    (hi : option nat) (k : cont) (fuel n i : nat) (g : groups)
    : option (nat * groups) :=
  match fuel with
  | 0 => None
  | S fuel' =>
      let stop (_ : unit) := if lo <=? n then k i g else None in
      let more (_ : unit) :=
        if under n hi
        then body i g
               (λ j g', if (lo <=? n) && (j <=? i) then None
                        else repeat_loop body greedy lo hi k fuel' (S n) j g')
        else None in
      if greedy then or_else (more tt) stop
      else or_else (stop tt) more
  end.

(** The matcher, in continuation-passing style: [rmatch s r i g k] matches
    [r] in [s] from offset [i] and hands the end offset to [k]; when [k]
    fails the next way of matching [r] is tried, in the order of a
    backtracking matcher. *)
Fixpoint rmatch (s : str) (r : regex) (i : nat) (g : groups) (k : cont)
    {struct r} : option (nat * groups) :=
  match r with
  | REmpty => k i g
  | RClass f =>
      match s !! i with
      | Some c => if f c then k (S i) g else None
      | None => None
      end
  | RSeq r1 r2 => rmatch s r1 i g (λ j g', rmatch s r2 j g' k)
  | RAlt r1 r2 => or_else (rmatch s r1 i g k) (λ _, rmatch s r2 i g k)
  | RRepeat greedy lo hi r1 =>
      repeat_loop (rmatch s r1) greedy lo hi k (S (lo + length s)) 0 i g
  | RGroup n r1 => rmatch s r1 i g (λ j g', k j ((n, (i, j)) :: g'))
  | RAhead positive r1 =>
      match rmatch s r1 i g (λ j g', Some (j, g')) with
      | Some (_, g') => if positive then k i g' else None
      | None => if positive then None else k i g
      end
  | RBehind positive width r1 =>
      let found :=
        if width <=? i
        then rmatch s r1 (i - width) g
               (λ j g', if j =? i then Some (j, g') else None)
        else None in
      match found with
      | Some (_, g') => if positive then k i g' else None
      | None => if positive then None else k i g
      end
  | RBol multiline =>
      if (i =? 0) || multiline && bool_decide (s !! (i - 1) = Some NL)
      then k i g else None
  | REol multiline =>
      if (i =? length s)
         || bool_decide (s !! i = Some NL)
            && (multiline || (S i =? length s))
      then k i g else None
  end.

(** A match object: [m.start()], [m.end()] and the group spans. *)
Record rematch : Type := MkMatch {
  m_start : nat;
  m_end : nat;
  m_groups : groups
}.

Fixpoint group_span (n : nat) (g : groups) : option (nat * nat) :=
  match g with
  | [] => None
  | (n', sp) :: g' => if n =? n' then Some sp else group_span n g'
  end.

(** [m.group(n)], [None] for a group that took no part in the match. *)
Definition group (s : str) (m : rematch) (n : nat) : option str :=
  match group_span n (m_groups m) with
  | Some (a, b) => Some (slice s a b)
  | None => None
  end.

(** [m.group(n)] for a group that is on every path of its pattern. *)
Definition group_str (s : str) (m : rematch) (n : nat) : str :=
  default [] (group s m n).

(** [re.match]: a match that starts at offset [i]. *)
Definition match_at (r : regex) (s : str) (i : nat) : option rematch :=
  match rmatch s r i [] (λ j g, Some (j, g)) with
  | Some (j, g) => Some (MkMatch i j g)
  | None => None
  end.

Fixpoint search_loop (r : regex) (s : str) (fuel i : nat) : option rematch :=
  match match_at r s i with
  | Some m => Some m
  | None =>
      match fuel with
      | 0 => None
      | S f => search_loop r s f (S i)
      end
  end.

(** [pattern.search(s, pos)]: the leftmost match starting at [pos] or
    later. *)
Definition re_search (r : regex) (s : str) (pos : nat) : option rematch :=
  let p := pos `min` length s in
  search_loop r s (length s - p) p.

(** [pattern.finditer(s)]: the successive non-overlapping matches.  No
    pattern of the program matches the empty string; after an empty match
    the scan resumes one character further. *)
Fixpoint finditer_loop (r : regex) (s : str) (fuel pos : nat) : list rematch :=
  match fuel with
  | 0 => []
  | S f =>
      if length s <? pos then []
      else match re_search r s pos with
           | None => []
           | Some m =>
               m :: finditer_loop r s f
                      (if m_end m =? m_start m then S (m_end m) else m_end m)
           end
  end.

Definition re_finditer (r : regex) (s : str) : list rematch :=
  finditer_loop r s (S (length s)) 0.

(** The text of [s] from [pos] on with every match replaced. *)
Fixpoint stitch (repl : rematch → str) (s : str) (pos : nat)
    (ms : list rematch) : str :=
  match ms with
  | [] => drop pos s
  | m :: ms' =>
      slice s pos (m_start m) ++ repl m ++ stitch repl s (m_end m) ms'
  end.

(** [re.sub(pattern, repl, s)] with a function [repl]. *)
Definition re_sub (r : regex) (repl : rematch → str) (s : str) : str :=
  stitch repl s 0 (re_finditer r s).

Fixpoint pieces (s : str) (pos : nat) (ms : list rematch) : list str :=
  match ms with
  | [] => [drop pos s]
  | m :: ms' => slice s pos (m_start m) :: pieces s (m_end m) ms'
  end.

(** [re.split(pattern, s)] for a pattern without groups. *)
Definition re_split (r : regex) (s : str) : list str :=
  pieces s 0 (re_finditer r s).

(** ** Character tables of the patterns *)

(** The code points of the digit zero of every decimal-digit script of
    Unicode 14; the nine code points after each are its digits 1 to 9. *)
Definition digit_zeros : list N :=
  [48; 1632; 1776; 1984; 2406; 2534; 2662; 2790; 2918; 3046; 3174; 3302;
   3430; 3558; 3664; 3792; 3872; 4160; 4240; 6112; 6160; 6470; 6608; 6784;
   6800; 6992; 7088; 7232; 7248; 42528; 43216; 43264; 43472; 43504; 43600;
   44016; 65296; 66720; 68912; 69734; 69872; 69942; 70096; 70384; 70736;
   70864; 71248; 71360; 71472; 71904; 72016; 72784; 73040; 73120; 92768;
   92864; 93008; 120782; 120792; 120802; 120812; 120822; 123200; 123632;
   125264; 130032]%N.

(** The value of a decimal digit, [None] for any other character. *)
Definition digit_value (c : char) : option nat :=
  match filter (λ z, (z <= c)%N ∧ (c < z + 10)%N) digit_zeros with
  | z :: _ => Some (N.to_nat (c - z))
  | [] => None
  end.

(** [\d] *)
Definition is_decimal (c : char) : bool := bool_decide (is_Some (digit_value c)).

(** [int(d)] for the text of one [\d] match. *)
Definition int_of (d : str) : nat :=
  match d with
  | c :: _ => default 0 (digit_value c)
  | [] => 0
  end.

(** ** The macro table *)

(** [(name, num_args, replacement)] *)
Definition macro : Type := str * nat * str.

(** [\\(?:re)?newcommand\{(\\[a-zA-Z]+)\}(?:\[(\d)\])?\{(.+?)\}\s*$]
    with [re.MULTILINE] *)
Definition newcommand_re : regex :=
  RCat [RChar BACKSLASH; ROpt (RLit (lit "re")); RLit (lit "newcommand{");
        RGroup 1 (RSeq (RChar BACKSLASH) (RPlus (RClass is_alpha)));
        RLit (lit "}");
        ROpt (RCat [RLit (lit "["); RGroup 2 (RClass is_decimal);
                    RLit (lit "]")]);
        RLit (lit "{"); RGroup 3 (RLazyPlus RAny); RLit (lit "}");
        RStar (RClass is_space); REol true].

(** [\\DeclareMathOperator\{(\\[a-zA-Z]+)\}\{([^}]+)\}] *)
Definition mathoperator_re : regex :=
  RCat [RLit (lit "\DeclareMathOperator{");
        RGroup 1 (RSeq (RChar BACKSLASH) (RPlus (RClass is_alpha)));
        RLit (lit "}{"); RGroup 2 (RPlus (RNot (ch "}"))); RLit (lit "}")].

(** [\\DeclareDocumentCommand\\([a-zA-Z]+)\{\}\{([^}]+)\}] *)
Definition documentcommand_re : regex :=
  RCat [RLit (lit "\DeclareDocumentCommand\");
        RGroup 1 (RPlus (RClass is_alpha));
        RLit (lit "{}{"); RGroup 2 (RPlus (RNot (ch "}"))); RLit (lit "}")].

(** [\\DeclarePairedDelimiter\\([a-zA-Z]+)\{([^}]+)\}\{([^}]+)\}] *)
Definition paireddelimiter_re : regex :=
  RCat [RLit (lit "\DeclarePairedDelimiter\");
        RGroup 1 (RPlus (RClass is_alpha));
        RLit (lit "{"); RGroup 2 (RPlus (RNot (ch "}")));
        RLit (lit "}{"); RGroup 3 (RPlus (RNot (ch "}"))); RLit (lit "}")].

Definition newcommand_entry (src : str) (m : rematch) : macro :=
  let name := group_str src m 1 in
  let num_args :=
    match group src m 2 with
    | Some d => if bool_decide (d = []) then 0 else int_of d
    | None => 0
    end in
  let replacement := group_str src m 3 in
  (name, num_args, replacement).

Definition mathoperator_entry (src : str) (m : rematch) : macro :=
  let name := group_str src m 1 in
  let replacement := lit "\operatorname{" ++ group_str src m 2 ++ lit "}" in
  (name, 0, replacement).

Definition documentcommand_entry (src : str) (m : rematch) : macro :=
  let name := BACKSLASH :: group_str src m 1 in
  let replacement := group_str src m 2 in
  (name, 0, replacement).

Definition paireddelimiter_entry (src : str) (m : rematch) : macro :=
  let name := BACKSLASH :: group_str src m 1 in
  let left := group_str src m 2 in
  let right := group_str src m 3 in
  let replacement := lit "\left" ++ left ++ lit " #1 \right" ++ right in
  (name, 1, replacement).

Definition parse_macros (tex_source : str) : list macro :=
  map (newcommand_entry tex_source) (re_finditer newcommand_re tex_source)
  ++ map (mathoperator_entry tex_source)
       (re_finditer mathoperator_re tex_source)
  ++ map (documentcommand_entry tex_source)
       (re_finditer documentcommand_re tex_source)
  ++ map (paireddelimiter_entry tex_source)
       (re_finditer paireddelimiter_re tex_source).

(** ** The macro expander *)

(** [escaped_name + r'(?![a-zA-Z])'] *)
Definition arity0_re (name : str) : regex :=
  RSeq (RLit name) (RAhead false (RClass is_alpha)).

(** [escaped_name \{ ([^}]* ) \}], the blanks are not of the pattern *)
Definition arity1_re (name : str) : regex :=
  RCat [RLit name; RLit (lit "{"); RGroup 1 (RStar (RNot (ch "}")));
        RLit (lit "}")].

(** [escaped_name \{ ([^}]* ) \} \{ ([^}]* ) \}] *)
Definition arity2_re (name : str) : regex :=
  RCat [RLit name; RLit (lit "{"); RGroup 1 (RStar (RNot (ch "}")));
        RLit (lit "}{"); RGroup 2 (RStar (RNot (ch "}"))); RLit (lit "}")].

(** The body of the loop over the macros: one definition applied to the
    text.  An arity other than 0, 1 and 2 takes none of the branches. *)
Definition expand_one (text : str) (mac : macro) : str :=
  let '(name, num_args, replacement) := mac in
  if num_args =? 0 then
    re_sub (arity0_re name) (λ _, replacement) text
  else if num_args =? 1 then
    re_sub (arity1_re name)
      (λ m, replace (lit "#1") (group_str text m 1) replacement) text
  else if num_args =? 2 then
    re_sub (arity2_re name)
      (λ m, replace (lit "#2") (group_str text m 2)
              (replace (lit "#1") (group_str text m 1) replacement)) text
  else text.

(** One pass: every macro of the list in order. *)
Definition expand_pass (macros : list macro) (text : str) : str :=
  foldl expand_one text macros.

(** [for _ in range(3)] *)
Definition expand_macros (text : str) (macros : list macro) : str :=
  Nat.iter 3 (expand_pass macros) text.

(** [load_file_macros] on the content of the file: the macros of the
    preamble. *)
Definition load_file_macros (content : str) : list macro :=
  let preamble :=
    match find (lit "\begin{document}") content with
    | Some doc_start => take doc_start content
    | None => content
    end in
  parse_macros preamble.

(** [load_global_macros] on the content of [header.sty], [None] when the
    file does not exist. *)
Definition load_global_macros (header : option str) : list macro :=
  match header with
  | Some h => parse_macros h
  | None => []
  end.

(** ** The block extractor *)

Definition ENV_TYPES : list str :=
  [lit "theorem"; lit "proposition"; lit "definition"; lit "lemma";
   lit "corollary"].

(** [(env, body, start)] *)
Definition block : Type := str * str * nat.

Definition block_start (b : block) : nat := b.2.

(** The open and close markers of an environment.  The environment names
    of the program are alphabetic, so the patterns
    [r'\\begin\{' + env + r'\}'] and [r'\\end\{' + env + r'\}'] are these
    literal strings. *)
Definition begin_marker (env : str) : str := lit "\begin{" ++ env ++ lit "}".
Definition end_marker (env : str) : str := lit "\end{" ++ env ++ lit "}".

Definition begin_re (env : str) : regex := RLit (begin_marker env).
Definition end_re (env : str) : regex := RLit (end_marker env).

(** The state of the inner loop: [depth], [search_pos] and [end_pos]. *)
Definition scan_state : Type := nat * nat * option nat.

(** One turn of the inner [while depth > 0] loop, entered with
    [depth > 0]: the next state, or [inr end_pos] at the [break]. *)
Definition scan_step (tex_content env : str) (st : scan_state)
    : scan_state + option nat :=
  let '(depth, search_pos, end_pos) := st in
  let next_begin := re_search (begin_re env) (drop search_pos tex_content) 0 in
  let next_end := re_search (end_re env) (drop search_pos tex_content) 0 in
  match next_end with
  | None => inr end_pos
  | Some ne =>
      let closing :=
        let depth := depth - 1 in
        let end_pos :=
          if depth =? 0 then Some (search_pos + m_start ne) else end_pos in
        (depth, search_pos + m_end ne, end_pos) in
      match next_begin with
      | Some nb =>
          if m_start nb <? m_start ne
          then inl (depth + 1, search_pos + m_end nb, end_pos)
          else inl closing
      | None => inl closing
      end
  end.

(** The inner loop.  The result is [end_pos] when the loop is left,
    [None] when the fuel runs out first. *)
Fixpoint find_end (fuel : nat) (tex_content env : str) (st : scan_state)
    : option (option nat) :=
  match fuel with
  | 0 => None
  | S fuel' =>
      if 0 <? st.1.1 then
        match scan_step tex_content env st with
        | inl st' => find_end fuel' tex_content env st'
        | inr end_pos => Some end_pos
        end
      else Some st.2
  end.

(** The [while True] loop over the open markers of one environment. *)
Fixpoint find_blocks (fuel : nat) (tex_content env : str) (pos : nat)
    (results : list block) : option (list block) :=
  match fuel with
  | 0 => None
  | S fuel' =>
      match re_search (begin_re env) tex_content pos with
      | None => Some results
      | Some m =>
          let start := m_start m in
          let content_start := m_end m in
          match find_end (S (length tex_content)) tex_content env
                  (1, content_start, None) with
          | None => None
          | Some end_pos =>
              let results :=
                match end_pos with
                | Some e =>
                    results
                    ++ [(env, strip (slice tex_content content_start e), start)]
                | None => results
                end in
              find_blocks fuel' tex_content env content_start results
          end
      end
  end.

(** The [for env in env_types] loop. *)
Fixpoint find_all (fuel : nat) (tex_content : str) (env_types : list str)
    (results : list block) : option (list block) :=
  match env_types with
  | [] => Some results
  | env :: rest =>
      match find_blocks fuel tex_content env 0 results with
      | None => None
      | Some results => find_all fuel tex_content rest results
      end
  end.

(** [results.sort(key=lambda x: x[2])]: a stable sort on the start
    offset; blocks of equal offset keep their order. *)
Fixpoint insert_block (b : block) (l : list block) : list block :=
  match l with
  | [] => [b]
  | x :: l' =>
      if block_start b <=? block_start x then b :: l
      else x :: insert_block b l'
  end.

Definition sort_blocks (l : list block) : list block :=
  foldr insert_block [] l.

(** [find_environments] with explicit fuel for its loops; [None] only
    when the fuel runs out. *)
Definition find_environments_fuel (fuel : nat) (tex_content : str)
    (env_types : list str) : option (list block) :=
  sort_blocks <$> find_all fuel tex_content env_types [].

Definition find_environments (tex_content : str) (env_types : list str)
    : list block :=
  default [] (find_environments_fuel (S (length tex_content))
                tex_content env_types).

(** ** The heading index *)

(** [(position, rank, title)] *)
Definition heading : Type := nat * str * str.

(** [\\(section|subsection|subsubsection)\{([^}]+)\}] *)
Definition section_re : regex :=
  RCat [RChar BACKSLASH;
        RGroup 1 (RAlt (RLit (lit "section"))
                    (RAlt (RLit (lit "subsection"))
                       (RLit (lit "subsubsection"))));
        RLit (lit "{"); RGroup 2 (RPlus (RNot (ch "}"))); RLit (lit "}")].

Definition find_sections (tex_content : str) : list heading :=
  map (λ m, (m_start m, group_str tex_content m 1, group_str tex_content m 2))
    (re_finditer section_re tex_content).

Definition hierarchy : list str :=
  [lit "section"; lit "subsection"; lit "subsubsection"].

(** [l.index(x)], [None] for the [ValueError]. *)
Fixpoint index (x : str) (l : list str) : option nat :=
  match l with
  | [] => None
  | y :: l' => if bool_decide (x = y) then Some 0 else S <$> index x l'
  end.

(** The loop of [get_section_context] over the headings, on the
    dictionary [current]; it leaves at the first heading after [pos]. *)
Fixpoint context_loop (pos : nat) (sections : list heading)
    (current : gmap str str) : option (gmap str str) :=
  match sections with
  | [] => Some current
  | (sec_pos, sec_type, sec_title) :: rest =>
      if pos <? sec_pos then Some current
      else
        let current := <[sec_type := sec_title]> current in
        match index sec_type hierarchy with
        | None => None
        | Some idx =>
            context_loop pos rest
              (foldl (λ cur lower, delete lower cur) current
                 (drop (idx + 1) hierarchy))
        end
  end.

(** [None] stands for the [ValueError] of [hierarchy.index]. *)
Definition get_section_context (pos : nat) (sections : list heading)
    : option str :=
  match context_loop pos sections ∅ with
  | None => None
  | Some current =>
      let parts := omap (λ level, current !! level) hierarchy in
      Some (match parts with
            | [] => []
            | _ => join (lit " > ") parts
            end)
  end.

(** ** Titles *)

(** [\s*\(([^)]+)\)] *)
Definition title_re : regex :=
  RCat [RStar (RClass is_space); RLit (lit "(");
        RGroup 1 (RPlus (RNot (ch ")"))); RLit (lit ")")].

Definition extract_title_from_body (body : str) : option str * str :=
  match match_at title_re body 0 with
  | Some m =>
      let title := strip (group_str body m 1) in
      let remaining := strip (drop (m_end m) body) in
      (Some title, remaining)
  | None => (None, body)
  end.

(** ** The markup converter *)

(** [\\begin\{align\*?\}(.*?)\\end\{align\*?\}] with [re.DOTALL] *)
Definition align_re : regex :=
  RCat [RLit (lit "\begin{align"); ROpt (RChar (ch "*")); RLit (lit "}");
        RGroup 1 (RLazyStar RAnyDotall);
        RLit (lit "\end{align"); ROpt (RChar (ch "*")); RLit (lit "}")].

(** [\\begin\{equation\*?\}(.*?)\\end\{equation\*?\}] with [re.DOTALL] *)
Definition equation_re : regex :=
  RCat [RLit (lit "\begin{equation"); ROpt (RChar (ch "*")); RLit (lit "}");
        RGroup 1 (RLazyStar RAnyDotall);
        RLit (lit "\end{equation"); ROpt (RChar (ch "*")); RLit (lit "}")].

(** [\\begin\{enumerate\}(?:\[[^\]]*\])?(.*?)\\end\{enumerate\}] with
    [re.DOTALL] *)
Definition enumerate_re : regex :=
  RCat [RLit (lit "\begin{enumerate}");
        ROpt (RCat [RLit (lit "["); RStar (RNot (ch "]")); RLit (lit "]")]);
        RGroup 1 (RLazyStar RAnyDotall); RLit (lit "\end{enumerate}")].

(** [\\begin\{itemize\}(.*?)\\end\{itemize\}] with [re.DOTALL] *)
Definition itemize_re : regex :=
  RCat [RLit (lit "\begin{itemize}"); RGroup 1 (RLazyStar RAnyDotall);
        RLit (lit "\end{itemize}")].

(** [\\item\s*] *)
Definition item_re : regex :=
  RSeq (RLit (lit "\item")) (RStar (RClass is_space)).

(** [\$\$(.*?)\$\$] with [re.DOTALL] *)
Definition display_math_re : regex :=
  RCat [RLit (lit "$$"); RGroup 1 (RLazyStar RAnyDotall); RLit (lit "$$")].

(** [(?<!\$)\$(?!\$)(.*?)(?<!\$)\$(?!\$)] with [re.DOTALL] *)
Definition lone_dollar : regex :=
  RCat [RBehind false 1 (RChar (ch "$")); RChar (ch "$");
        RAhead false (RChar (ch "$"))].

Definition inline_math_re : regex :=
  RCat [lone_dollar; RGroup 1 (RLazyStar RAnyDotall); lone_dollar].

(** [\\textit\{([^}]* )\}] and its two siblings *)
Definition command_re (name : str) : regex :=
  RCat [RChar BACKSLASH; RLit name; RLit (lit "{");
        RGroup 1 (RStar (RNot (ch "}"))); RLit (lit "}")].

Definition BR : str := lit "<br>".

(** [(<br>){3,}], [^(<br>)+] and [(<br>)+$] *)
Definition br3_re : regex := RRepeat true 3 None (RGroup 1 (RLit BR)).
Definition leading_br_re : regex :=
  RSeq (RBol false) (RPlus (RGroup 1 (RLit BR))).
Definition trailing_br_re : regex :=
  RSeq (RPlus (RGroup 1 (RLit BR))) (REol false).

(** The items of a list environment, each in [<li>] tags. *)
Definition html_items (content : str) : str :=
  let items := re_split item_re content in
  let items :=
    map strip (filter (λ i, strip i ≠ []) items) in
  concat (map (λ item, lit "<li>" ++ item ++ lit "</li>") items).

Definition convert_enumerate (text : str) (m : rematch) : str :=
  lit "<ol>" ++ html_items (group_str text m 1) ++ lit "</ol>".

Definition convert_itemize (text : str) (m : rematch) : str :=
  lit "<ul>" ++ html_items (group_str text m 1) ++ lit "</ul>".

(** The steps of [latex_to_anki_mathjax], in the order of the source. *)

Definition strip_commands (text : str) : str :=
  replace (lit "\par") [] (replace (lit "\qed") [] text).

Definition convert_align (text : str) : str :=
  re_sub align_re
    (λ m, lit "\[\begin{aligned}" ++ group_str text m 1
          ++ lit "\end{aligned}\]") text.

Definition convert_equation (text : str) : str :=
  re_sub equation_re (λ m, lit "\[" ++ group_str text m 1 ++ lit "\]") text.

Definition convert_lists (text : str) : str :=
  let text := re_sub enumerate_re (convert_enumerate text) text in
  re_sub itemize_re (convert_itemize text) text.

Definition convert_display_math (text : str) : str :=
  re_sub display_math_re
    (λ m, lit "\[" ++ group_str text m 1 ++ lit "\]") text.

Definition convert_inline_math (text : str) : str :=
  re_sub inline_math_re
    (λ m, lit "\(" ++ group_str text m 1 ++ lit "\)") text.

Definition convert_command (name tag : str) (text : str) : str :=
  re_sub (command_re name)
    (λ m, lit "<" ++ tag ++ lit ">" ++ group_str text m 1
          ++ lit "</" ++ tag ++ lit ">") text.

Definition convert_emphasis (text : str) : str :=
  convert_command (lit "emph") (lit "i")
    (convert_command (lit "textbf") (lit "b")
       (convert_command (lit "textit") (lit "i") text)).

(** The last step: lines, [<br>] and the final trimming. *)
Definition normalize_whitespace (text : str) : str :=
  let lines := split_on NL text in
  let cleaned_lines := map strip lines in
  let text := join BR cleaned_lines in
  let text := re_sub br3_re (λ _, lit "<br><br>") text in
  let text := strip_set (mem_char BR) text in
  let text := re_sub leading_br_re (λ _, []) text in
  let text := re_sub trailing_br_re (λ _, []) text in
  strip text.

Definition latex_to_anki_mathjax (text : str) : str :=
  let text := strip_commands text in
  let text := convert_align text in
  let text := convert_equation text in
  let text := convert_lists text in
  let text := convert_display_math text in
  let text := convert_inline_math text in
  let text := convert_emphasis text in
  normalize_whitespace text.

(** ** Cards *)

(** [(front, back, tag_str)] *)
Definition card : Type := str * str * str.

(** [s.capitalize()] on ASCII text, as the environment names are. *)
Definition upper (c : char) : char :=
  if ((97 <=? c) && (c <=? 122))%N then (c - 32)%N else c.
Definition lower (c : char) : char :=
  if ((65 <=? c) && (c <=? 90))%N then (c + 32)%N else c.
Definition capitalize (s : str) : str :=
  match s with
  | [] => []
  | c :: s' => upper c :: map lower s'
  end.

Definition sanitize_tag (text : str) : str :=
  replace (lit "&") (lit "and")
    (replace (lit ",") [] (replace (lit " ") (lit "_") text)).

(** [s.split(sep)[0]]: the text before the first [sep]. *)
Definition split_first (sep s : str) : str :=
  match find sep s with
  | Some p => take p s
  | None => s
  end.

(** The truth value of an optional string: neither [None] nor empty. *)
Definition truthy (t : option str) : bool :=
  match t with
  | Some (_ :: _) => true
  | _ => false
  end.

(** The body of the loop of [process_file] over the blocks. *)
Definition make_card (course : str) (all_macros : list macro)
    (sections : list heading) (b : block) : option card :=
  let '(env_type, body, pos) := b in
  let '(title, clean_body) := extract_title_from_body body in
  let clean_body := expand_macros clean_body all_macros in
  let title :=
    if truthy title then (λ t, expand_macros t all_macros) <$> title
    else title in
  section_ctx ← get_section_context pos sections;
  let type_label := capitalize env_type in
  let front :=
    if truthy title then
      lit "<b>" ++ type_label ++ lit "</b>: " ++ default [] title
    else
      lit "<b>" ++ type_label ++ lit "</b>"
      ++ (if bool_decide (section_ctx = []) then []
          else lit " (" ++ section_ctx ++ lit ")") in
  let front := front ++ lit "<br><i>[" ++ course ++ lit "]</i>" in
  let back := latex_to_anki_mathjax clean_body in
  let tags :=
    [sanitize_tag course; sanitize_tag env_type]
    ++ (if bool_decide (section_ctx = []) then []
        else [sanitize_tag (split_first (lit " > ") section_ctx)]) in
  let tag_str := join (lit " ") tags in
  Some (front, back, tag_str).

(** [process_file] on a file of the directory [course] with the text
    [content]; [None] stands for an exception. *)
Definition process_file (course content : str) (global_macros : list macro)
    : option (list card) :=
  let file_macros := load_file_macros content in
  let all_macros := global_macros ++ file_macros in
  let sections := find_sections content in
  let environments := find_environments content ENV_TYPES in
  mapM (make_card course all_macros sections) environments.

(** ** The output file *)

Definition file_header : str :=
  lit "#separator:tab" ++ [NL] ++ lit "#html:true" ++ [NL]
  ++ lit "#tags column:3" ++ [NL] ++ lit "#deck:Lecture Notes" ++ [NL].

(** One [f.write] of the loop over the cards. *)
Definition write_row (c : card) : str :=
  let '(front, back, tags) := c in
  let front_clean := replace [TAB] (lit " ") front in
  let back_clean := replace [TAB] (lit " ") back in
  front_clean ++ [TAB] ++ back_clean ++ [TAB] ++ tags ++ [NL].

(** A lone surrogate, U+D800 to U+DFFF: the one kind of character of a
    Python string that the UTF-8 codec refuses.  The name of a directory
    holds one where the bytes of the name are not valid UTF-8. *)
Definition is_surrogate (c : char) : bool :=
  ((55296 <=? c) && (c <=? 57343))%N.

(** [s.encode('utf-8')] raises nothing. *)
Definition encodable (s : str) : bool :=
  forallb (λ c, negb (is_surrogate c)) s.

(** [main] on the content of [header.sty], if there is one, and the
    [main.tex] files found, each with the name of its directory; the
    result is the text of [anki_flashcards.txt], and [None] stands for an
    exception.  The standard output is taken to encode as the output file
    does, in UTF-8 and strictly: the [print] of a course name that cannot
    be encoded raises [UnicodeEncodeError] before any file is processed,
    and so does the [f.write] of a row that cannot be encoded.  The counts
    and the path of the workspace, which the other messages hold, are
    taken to be printable. *)
Definition main (header : option str) (tex_files : list (str * str))
    : option str :=
  let global_macros := load_global_macros header in
  if forallb (λ f : str * str, encodable f.1) tex_files then
    all_cards ←
      mapM (λ f, process_file f.1 f.2 global_macros) tex_files;
    let rows := map write_row (concat all_cards) in
    if forallb encodable rows
    then Some (file_header ++ concat rows)
    else None
  else None.

(** * Reference definitions *)

(** An environment name made of the letters [a-zA-Z], as those of
    [ENV_TYPES] are. *)
Definition alphabetic (env : str) : Prop :=
  Forall (λ c, is_alpha c = true) env.

(** The close marker that balances an open marker: [s] is read from the
    left with [depth] open markers pending, an open marker [O] adds one, a
    close marker [C] takes one away, and the offset of the close marker
    that takes the last one away is the result. *)
Fixpoint matching_close (O C s : str) (depth : nat) : option nat :=
  match s with
  | [] => None
  | _ :: s' =>
      if starts_with C s then
        if depth =? 1 then Some 0
        else S <$> matching_close O C s' (depth - 1)
      else if starts_with O s then S <$> matching_close O C s' (S depth)
      else S <$> matching_close O C s' depth
  end.

(** The offset of the close marker matching the open marker of [env] that
    stands at offset [p], if there is one. *)
Definition close_of (tex env : str) (p : nat) : option nat :=
  let content_start := p + length (begin_marker env) in
  (λ off, content_start + off)
    <$> matching_close (begin_marker env) (end_marker env)
          (drop content_start tex) 1.

(** The block that opens at offset [p], if an open marker of [env] stands
    there and has a matching close marker: its body is the text strictly
    between the two markers, trimmed. *)
Definition block_at (tex env : str) (p : nat) : option block :=
  if occurs_at (begin_marker env) tex p then
    (λ e, (env, strip (slice tex (p + length (begin_marker env)) e), p))
      <$> close_of tex env p
  else None.

(** The blocks of one environment, one for each properly closed
    occurrence, by offset. *)
Definition blocks_of (tex env : str) : list block :=
  omap (block_at tex env) (seq 0 (length tex)).

(** A marker starts with its only backslash. *)
Definition marker (m : str) : Prop :=
  ∃ t, m = BACKSLASH :: t ∧ BACKSLASH ∉ t.

(** The order of the final sort. *)
Definition by_start (a b : block) : Prop := block_start a ≤ block_start b.

(** The numbers of the groups of a pattern. *)
Fixpoint group_ids (r : regex) : list nat :=
  match r with
  | RGroup n r1 => n :: group_ids r1
  | RSeq r1 r2 | RAlt r1 r2 => group_ids r1 ++ group_ids r2
  | RRepeat _ _ _ r1 | RAhead _ r1 | RBehind _ _ r1 => group_ids r1
  | _ => []
  end.

(** The three ranks of headings, from the top. *)
Inductive rank : Type := Top | Mid | Low.

Definition rank_of (sec_type : str) : option rank :=
  if bool_decide (sec_type = lit "section") then Some Top
  else if bool_decide (sec_type = lit "subsection") then Some Mid
  else if bool_decide (sec_type = lit "subsubsection") then Some Low
  else None.

(** The current title of each rank: top, mid, low. *)
Definition titles : Type := option str * option str * option str.

(** Setting the title of a rank clears every strictly deeper rank. *)
Definition set_title (t : titles) (r : rank) (title : str) : titles :=
  match r with
  | Top => (Some title, None, None)
  | Mid => (t.1.1, Some title, None)
  | Low => (t.1.1, t.1.2, Some title)
  end.

Definition heading_event (t : titles) (h : heading) : titles :=
  match rank_of h.1.2 with
  | Some r => set_title t r h.2
  | None => t
  end.

(** The heading context at [pos]: the fold of [heading_event] over exactly
    the headings at a position up to [pos], and the titles that are set,
    from the top, joined by [" > "]. *)
Definition context_at (pos : nat) (sections : list heading) : str :=
  let events := filter (λ h : heading, h.1.1 ≤ pos) sections in
  let t := foldl heading_event (None, None, None) events in
  join (lit " > ") (omap id [t.1.1; t.1.2; t.2]).

(** A list of headings as the heading index builds it: by position, each
    of one of the three ranks. *)
Definition heading_index (sections : list heading) : Prop :=
  StronglySorted (λ a b : heading, a.1.1 ≤ b.1.1) sections
  ∧ Forall (λ h : heading, is_Some (rank_of h.1.2)) sections.

(** The dictionary [current] of [get_section_context] read as titles by
    rank. *)
Definition represents (current : gmap str str) (t : titles) : Prop :=
  current !! lit "section" = t.1.1
  ∧ current !! lit "subsection" = t.1.2
  ∧ current !! lit "subsubsection" = t.2.

(** ** Sample documents *)

(** A theorem nested in a theorem. *)
Definition nested_doc : str :=
  lit "\begin{theorem}A\begin{theorem}B\end{theorem}C\end{theorem}".

(** A closed lemma, then a theorem that is never closed with a closed one
    inside. *)
Definition unclosed_doc : str :=
  lit "\begin{lemma} x \end{lemma} \begin{theorem}A \begin{theorem}B\end{theorem} ".

(** A top heading at 0 and two mid headings at 10 and 20. *)
Definition sample_headings : list heading :=
  [(0, lit "section", lit "Ch1"); (10, lit "subsection", lit "S1");
   (20, lit "subsection", lit "S2")].

(** A theorem under a heading whose title holds a tab. *)
Definition tab_doc : str :=
  lit "\section{A" ++ [TAB] ++ lit "B}\begin{theorem}x\end{theorem}".

(** The number of tabs of a text. *)
Definition count_tabs (s : str) : nat :=
  length (filter (λ c, c = TAB) s).

(** A dollar at offset [i] with no dollar next to it. *)
Definition lone_dollar_at (s : str) (i : nat) : Prop :=
  s !! i = Some (ch "$")
  ∧ (i = 0 ∨ s !! (i - 1) ≠ Some (ch "$"))
  ∧ s !! (S i) ≠ Some (ch "$").

(** The headings that the loop of [get_section_context] reads: those
    before the first heading that stands after [pos]. *)
Fixpoint headings_read (pos : nat) (sections : list heading) : list heading :=
  match sections with
  | [] => []
  | h :: rest => if pos <? h.1.1 then [] else h :: headings_read pos rest
  end.

(** The titles that are set, from the top, joined by [" > "]. *)
Definition titles_text (t : titles) : str :=
  join (lit " > ") (omap id [t.1.1; t.1.2; t.2]).

(** A text that neither starts nor ends with white space. *)
Definition trimmed (s : str) : Prop :=
  (∀ c, head s = Some c → is_space c = false)
  ∧ (∀ c, last s = Some c → is_space c = false).

(** The order of blocks that start at different offsets. *)
Definition before_start (a b : block) : Prop := block_start a < block_start b.

(** The characters of [s] from offset [i] up to [j] are all of the class
    [f]. *)
Definition class_run (f : char → bool) (s : str) (i j : nat) : Prop :=
  ∀ q, i ≤ q < j → ∃ c, s !! q = Some c ∧ f c = true.

(** The text goes on with an ASCII letter. *)
Definition letter_follows (post : str) : bool :=
  match post with
  | c :: _ => is_alpha c
  | [] => false
  end.

(** The name of a command: a backslash and one or more ASCII letters. *)
Definition control_word (name : str) : Prop :=
  ∃ letters, name = BACKSLASH :: letters ∧ letters ≠ []
             ∧ Forall (λ c, is_alpha c = true) letters.

(** The text of a definition: [\newcommand] or [\renewcommand], the name
    in braces, an optional arity in square brackets, the body in braces
    and white space. *)
Definition newcommand_text (renew : bool) (letters : str)
    (arity : option char) (body ws : str) : str :=
  [BACKSLASH] ++ (if renew then lit "re" else []) ++ lit "newcommand{"
  ++ (BACKSLASH :: letters) ++ lit "}"
  ++ match arity with Some d => lit "[" ++ [d] ++ lit "]" | None => [] end
  ++ lit "{" ++ body ++ lit "}" ++ ws.

(** A block stands inside another block of the same environment: it
    starts after the open marker of the other block and before the close
    marker that matches it. *)
Definition inside (tex : str) (b b' : block) : bool :=
  bool_decide (b.1.1 = b'.1.1)
  && match close_of tex b'.1.1 b'.2 with
     | Some e => (b'.2 <? b.2) && (b.2 <? e)
     | None => false
     end.

(** A top-level block of a result: one that stands inside no block of the
    result. *)
Definition top_level (tex : str) (result : list block) (b : block) : bool :=
  forallb (λ b', negb (inside tex b b')) result.

(** What the display-math step may do to a text: two adjacent dollars are
    rewritten in place to [\[] or to [\]], and every other character
    stays where it is. *)
Inductive display_rewrite : str → str → Prop :=
| dr_nil : display_rewrite [] []
| dr_keep c s u : display_rewrite s u → display_rewrite (c :: s) (c :: u)
| dr_open s u :
    display_rewrite s u → display_rewrite (lit "$$" ++ s) (lit "\[" ++ u)
| dr_close s u :
    display_rewrite s u → display_rewrite (lit "$$" ++ s) (lit "\]" ++ u).

(** The offset [i] of [u] holds the opening or the closing dollar of an
    inline-math match of [u]. *)
Definition inline_delimiter (u : str) (i : nat) : Prop :=
  ∃ m, m ∈ re_finditer inline_math_re u ∧ (i = m_start m ∨ S i = m_end m).

(** A call of the command [name] at offset [i] of [s]: the name stands
    there and no ASCII letter follows it. *)
Definition call_at (name s : str) (i : nat) : bool :=
  occurs_at name s i && negb (letter_follows (drop (i + length name) s)).

(** The command [name] is called nowhere in [s]. *)
Definition quiet (name s : str) : Prop := ∀ i, call_at name s i = false.

(** A character that UTF-8 encodes: any but a lone surrogate. *)
Definition plain (c : char) : Prop := is_surrogate c = false.

(** * Properties *)

(** ** Text *)

Lemma char_eqb_eq (a b : char) : char_eqb a b = true ↔ a = b.
Proof. apply N.eqb_eq. Qed.

Lemma char_eqb_refl (a : char) : char_eqb a a = true.
Proof. by apply char_eqb_eq. Qed.

Lemma starts_with_prefix (m s : str) :
  starts_with m s = true ↔ m `prefix_of` s.
Proof.
  revert s. induction m as [|a m IH]; intros s; simpl.
  - split; [intros _; apply prefix_nil | done].
  - destruct s as [|b s].
    + split; [done | intros [k Hk]; discriminate].
    + rewrite andb_true_iff, char_eqb_eq, IH. split.
      * intros [-> Hp]. by apply prefix_cons.
      * intros [k Hk]. simplify_eq/=. split; [done | by exists k].
Qed.

Lemma starts_with_app (m t : str) : starts_with m (m ++ t) = true.
Proof. apply starts_with_prefix. by exists t. Qed.

Lemma starts_with_length (m s : str) :
  starts_with m s = true → length m ≤ length s.
Proof. rewrite starts_with_prefix. apply prefix_length. Qed.

Lemma starts_with_take (m s : str) :
  starts_with m s = true → take (length m) s = m.
Proof.
  rewrite starts_with_prefix. intros [k ->]. by rewrite take_app_length.
Qed.

Lemma occurs_at_length (m s : str) (p : nat) :
  occurs_at m s p = true → p + length m ≤ length s ∨ m = [].
Proof.
  unfold occurs_at. intros H. apply starts_with_length in H.
  rewrite length_drop in H. destruct m as [|a m]; [by right | left].
  simpl in *. lia.
Qed.

Lemma occurs_at_slice (m s : str) (p : nat) :
  occurs_at m s p = true → slice s p (p + length m) = m.
Proof.
  unfold occurs_at, slice. intros H.
  replace (p + length m - p) with (length m) by lia.
  by apply starts_with_take.
Qed.

Lemma occurs_at_drop (m s : str) (a p : nat) :
  occurs_at m (drop a s) p = occurs_at m s (a + p).
Proof. unfold occurs_at. by rewrite drop_drop. Qed.

(** ** Literal patterns *)

Lemma rmatch_lit (m s : str) (i : nat) (g : groups)
    (k : nat → groups → option (nat * groups)) :
  rmatch s (RLit m) i g k =
  if occurs_at m s i then k (i + length m) g else None.
Proof.
  unfold occurs_at. revert i. induction m as [|c m IH]; intros i; simpl.
  - by rewrite Nat.add_0_r.
  - destruct (s !! i) as [x|] eqn:Hx.
    + rewrite (drop_S _ _ _ Hx). destruct (char_eqb c x); simpl; [|done].
      rewrite IH. by replace (S i + length m) with (i + S (length m)) by lia.
    + apply lookup_ge_None in Hx. by rewrite drop_ge.
Qed.

Lemma match_at_lit (m s : str) (i : nat) :
  match_at (RLit m) s i =
  if occurs_at m s i then Some (MkMatch i (i + length m) []) else None.
Proof. unfold match_at. rewrite rmatch_lit. by destruct (occurs_at m s i). Qed.

Lemma search_loop_lit (m s : str) (fuel i : nat) :
  fuel = length s - i → i ≤ length s →
  search_loop (RLit m) s fuel i =
  (λ p, MkMatch (i + p) (i + p + length m) []) <$> find m (drop i s).
Proof.
  revert i. induction fuel as [|fuel IH]; intros i Hf Hi; simpl.
  - rewrite match_at_lit. unfold occurs_at.
    rewrite drop_ge by lia.
    destruct m; simpl; [by rewrite !Nat.add_0_r | done].
  - rewrite match_at_lit. unfold occurs_at.
    destruct (drop i s) as [|x t] eqn:Hd.
    { apply (f_equal length) in Hd. rewrite length_drop in Hd. simpl in Hd. lia. }
    assert (drop (S i) s = t) as Ht.
    { replace (S i) with (i + 1) by lia. by rewrite <- drop_drop, Hd. }
    cbn [find]. destruct (starts_with m (x :: t)); simpl.
    + by rewrite !Nat.add_0_r.
    + rewrite IH by lia. rewrite Ht.
      destruct (find m t) as [p|]; simpl; [|done].
      f_equal. f_equal; lia.
Qed.

Lemma re_search_lit (m s : str) (pos : nat) :
  pos ≤ length s →
  re_search (RLit m) s pos =
  (λ p, MkMatch (pos + p) (pos + p + length m) []) <$> find m (drop pos s).
Proof.
  intros Hp. unfold re_search.
  rewrite Nat.min_l by done. by apply search_loop_lit.
Qed.

Lemma re_search_lit_0 (m s : str) :
  re_search (RLit m) s 0 = (λ p, MkMatch p (p + length m) []) <$> find m s.
Proof. rewrite re_search_lit by lia. by rewrite drop_0. Qed.

(** ** The first occurrence *)

Lemma find_Some (m s : str) (p : nat) :
  find m s = Some p →
  occurs_at m s p = true ∧ ∀ q, q < p → occurs_at m s q = false.
Proof.
  unfold occurs_at. revert p. induction s as [|x s IH]; intros p; simpl.
  - destruct (starts_with m []) eqn:Hm; [|done].
    intros [= <-]. split; [done | lia].
  - destruct (starts_with m (x :: s)) eqn:Hm.
    + intros [= <-]. split; [done | lia].
    + destruct (find m s) as [p'|]; [|done]. simpl. intros [= <-].
      destruct (IH p' eq_refl) as [H1 H2]. split; [done|].
      intros [|q] Hq; [done|]. simpl. apply H2. lia.
Qed.

Lemma find_None (m s : str) (q : nat) :
  find m s = None → occurs_at m s q = false.
Proof.
  unfold occurs_at. revert q. induction s as [|x s IH]; intros q; simpl.
  - destruct (starts_with m []) eqn:Hm; [done|]. intros _.
    by rewrite drop_nil.
  - destruct (starts_with m (x :: s)) eqn:Hm; [done|].
    destruct (find m s) as [p'|] eqn:Hf; [done|]. intros _.
    destruct q as [|q]; [done|]. simpl. by apply IH.
Qed.

Lemma find_first (m s : str) (p : nat) :
  occurs_at m s p = true → (∀ q, q < p → occurs_at m s q = false) →
  find m s = Some p.
Proof.
  intros Hp Hq. destruct (find m s) as [p'|] eqn:Hf.
  - destruct (find_Some _ _ _ Hf) as [H1 H2].
    destruct (decide (p' < p)); [rewrite Hq in H1; done|].
    destruct (decide (p < p')); [rewrite H2 in Hp; done|].
    f_equal. lia.
  - by rewrite (find_None _ _ p Hf) in Hp.
Qed.

(** ** Markers *)

Lemma is_alpha_not_backslash (c : char) : is_alpha c = true → c ≠ BACKSLASH.
Proof. intros H ->. vm_compute in H. done. Qed.

Lemma alphabetic_no_backslash (env : str) :
  alphabetic env → BACKSLASH ∉ env.
Proof.
  intros Ha Hin. unfold alphabetic in Ha. rewrite Forall_forall in Ha.
  by apply (is_alpha_not_backslash _ (Ha _ Hin)).
Qed.

Lemma begin_marker_marker (env : str) : alphabetic env → marker (begin_marker env).
Proof.
  intros Ha. exists (lit "begin{" ++ env ++ lit "}"). split; [done|].
  apply alphabetic_no_backslash in Ha.
  rewrite !not_elem_of_app. split_and!; [|done|]; by apply (bool_decide_unpack _).
Qed.

Lemma end_marker_marker (env : str) : alphabetic env → marker (end_marker env).
Proof.
  intros Ha. exists (lit "end{" ++ env ++ lit "}"). split; [done|].
  apply alphabetic_no_backslash in Ha.
  rewrite !not_elem_of_app. split_and!; [|done|]; by apply (bool_decide_unpack _).
Qed.

Lemma begin_marker_length (env : str) :
  length (begin_marker env) = 8 + length env.
Proof. unfold begin_marker. rewrite !length_app. simpl. lia. Qed.

Lemma end_marker_length (env : str) :
  length (end_marker env) = 6 + length env.
Proof. unfold end_marker. rewrite !length_app. simpl. lia. Qed.

Lemma occurs_at_lookup (m s : str) (p i : nat) (c : char) :
  occurs_at m s p = true → m !! i = Some c → s !! (p + i) = Some c.
Proof.
  unfold occurs_at. rewrite starts_with_prefix. intros [k Hk] Hm.
  pose proof (lookup_drop s p i) as E. rewrite <- E, Hk.
  by apply lookup_app_l_Some.
Qed.

(** No marker starts inside another marker. *)
Lemma marker_inside (m m' s : str) (p q : nat) :
  marker m → marker m' → occurs_at m s p = true →
  p < q < p + length m → occurs_at m' s q = false.
Proof.
  intros (t & -> & Ht) (t' & -> & _) Hp Hq.
  destruct (occurs_at (BACKSLASH :: t') s q) eqn:Hq'; [|done]. exfalso.
  pose proof (occurs_at_lookup _ _ q 0 BACKSLASH Hq' eq_refl) as H0.
  rewrite Nat.add_0_r in H0. simpl in Hq.
  destruct (lookup_lt_is_Some_2 (BACKSLASH :: t) (q - p)) as [c Hc];
    [simpl; lia|].
  pose proof (occurs_at_lookup _ _ p _ c Hp Hc) as H1.
  replace (p + (q - p)) with q in H1 by lia. simplify_eq.
  destruct (q - p) as [|n] eqn:Hn; [lia|]. simpl in Hc.
  apply Ht. by eapply list_elem_of_lookup_2.
Qed.

(** An open and a close marker never start at the same offset. *)
Lemma begin_end_apart (env s : str) (p : nat) :
  occurs_at (begin_marker env) s p = true →
  occurs_at (end_marker env) s p = false.
Proof.
  intros Hb. destruct (occurs_at (end_marker env) s p) eqn:He; [|done].
  pose proof (occurs_at_lookup _ _ p 1 (ch "b") Hb eq_refl) as H1.
  pose proof (occurs_at_lookup _ _ p 1 (ch "e") He eq_refl) as H2.
  rewrite H1 in H2. discriminate.
Qed.

(** ** The matching close marker *)

Lemma fmap_add_compose (a b : nat) (x : option nat) :
  (λ n, a + n) <$> ((λ n, b + n) <$> x) = (λ n, a + b + n) <$> x.
Proof. destruct x; simpl; [f_equal; lia | done]. Qed.

Lemma fmap_S_add (a : nat) (x : option nat) :
  S <$> ((λ n, a + n) <$> x) = (λ n, S a + n) <$> x.
Proof. by destruct x. Qed.

Lemma fmap_add_0 (x : option nat) : (λ n, 0 + n) <$> x = x.
Proof. by destruct x. Qed.

Lemma matching_close_none (O C s : str) (d : nat) :
  (∀ q, occurs_at C s q = false) → matching_close O C s d = None.
Proof.
  revert d. induction s as [|x s IH]; intros d H; [done|].
  cbn [matching_close].
  pose proof (H 0) as H0. unfold occurs_at in H0. rewrite drop_0 in H0.
  rewrite H0.
  assert (∀ d', matching_close O C s d' = None) as IH'.
  { intros d'. apply IH. intros q. apply (H (S q)). }
  rewrite !IH'. by destruct (starts_with O (x :: s)).
Qed.

(** Text in which no marker starts is passed over. *)
Lemma matching_close_skip (O C s : str) (d n : nat) :
  (∀ q, q < n → occurs_at O s q = false ∧ occurs_at C s q = false) →
  n ≤ length s →
  matching_close O C s d = (λ off, n + off) <$> matching_close O C (drop n s) d.
Proof.
  revert s. induction n as [|n IH]; intros s H Hn.
  - by rewrite drop_0, fmap_add_0.
  - destruct s as [|x s]; [simpl in Hn; lia|].
    destruct (H 0 ltac:(lia)) as [HO HC]. unfold occurs_at in HO, HC.
    rewrite drop_0 in HO, HC. cbn [matching_close]. rewrite HO, HC.
    rewrite (IH s); [by rewrite fmap_S_add | | simpl in Hn; lia].
    intros q Hq. apply (H (S q)). lia.
Qed.

Section matching.
Variable env : str.
Hypothesis env_alphabetic : alphabetic env.

Lemma skip_marker (m s : str) (p : nat) (d : nat) :
  marker m → occurs_at m s p = true →
  matching_close (begin_marker env) (end_marker env) (drop (S p) s) d =
  (λ off, length m - 1 + off)
    <$> matching_close (begin_marker env) (end_marker env)
          (drop (p + length m) s) d.
Proof using env_alphabetic.
  intros Hm Hp.
  destruct (occurs_at_length _ _ _ Hp) as [Hl | ->];
    [|by destruct Hm as (? & ? & ?)].
  assert (0 < length m) by (destruct Hm as (? & -> & _); simpl; lia).
  rewrite (matching_close_skip _ _ (drop (S p) s) d (length m - 1)).
  - rewrite drop_drop. do 3 f_equal. lia.
  - intros q Hq. rewrite !occurs_at_drop. split.
    + eapply marker_inside; [done | by apply begin_marker_marker | done | lia].
    + eapply marker_inside; [done | by apply end_marker_marker | done | lia].
  - rewrite length_drop. lia.
Qed.

(** An open marker met first adds one to the depth. *)
Lemma matching_close_open (s : str) (d b : nat) :
  occurs_at (begin_marker env) s b = true →
  (∀ q, q < b → occurs_at (begin_marker env) s q = false
                ∧ occurs_at (end_marker env) s q = false) →
  matching_close (begin_marker env) (end_marker env) s d =
  (λ off, b + length (begin_marker env) + off)
    <$> matching_close (begin_marker env) (end_marker env)
          (drop (b + length (begin_marker env)) s) (S d).
Proof using env_alphabetic.
  intros Hb Hq.
  pose proof (begin_marker_length env) as HlO.
  destruct (occurs_at_length _ _ _ Hb) as [Hl | HO];
    [|by rewrite HO in HlO].
  rewrite (matching_close_skip _ _ s d b Hq) by lia.
  pose proof (begin_end_apart _ _ _ Hb) as He.
  pose proof Hb as Hb'. unfold occurs_at in Hb', He.
  destruct (drop b s) as [|x t] eqn:Hd.
  { rewrite <- length_zero_iff_nil, length_drop in Hd. lia. }
  cbn [matching_close]. rewrite He, Hb'.
  assert (t = drop (S b) s) as ->.
  { replace (S b) with (b + 1) by lia. by rewrite <- drop_drop, Hd. }
  rewrite (skip_marker (begin_marker env) s b (S d));
    [|by apply begin_marker_marker|done].
  rewrite fmap_S_add, fmap_add_compose.
  destruct (matching_close _ _ _ _); simpl; [f_equal; lia | done].
Qed.

(** A close marker met first takes one from the depth, and is the
    matching one at depth 1. *)
Lemma matching_close_close (s : str) (d e : nat) :
  occurs_at (end_marker env) s e = true →
  (∀ q, q < e → occurs_at (begin_marker env) s q = false
                ∧ occurs_at (end_marker env) s q = false) →
  matching_close (begin_marker env) (end_marker env) s d =
  if d =? 1 then Some e
  else (λ off, e + length (end_marker env) + off)
         <$> matching_close (begin_marker env) (end_marker env)
               (drop (e + length (end_marker env)) s) (d - 1).
Proof using env_alphabetic.
  intros He Hq.
  pose proof (end_marker_length env) as HlC.
  destruct (occurs_at_length _ _ _ He) as [Hl | HC];
    [|by rewrite HC in HlC].
  rewrite (matching_close_skip _ _ s d e Hq) by lia.
  pose proof He as He'. unfold occurs_at in He'.
  destruct (drop e s) as [|x t] eqn:Hd.
  { rewrite <- length_zero_iff_nil, length_drop in Hd. lia. }
  cbn [matching_close]. rewrite He'.
  destruct (d =? 1); simpl; [f_equal; lia|].
  assert (t = drop (S e) s) as ->.
  { replace (S e) with (e + 1) by lia. by rewrite <- drop_drop, Hd. }
  rewrite (skip_marker (end_marker env) s e (d - 1));
    [|by apply end_marker_marker|done].
  rewrite fmap_S_add, fmap_add_compose.
  destruct (matching_close _ _ _ _); simpl; [f_equal; lia | done].
Qed.
End matching.

(** ** The inner loop *)

(** One turn of the inner loop, with the searches read as first
    occurrences. *)
Lemma scan_step_find (tex env : str) (depth search_pos : nat)
    (end_pos : option nat) :
  scan_step tex env (depth, search_pos, end_pos) =
  match find (end_marker env) (drop search_pos tex) with
  | None => inr end_pos
  | Some e =>
      let closing :=
        (depth - 1, search_pos + (e + length (end_marker env)),
         if depth - 1 =? 0 then Some (search_pos + e) else end_pos) in
      match find (begin_marker env) (drop search_pos tex) with
      | Some b =>
          if b <? e
          then inl (depth + 1, search_pos + (b + length (begin_marker env)),
                    end_pos)
          else inl closing
      | None => inl closing
      end
  end.
Proof.
  unfold scan_step, begin_re, end_re. rewrite !re_search_lit_0.
  destruct (find (end_marker env) _) as [e|]; simpl; [|done].
  by destruct (find (begin_marker env) _) as [b|].
Qed.

Lemma find_in_range (m s : str) (p : nat) :
  m ≠ [] → find m s = Some p → p + length m ≤ length s.
Proof.
  intros Hm Hf. apply find_Some in Hf as [Hf _].
  by destruct (occurs_at_length _ _ _ Hf).
Qed.

Lemma begin_marker_nonempty (env : str) : begin_marker env ≠ [].
Proof. done. Qed.

Lemma end_marker_nonempty (env : str) : end_marker env ≠ [].
Proof. done. Qed.

(** The search position strictly increases at every turn that does not
    leave the loop, and stays within the text. *)
Lemma scan_step_advances (tex env : str) (st st' : scan_state) :
  st.1.2 ≤ length tex →
  scan_step tex env st = inl st' →
  st.1.2 < st'.1.2 ≤ length tex.
Proof.
  destruct st as [[d sp] ep]. cbn [fst snd]. intros Hsp.
  rewrite scan_step_find.
  pose proof (begin_marker_length env) as HO.
  pose proof (end_marker_length env) as HC.
  destruct (find (end_marker env) _) as [e|] eqn:He; [|done].
  apply find_in_range in He; [|done]. rewrite length_drop in He.
  destruct (find (begin_marker env) _) as [b|] eqn:Hb.
  - apply find_in_range in Hb; [|done]. rewrite length_drop in Hb.
    remember (length (begin_marker env)) as lO.
    remember (length (end_marker env)) as lC.
    destruct (b <? e); intros [= <-]; cbn [fst snd]; lia.
  - remember (length (end_marker env)) as lC.
    intros [= <-]; cbn [fst snd]; lia.
Qed.

(** The inner loop ends within [length tex - search_pos + 1] tests of its
    condition. *)
Lemma find_end_total (tex env : str) (fuel : nat) (st : scan_state) :
  st.1.2 ≤ length tex → length tex - st.1.2 < fuel →
  is_Some (find_end fuel tex env st).
Proof.
  revert st. induction fuel as [|fuel IH]; intros st Hsp Hf; [lia|].
  cbn [find_end]. destruct (0 <? st.1.1); [|done].
  destruct (scan_step tex env st) as [st'|r] eqn:Hst; [|done].
  apply scan_step_advances in Hst; [|done]. apply IH; lia.
Qed.

(** More fuel than the loop needs does not change its result. *)
Lemma find_end_fuel (tex env : str) (fuel fuel' : nat) (st : scan_state)
    (r : option nat) :
  find_end fuel tex env st = Some r → fuel ≤ fuel' →
  find_end fuel' tex env st = Some r.
Proof.
  revert fuel' st. induction fuel as [|fuel IH]; intros fuel' st; [done|].
  intros H Hle. destruct fuel' as [|fuel']; [lia|].
  cbn [find_end] in *. destruct (0 <? st.1.1); [|done].
  destruct (scan_step tex env st) as [st'|r']; [|done].
  apply IH; [done | lia].
Qed.

(** The inner loop finds the matching close marker. *)
Lemma find_end_matching (tex env : str) :
  alphabetic env →
  ∀ fuel depth search_pos end_pos,
    0 < depth → search_pos ≤ length tex → length tex - search_pos < fuel →
    find_end fuel tex env (depth, search_pos, end_pos) =
    Some match matching_close (begin_marker env) (end_marker env)
                 (drop search_pos tex) depth with
         | Some off => Some (search_pos + off)
         | None => end_pos
         end.
Proof.
  intros Ha. induction fuel as [|fuel IH]; intros d sp ep Hd Hsp Hf; [lia|].
  cbn [find_end fst snd]. destruct (Nat.ltb_spec 0 d) as [_|]; [|lia].
  rewrite scan_step_find.
  pose proof (begin_marker_length env) as HO.
  pose proof (end_marker_length env) as HC.
  destruct (find (end_marker env) (drop sp tex)) as [e|] eqn:He.
  2:{ rewrite matching_close_none; [done|]. intros q. by apply find_None. }
  pose proof (find_in_range _ _ _ (end_marker_nonempty env) He) as Hre.
  rewrite length_drop in Hre.
  destruct (find_Some _ _ _ He) as [He1 He2].
  assert (∀ b, find (begin_marker env) (drop sp tex) = Some b → b ≠ e) as Hne.
  { intros b Hb ->. apply find_Some in Hb as [Hb _].
    apply begin_end_apart in Hb. congruence. }
  assert (
    (∀ q, q < e → occurs_at (begin_marker env) (drop sp tex) q = false) →
    find_end fuel tex env
      (d - 1, sp + (e + length (end_marker env)),
       if d - 1 =? 0 then Some (sp + e) else ep) =
    Some match matching_close (begin_marker env) (end_marker env)
                 (drop sp tex) d with
         | Some off => Some (sp + off)
         | None => ep
         end) as Hclose.
  { intros Hb. rewrite (matching_close_close env Ha (drop sp tex) d e He1);
      [|by intros q Hq; split; [apply Hb | apply He2]].
    destruct (Nat.eqb_spec d 1) as [->|Hd1].
    - simpl. destruct fuel as [|fuel]; [lia|]. done.
    - destruct (Nat.eqb_spec (d - 1) 0) as [|_]; [lia|].
      rewrite IH by lia. rewrite drop_drop.
      destruct (matching_close _ _ _ _); simpl; [|done]. do 2 f_equal. lia. }
  destruct (find (begin_marker env) (drop sp tex)) as [b|] eqn:Hb.
  - pose proof (find_in_range _ _ _ (begin_marker_nonempty env) Hb) as Hrb.
    rewrite length_drop in Hrb.
    destruct (find_Some _ _ _ Hb) as [Hb1 Hb2].
    destruct (Nat.ltb_spec b e) as [Hlt|Hge]; cbv beta iota zeta.
    + clear Hclose. rewrite IH by lia.
      rewrite (matching_close_open env Ha (drop sp tex) d b Hb1);
        [|by intros q Hq; split; [apply Hb2 | apply He2; lia]].
      rewrite drop_drop, Nat.add_1_r.
      destruct (matching_close _ _ _ _); simpl; [|done]. do 2 f_equal. lia.
    + apply Hclose. intros q Hq. apply Hb2. specialize (Hne b eq_refl). lia.
  - cbv beta iota zeta. apply Hclose. intros q _. by apply find_None.
Qed.

(** ** The outer loop *)

Lemma begin_search (tex env : str) (pos : nat) :
  pos ≤ length tex →
  re_search (begin_re env) tex pos =
  (λ p, MkMatch (pos + p) (pos + p + length (begin_marker env)) [])
    <$> find (begin_marker env) (drop pos tex).
Proof. apply re_search_lit. Qed.

(** The cursor of the outer loop strictly advances past each open marker
    found, and stays within the text. *)
Lemma cursor_advances (tex env : str) (pos : nat) (m : rematch) :
  pos ≤ length tex →
  re_search (begin_re env) tex pos = Some m →
  pos ≤ m_start m ∧ pos < m_end m ≤ length tex.
Proof.
  intros Hp. rewrite begin_search by done.
  destruct (find _ _) as [b|] eqn:Hb; [|done].
  apply find_in_range in Hb; [|done]. rewrite length_drop in Hb.
  pose proof (begin_marker_length env).
  remember (length (begin_marker env)) as lO.
  intros [= <-]. cbn [m_start m_end]. lia.
Qed.

Lemma find_blocks_total (tex env : str) (fuel pos : nat)
    (results : list block) :
  pos ≤ length tex → length tex - pos < fuel →
  is_Some (find_blocks fuel tex env pos results).
Proof.
  revert pos results.
  induction fuel as [|fuel IH]; intros pos results Hp Hf; [lia|].
  cbn [find_blocks].
  destruct (re_search (begin_re env) tex pos) as [m|] eqn:Hm; [|done].
  apply cursor_advances in Hm as [_ Hm]; [|done].
  destruct (find_end_total tex env (S (length tex)) (1, m_end m, None))
    as [r Hr]; cbn [fst snd]; [lia.. |].
  rewrite Hr. apply IH; lia.
Qed.

Lemma find_all_total (tex : str) (env_types : list str) (fuel : nat)
    (results : list block) :
  length tex < fuel → is_Some (find_all fuel tex env_types results).
Proof.
  revert results.
  induction env_types as [|env rest IH]; intros results Hf; [done|].
  cbn [find_all].
  destruct (find_blocks_total tex env fuel 0 results) as [r Hr]; [lia.. |].
  rewrite Hr. by apply IH.
Qed.

Lemma omap_all_None {A B} (f : A → option B) (l : list A) :
  (∀ x, x ∈ l → f x = None) → omap f l = [].
Proof.
  induction l as [|x l IH]; intros H; [done|]. simpl.
  rewrite (H x) by left. apply IH. intros y Hy. apply H. by right.
Qed.

Lemma no_block_without_marker (tex env : str) (a n : nat) :
  (∀ q, a ≤ q < a + n → occurs_at (begin_marker env) tex q = false) →
  omap (block_at tex env) (seq a n) = [].
Proof.
  intros H. apply omap_all_None. intros q Hq%elem_of_seq.
  unfold block_at. by rewrite H.
Qed.

(** The outer loop collects the blocks of the open markers from the cursor
    on. *)
Lemma find_blocks_spec (tex env : str) :
  alphabetic env →
  ∀ fuel pos results,
    pos ≤ length tex → length tex - pos < fuel →
    find_blocks fuel tex env pos results =
    Some (results ++ omap (block_at tex env) (seq pos (length tex - pos))).
Proof.
  intros Ha. induction fuel as [|fuel IH]; intros pos results Hp Hf; [lia|].
  cbn [find_blocks]. rewrite begin_search by done.
  pose proof (begin_marker_length env) as HlO.
  destruct (find (begin_marker env) (drop pos tex)) as [b|] eqn:Hb.
  2:{ cbn. rewrite no_block_without_marker; [by rewrite app_nil_r|].
      intros q Hq. replace q with (pos + (q - pos)) by lia.
      rewrite <- occurs_at_drop. by apply find_None. }
  pose proof (find_in_range _ _ _ (begin_marker_nonempty env) Hb) as Hr.
  rewrite length_drop in Hr.
  destruct (find_Some _ _ _ Hb) as [Hb1 Hb2].
  rewrite occurs_at_drop in Hb1.
  cbn [fmap option_fmap option_map m_start m_end].
  set (lO := length (begin_marker env)) in *.
  rewrite (find_end_matching tex env Ha) by lia.
  rewrite IH by lia.
  replace (length tex - pos)
    with (b + (1 + ((lO - 1) + (length tex - (pos + b + lO))))) by lia.
  rewrite !seq_app, !omap_app.
  rewrite (no_block_without_marker tex env pos b).
  2:{ intros q Hq. replace q with (pos + (q - pos)) by lia.
      rewrite <- occurs_at_drop. apply Hb2. lia. }
  rewrite (no_block_without_marker tex env _ (lO - 1)).
  2:{ intros q Hq.
      eapply (marker_inside (begin_marker env)); eauto using begin_marker_marker.
      fold lO. lia. }
  replace (pos + b + 1 + (lO - 1)) with (pos + b + lO) by lia.
  cbn [app seq omap list_omap].
  assert (block_at tex env (pos + b) =
          (λ e, (env, strip (slice tex (pos + b + lO) e), pos + b))
            <$> close_of tex env (pos + b)) as ->.
  { unfold block_at. by rewrite Hb1. }
  unfold close_of. fold lO.
  destruct (matching_close _ _ (drop (pos + b + lO) tex) 1) as [off|];
    cbn [fmap option_fmap option_map]; by rewrite <- ?app_assoc.
Qed.

Lemma find_all_spec (tex : str) (env_types : list str) (fuel : nat)
    (results : list block) :
  Forall alphabetic env_types → length tex < fuel →
  find_all fuel tex env_types results =
  Some (results ++ concat (map (blocks_of tex) env_types)).
Proof.
  intros Ha Hf. revert results.
  induction Ha as [|env rest Henv _ IH]; intros results; cbn.
  - by rewrite app_nil_r.
  - rewrite (find_blocks_spec tex env Henv) by lia.
    rewrite IH, Nat.sub_0_r. by rewrite <- app_assoc.
Qed.

(** ** The final sort *)

Lemma insert_block_perm (b : block) (l : list block) :
  insert_block b l ≡ₚ b :: l.
Proof.
  induction l as [|x l IH]; [done|]. simpl.
  destruct (block_start b <=? block_start x); [done|].
  rewrite IH. apply Permutation_swap.
Qed.

Lemma sort_blocks_perm (l : list block) : sort_blocks l ≡ₚ l.
Proof.
  induction l as [|x l IH]; [done|]. unfold sort_blocks in *. simpl.
  by rewrite insert_block_perm, IH.
Qed.

Lemma insert_block_sorted (b : block) (l : list block) :
  StronglySorted by_start l → StronglySorted by_start (insert_block b l).
Proof.
  induction 1 as [|x l Hl IH Hx]; simpl.
  - repeat constructor.
  - destruct (Nat.leb_spec (block_start b) (block_start x)) as [Hle|Hgt].
    + constructor; [by constructor|]. constructor; [done|].
      eapply Forall_impl; [exact Hx|]. unfold by_start. intros; simpl in *; lia.
    + constructor; [done|].
      rewrite insert_block_perm. constructor; [unfold by_start; lia | done].
Qed.

Lemma sort_blocks_sorted (l : list block) :
  StronglySorted by_start (sort_blocks l).
Proof.
  induction l as [|x l IH]; [constructor|].
  by apply insert_block_sorted.
Qed.

(** ** The extractor as a whole *)

Lemma find_environments_fuel_total (tex : str) (env_types : list str) :
  find_environments_fuel (S (length tex)) tex env_types
  = Some (find_environments tex env_types).
Proof.
  unfold find_environments, find_environments_fuel.
  destruct (find_all_total tex env_types (S (length tex)) []) as [r ->];
    [lia | done].
Qed.

Lemma find_environments_spec (tex : str) (env_types : list str) :
  Forall alphabetic env_types →
  find_environments tex env_types =
  sort_blocks (concat (map (blocks_of tex) env_types)).
Proof.
  intros Ha. unfold find_environments, find_environments_fuel.
  by rewrite (find_all_spec tex env_types _ [] Ha) by lia.
Qed.

Lemma matching_close_occurs (O C s : str) (d off : nat) :
  matching_close O C s d = Some off → occurs_at C s off = true.
Proof.
  revert d off. induction s as [|x s IH]; intros d off; [done|].
  cbn [matching_close].
  assert (∀ d' off', S <$> matching_close O C s d' = Some off' →
                     occurs_at C (x :: s) off' = true) as Hstep.
  { intros d' off' H. destruct (matching_close O C s d') as [n|] eqn:Hn;
      [|done]. simpl in H. injection H as <-. by apply (IH d'). }
  destruct (starts_with C (x :: s)) eqn:HC.
  - destruct (d =? 1); [by intros [= <-] | apply Hstep].
  - destruct (starts_with O (x :: s)); apply Hstep.
Qed.

Lemma close_of_occurs (tex env : str) (p e : nat) :
  close_of tex env p = Some e →
  p + length (begin_marker env) ≤ e ∧ occurs_at (end_marker env) tex e = true.
Proof.
  unfold close_of. destruct (matching_close _ _ _ _) as [off|] eqn:H; [|done].
  intros [= <-]. split; [apply Nat.le_add_r|].
  apply matching_close_occurs in H. by rewrite occurs_at_drop in H.
Qed.

Lemma block_at_Some (tex env : str) (p : nat) (b : block) :
  block_at tex env p = Some b ↔
  occurs_at (begin_marker env) tex p = true ∧
  ∃ e, close_of tex env p = Some e ∧
       b = (env, strip (slice tex (p + length (begin_marker env)) e), p).
Proof.
  unfold block_at. destruct (occurs_at _ _ _).
  - destruct (close_of tex env p) as [e|]; simpl; split.
    + intros [= <-]. by eauto.
    + by intros (_ & e' & [= <-] & ->).
    + done.
    + by intros (_ & e' & ? & _).
  - split; [done | by intros [? _]].
Qed.

Lemma elem_of_blocks_of (tex env : str) (b : block) :
  b ∈ blocks_of tex env ↔ ∃ p, block_at tex env p = Some b.
Proof.
  unfold blocks_of. rewrite list_elem_of_omap. split.
  - intros (p & _ & H). by exists p.
  - intros (p & H). exists p. split; [|done]. apply elem_of_seq.
    apply block_at_Some in H as (Ho & _).
    destruct (occurs_at_length _ _ _ Ho) as [Hl|Hl]; [|done].
    pose proof (begin_marker_length env). lia.
Qed.

Lemma elem_of_concat_map {A B} (f : A → list B) (l : list A) (x : B) :
  x ∈ concat (map f l) ↔ ∃ a, a ∈ l ∧ x ∈ f a.
Proof.
  induction l as [|a l IH]; simpl.
  - split; [by intros ?%elem_of_nil | by intros (? & ?%elem_of_nil & _)].
  - rewrite elem_of_app, IH. split.
    + intros [H | (a' & H1 & H2)].
      * exists a. split; [left | done].
      * exists a'. split; [by right | done].
    + intros (a' & [-> | H1]%elem_of_cons & H2); [by left | right; eauto].
Qed.

Lemma elem_of_find_environments (tex : str) (env_types : list str) (b : block) :
  Forall alphabetic env_types →
  b ∈ find_environments tex env_types ↔
  ∃ env p, env ∈ env_types ∧ block_at tex env p = Some b.
Proof.
  intros Ha. rewrite find_environments_spec, sort_blocks_perm by done.
  rewrite elem_of_concat_map. setoid_rewrite elem_of_blocks_of. split.
  - intros (env & Henv & p & Hp). by exists env, p.
  - intros (env & p & Henv & Hp). exists env. split; [done | by exists p].
Qed.

(** ** The matcher *)

(** A successful match ends in a successful call of its continuation, at
    an offset that is not before the start, with the spans of the groups
    of the pattern added to those it was given. *)
Lemma rmatch_inv (s : str) (r : regex) :
  ∀ i g k x,
    rmatch s r i g k = Some x →
    ∃ j new,
      k j (new ++ g) = Some x ∧ i ≤ j ∧ (i ≤ length s → j ≤ length s)
      ∧ Forall (λ e, e.1 ∈ group_ids r) new.
Proof.
  induction r as [|f|r1 IH1 r2 IH2|r1 IH1 r2 IH2|greedy lo hi r1 IH1
                  |n r1 IH1|positive r1 IH1|positive width r1 IH1|ml|ml];
    intros i g k x; cbn [rmatch group_ids].
  - intros H. exists i, []. by split_and!.
  - destruct (s !! i) as [c|] eqn:Hc; [|done].
    destruct (f c); [|done]. intros H. exists (S i), [].
    apply lookup_lt_Some in Hc. split_and!; [done | lia | lia | done].
  - intros H. apply IH1 in H as (j1 & n1 & H & Hj1 & Hl1 & Hn1).
    apply IH2 in H as (j2 & n2 & H & Hj2 & Hl2 & Hn2).
    exists j2, (n2 ++ n1). rewrite <- app_assoc.
    split_and!; [done | lia | auto | ].
    apply Forall_app. split; (eapply Forall_impl; [eassumption|]);
      intros e He; apply elem_of_app; auto.
  - unfold or_else. destruct (rmatch s r1 i g k) as [y|] eqn:H1.
    + intros [= <-]. apply IH1 in H1 as (j & n & H & Hj & Hl & Hn).
      exists j, n. split_and!; [done..|].
      eapply Forall_impl; [eassumption|]. intros e He. apply elem_of_app; auto.
    + intros H2. apply IH2 in H2 as (j & n & H & Hj & Hl & Hn).
      exists j, n. split_and!; [done..|].
      eapply Forall_impl; [eassumption|]. intros e He. apply elem_of_app; auto.
  - generalize (S (lo + length s)), 0. intros fuel n.
    revert n i g. induction fuel as [|fuel IHf]; intros n i g; [done|].
    cbn [repeat_loop].
    assert (rmatch s r1 i g
              (λ j g', if (lo <=? n) && (j <=? i) then None
                       else repeat_loop (rmatch s r1) greedy lo hi k fuel
                              (S n) j g') = Some x →
            ∃ j new, k j (new ++ g) = Some x ∧ i ≤ j
                     ∧ (i ≤ length s → j ≤ length s)
                     ∧ Forall (λ e, e.1 ∈ group_ids r1) new) as Hmore.
    { intros H. apply IH1 in H as (j1 & n1 & H & Hj1 & Hl1 & Hn1).
      destruct ((lo <=? n) && (j1 <=? i)); [done|].
      apply IHf in H as (j2 & n2 & H & Hj2 & Hl2 & Hn2).
      exists j2, (n2 ++ n1). rewrite <- app_assoc.
      split_and!; [done | lia | auto | by apply Forall_app]. }
    assert ((if lo <=? n then k i g else None) = Some x →
            ∃ j new, k j (new ++ g) = Some x ∧ i ≤ j
                     ∧ (i ≤ length s → j ≤ length s)
                     ∧ Forall (λ e, e.1 ∈ group_ids r1) new) as Hstop.
    { destruct (lo <=? n); [|done]. intros H. exists i, []. by split_and!. }
    cbv zeta. unfold or_else.
    destruct greedy, (under n hi).
    + match goal with |- match ?a with _ => _ end = _ → _ =>
        destruct a eqn:Ha end; [intros [= <-]; by apply Hmore | apply Hstop].
    + apply Hstop.
    + match goal with |- match ?a with _ => _ end = _ → _ =>
        destruct a eqn:Ha end; [intros [= <-]; by apply Hstop | apply Hmore].
    + match goal with |- match ?a with _ => _ end = _ → _ =>
        destruct a eqn:Ha end; [intros [= <-]; by apply Hstop | done].
  - intros H. apply IH1 in H as (j & n1 & H & Hj & Hl & Hn).
    exists j, ((n, (i, j)) :: n1). split_and!; [done..|].
    constructor; [by left|].
    eapply Forall_impl; [eassumption|]. intros e He. by right.
  - destruct (rmatch s r1 i g (λ j g', Some (j, g'))) as [[j0 g0]|] eqn:H1.
    + apply IH1 in H1 as (j & n & [= -> <-] & Hj & Hl & Hn).
      destruct positive; [|done]. intros H. exists i, n. by split_and!.
    + destruct positive; [done|]. intros H. exists i, []. by split_and!.
  - cbv zeta.
    match goal with |- match ?a with _ => _ end = _ → _ =>
      destruct a as [[j0 g0]|] eqn:H1 end.
    + destruct (width <=? i); [|done].
      apply IH1 in H1 as (j & n & H1 & Hj & Hl & Hn).
      destruct (j =? i); [|done]. injection H1 as -> <-.
      destruct positive; [|done]. intros H. exists i, n. by split_and!.
    + destruct positive; [done|]. intros H. exists i, []. by split_and!.
  - destruct (_ || _); [|done]. intros H. exists i, []. by split_and!.
  - destruct (_ || _); [|done]. intros H. exists i, []. by split_and!.
Qed.

(** ** Searching *)

Lemma match_at_inv (r : regex) (s : str) (i : nat) (m : rematch) :
  match_at r s i = Some m →
  m_start m = i ∧ i ≤ m_end m ∧ (i ≤ length s → m_end m ≤ length s)
  ∧ Forall (λ e, e.1 ∈ group_ids r) (m_groups m).
Proof.
  unfold match_at.
  destruct (rmatch s r i [] _) as [[j g]|] eqn:H; [|done]. intros [= <-].
  apply rmatch_inv in H as (j' & new & [= -> <-] & Hj & Hl & Hn).
  rewrite app_nil_r. by split_and!.
Qed.

Lemma search_loop_inv (r : regex) (s : str) (fuel i : nat) (m : rematch) :
  search_loop r s fuel i = Some m →
  i ≤ m_start m ≤ i + fuel ∧ match_at r s (m_start m) = Some m.
Proof.
  revert i. induction fuel as [|fuel IH]; intros i; cbn [search_loop];
    destruct (match_at r s i) as [m'|] eqn:Hm; try done.
  - intros [= ->]. destruct (match_at_inv _ _ _ _ Hm) as [-> _].
    split; [lia | done].
  - intros [= ->]. destruct (match_at_inv _ _ _ _ Hm) as [-> _].
    split; [lia | done].
  - intros H. apply IH in H as [H1 H2]. split; [lia | done].
Qed.

Lemma re_search_inv (r : regex) (s : str) (pos : nat) (m : rematch) :
  pos ≤ length s → re_search r s pos = Some m →
  pos ≤ m_start m ≤ m_end m ∧ m_end m ≤ length s
  ∧ match_at r s (m_start m) = Some m.
Proof.
  intros Hp. unfold re_search. rewrite Nat.min_l by done.
  intros [H1 H2]%search_loop_inv.
  destruct (match_at_inv _ _ _ _ H2) as (_ & H3 & H4 & _).
  split_and!; [lia | lia | apply H4; lia | done].
Qed.

(** The matches of [finditer] start at or after [pos], each after the one
    before, and each is a match of the pattern at its start offset. *)
Lemma finditer_loop_inv (r : regex) (s : str) (fuel pos : nat) :
  Forall (λ m, pos ≤ m_start m ∧ match_at r s (m_start m) = Some m)
    (finditer_loop r s fuel pos)
  ∧ StronglySorted (λ a b, m_start a < m_start b) (finditer_loop r s fuel pos).
Proof.
  revert pos. induction fuel as [|fuel IH]; intros pos; cbn [finditer_loop].
  { split; constructor. }
  destruct (Nat.ltb_spec (length s) pos) as [|Hp]; [split; constructor|].
  destruct (re_search r s pos) as [m|] eqn:Hm; [|split; constructor].
  apply re_search_inv in Hm as (H1 & H2 & H3); [|done].
  set (pos' := if m_end m =? m_start m then S (m_end m) else m_end m).
  assert (m_start m < pos') as Hlt.
  { unfold pos'. destruct (Nat.eqb_spec (m_end m) (m_start m)); lia. }
  destruct (IH pos') as [IH1 IH2]. split.
  - constructor; [split; [lia | done]|].
    eapply Forall_impl; [exact IH1|]. intros m' [? ?]. split; [lia | done].
  - constructor; [done|].
    eapply Forall_impl; [exact IH1|]. intros m' [? ?]. simpl. lia.
Qed.

Lemma re_finditer_match_at (r : regex) (s : str) (m : rematch) :
  m ∈ re_finditer r s → match_at r s (m_start m) = Some m.
Proof.
  intros Hm. destruct (finditer_loop_inv r s (S (length s)) 0) as [H _].
  rewrite Forall_forall in H. by apply H.
Qed.

Lemma re_finditer_sorted (r : regex) (s : str) :
  StronglySorted (λ a b, m_start a < m_start b) (re_finditer r s).
Proof. apply finditer_loop_inv. Qed.

(** ** The heading index *)

Lemma group_span_app (n : nat) (new g : groups) :
  Forall (λ e, e.1 ≠ n) new → group_span n (new ++ g) = group_span n g.
Proof.
  induction 1 as [|[n' sp] new Hn _ IH]; [done|]. simpl in *.
  destruct (Nat.eqb_spec n n'); [congruence | done].
Qed.

Lemma or_else_Some {A} (x : option A) (y : unit → option A) (z : A) :
  or_else x y = Some z → x = Some z ∨ y tt = Some z.
Proof. destruct x; simpl; auto. Qed.

(** The first group of a match of the heading pattern is one of the three
    heading commands. *)
Lemma section_re_rank (s : str) (i : nat) (m : rematch) :
  match_at section_re s i = Some m →
  is_Some (rank_of (group_str s m 1)).
Proof.
  unfold match_at.
  destruct (rmatch s section_re i [] _) as [[j g]|] eqn:H; [|done].
  intros [= <-]. unfold group_str, group. cbn [m_groups].
  unfold section_re in H. cbn [RCat] in H.
  remember (RSeq (RLit (lit "{"))
              (RSeq (RGroup 2 (RPlus (RNot (ch "}")))) (RLit (lit "}"))))
    as rest eqn:Hrest.
  unfold RChar in H. cbn [rmatch] in H.
  destruct (s !! i) as [c|]; [|done]. destruct (char_eqb BACKSLASH c); [|done].
  rewrite !rmatch_lit in H.
  assert (∀ a, is_Some (rank_of a) →
            (if occurs_at a s (S i)
             then rmatch s rest (S i + length a)
                    [(1, (S i, S i + length a))] (λ j g, Some (j, g))
             else None) = Some (j, g) →
            is_Some (rank_of (default [] (match group_span 1 g with
                                          | Some (a, b) => Some (slice s a b)
                                          | None => None
                                          end)))) as Hk.
  { intros a Hr Hm. destruct (occurs_at a s (S i)) eqn:Ha; [|done].
    apply rmatch_inv in Hm as (j' & new & [= -> <-] & _ & _ & Hnew).
    rewrite group_span_app.
    - cbn [group_span Nat.eqb from_option id].
      change (S (i + length a)) with (S i + length a).
      by rewrite (occurs_at_slice _ _ _ Ha).
    - eapply Forall_impl; [exact Hnew|]. intros [n sp] He Hn.
      cbn [fst] in *. subst n rest. apply (bool_decide_pack _) in He.
      by vm_compute in He. }
  apply or_else_Some in H as [H|H]; [by apply Hk in H|].
  apply or_else_Some in H as [H|H]; by apply Hk in H.
Qed.

(** The heading index of every document is by position, with valid
    ranks. *)
Lemma find_sections_index (tex : str) : heading_index (find_sections tex).
Proof.
  unfold find_sections, heading_index. split.
  - pose proof (re_finditer_sorted section_re tex) as H.
    induction H as [|m ms Hs IH Hm]; [constructor|]. cbn [map].
    constructor; [done|]. apply Forall_forall.
    intros h (m' & <- & Hm')%list_elem_of_In%in_map_iff. simpl.
    rewrite Forall_forall in Hm.
    apply list_elem_of_In in Hm'. specialize (Hm _ Hm'). simpl in Hm. lia.
  - apply Forall_forall.
    intros h (m & <- & Hm)%list_elem_of_In%in_map_iff. simpl.
    apply list_elem_of_In, re_finditer_match_at in Hm.
    by eapply section_re_rank.
Qed.

Lemma rank_of_Some (sec_type : str) (r : rank) :
  rank_of sec_type = Some r →
  sec_type = match r with
             | Top => lit "section"
             | Mid => lit "subsection"
             | Low => lit "subsubsection"
             end.
Proof.
  unfold rank_of. repeat case_bool_decide; naive_solver.
Qed.

Lemma filter_later (pos : nat) (sections : list heading) :
  Forall (λ h : heading, pos < h.1.1) sections →
  filter (λ h : heading, h.1.1 ≤ pos) sections = [].
Proof.
  induction 1 as [|h l Hh _ IH]; [done|].
  rewrite filter_cons_False by lia. done.
Qed.

(** The loop over the headings keeps the titles of the fold over the
    headings up to [pos]. *)
Lemma context_loop_spec (pos : nat) (sections : list heading) :
  heading_index sections →
  ∀ current t, represents current t →
    ∃ current',
      context_loop pos sections current = Some current'
      ∧ represents current'
          (foldl heading_event t
             (filter (λ h : heading, h.1.1 ≤ pos) sections)).
Proof.
  intros [Hs Hr]. induction Hs as [|[[sec_pos sec_type] sec_title] rest Hs IH Hle];
    intros current t Ht.
  { exists current. by split. }
  apply Forall_cons in Hr as [[r Hrk] Hr]. cbn [fst snd] in Hrk.
  cbn [context_loop]. destruct (Nat.ltb_spec pos sec_pos) as [Hlt|Hge].
  - exists current. split; [done|].
    rewrite filter_cons_False by (simpl; lia).
    rewrite filter_later; [done|].
    eapply Forall_impl; [exact Hle|]. simpl. intros; lia.
  - rewrite filter_cons_True by (simpl; lia). cbn [foldl].
    assert (heading_event t (sec_pos, sec_type, sec_title)
            = set_title t r sec_title) as ->.
    { unfold heading_event. cbn [fst snd]. by rewrite Hrk. }
    apply rank_of_Some in Hrk as ->. destruct Ht as (Ht1 & Ht2 & Ht3).
    destruct r; cbn -[lit]; apply (IH Hr); unfold represents; cbn -[lit];
      split_and!;
      repeat first [ rewrite lookup_delete_eq
                   | rewrite lookup_delete_ne by done
                   | rewrite lookup_insert_eq
                   | rewrite lookup_insert_ne by done ]; done.
Qed.

Lemma get_section_context_spec (pos : nat) (sections : list heading) :
  heading_index sections →
  get_section_context pos sections = Some (context_at pos sections).
Proof.
  intros Hi. unfold get_section_context, context_at.
  destruct (context_loop_spec pos sections Hi ∅ (None, None, None))
    as (current & -> & H1 & H2 & H3); [done|].
  cbn -[lit join]. rewrite H1, H2, H3. f_equal.
  by destruct (foldl _ _ _) as [[[a|] [b|]] [c|]].
Qed.

(** ** Termination of the extractor *)

Lemma find_blocks_fuel (tex env : str) (fuel fuel' pos : nat)
    (results r : list block) :
  find_blocks fuel tex env pos results = Some r → fuel ≤ fuel' →
  find_blocks fuel' tex env pos results = Some r.
Proof.
  revert fuel' pos results.
  induction fuel as [|fuel IH]; intros fuel' pos results; [done|].
  intros H Hle. destruct fuel' as [|fuel']; [lia|].
  cbn [find_blocks] in *.
  destruct (re_search (begin_re env) tex pos) as [m|]; [|done].
  destruct (find_end _ _ _ _) as [end_pos|]; [|done].
  apply IH; [done | lia].
Qed.

Lemma find_all_fuel (tex : str) (env_types : list str) (fuel fuel' : nat)
    (results r : list block) :
  find_all fuel tex env_types results = Some r → fuel ≤ fuel' →
  find_all fuel' tex env_types results = Some r.
Proof.
  revert results. induction env_types as [|env rest IH]; intros results;
    [done|].
  cbn [find_all]. intros H Hle.
  destruct (find_blocks fuel tex env 0 results) as [r'|] eqn:Hr; [|done].
  rewrite (find_blocks_fuel _ _ _ _ _ _ _ Hr Hle). by apply IH.
Qed.

Lemma find_environments_any_fuel (tex : str) (env_types : list str)
    (fuel : nat) :
  length tex < fuel →
  find_environments_fuel fuel tex env_types
  = Some (find_environments tex env_types).
Proof.
  intros Hf. pose proof (find_environments_fuel_total tex env_types) as H.
  unfold find_environments_fuel in *.
  destruct (find_all (S (length tex)) tex env_types []) as [r|] eqn:Hr;
    [|done].
  by rewrite (find_all_fuel _ _ _ fuel _ _ Hr) by lia.
Qed.

(** C10.  The block extractor terminates on every text and every list of
    environment names: with more fuel than the text has characters no loop
    of [find_environments] runs out of fuel, and the result does not
    depend on the fuel; the cursor of the outer loop strictly advances
    past each open marker found; every turn of the inner loop either
    leaves the loop or strictly advances the search position, which stays
    within the text, so that the inner loop and the outer loop end within
    [length tex + 1] tests of their conditions. *)
Theorem find_environments_terminates (tex : str) (env_types : list str) :
  (∀ fuel, length tex < fuel →
     find_environments_fuel fuel tex env_types
     = Some (find_environments tex env_types))
  ∧ (∀ env pos m,
       pos ≤ length tex → re_search (begin_re env) tex pos = Some m →
       pos < m_end m ≤ length tex)
  ∧ (∀ env st st',
       st.1.2 ≤ length tex → scan_step tex env st = inl st' →
       st.1.2 < st'.1.2 ≤ length tex)
  ∧ (∀ env fuel st,
       st.1.2 ≤ length tex → length tex - st.1.2 < fuel →
       is_Some (find_end fuel tex env st))
  ∧ (∀ env fuel pos results,
       pos ≤ length tex → length tex - pos < fuel →
       is_Some (find_blocks fuel tex env pos results)).
Proof.
  split_and!.
  - intros fuel. apply find_environments_any_fuel.
  - intros env pos m Hp Hm.
    by apply (cursor_advances tex env pos m Hp) in Hm as [_ Hm].
  - intros env st st'. apply scan_step_advances.
  - intros env fuel st. apply find_end_total.
  - intros env fuel pos results. apply find_blocks_total.
Qed.

Lemma find_environments_terminates_witness :
  find_environments_fuel 100 unclosed_doc ENV_TYPES
  = Some (find_environments unclosed_doc ENV_TYPES)
  ∧ 0 < 13 ≤ length unclosed_doc
  ∧ 43 < 60 ≤ length unclosed_doc
  ∧ is_Some (find_end 80 unclosed_doc (lit "theorem") (1, 43, None))
  ∧ is_Some (find_blocks 80 unclosed_doc (lit "theorem") 0 []).
Proof.
  destruct (find_environments_terminates unclosed_doc ENV_TYPES)
    as (H1 & H2 & H3 & H4 & H5).
  refine (conj _ (conj _ (conj _ (conj _ _)))).
  - apply H1. vm_compute. lia.
  - apply (H2 (lit "lemma") 0 (MkMatch 0 13 [])); [vm_compute; lia|].
    vm_compute. reflexivity.
  - pose proof (H3 (lit "theorem") (1, 43, None) (2, 60, None)) as H.
    cbn [fst snd] in H. apply H; [vm_compute; lia|]. vm_compute. reflexivity.
  - apply H4; vm_compute; lia.
  - apply H5; vm_compute; lia.
Defined.

(** ** Blocks in document order *)

Lemma alphabetic_ENV_TYPES : Forall alphabetic ENV_TYPES.
Proof. repeat constructor. Defined.

(** C2.  For every document and every list of alphabetic environment
    names, the extractor returns one block for each properly closed
    occurrence of an open marker of those names and nothing else (its
    result is a permutation of the blocks of [blocks_of], which has one
    entry for each offset where an open marker stands and has a matching
    close marker); the list is sorted by start offset; and a block is in
    it exactly when it is the environment name, the trimmed text strictly
    between an open marker at [p] and its matching close marker at [e],
    and [p]. *)
Theorem find_environments_document_order (tex : str) (env_types : list str) :
  Forall alphabetic env_types →
  find_environments tex env_types ≡ₚ concat (map (blocks_of tex) env_types)
  ∧ StronglySorted by_start (find_environments tex env_types)
  ∧ ∀ b, b ∈ find_environments tex env_types ↔
         ∃ env p e,
           env ∈ env_types
           ∧ occurs_at (begin_marker env) tex p = true
           ∧ close_of tex env p = Some e
           ∧ occurs_at (end_marker env) tex e = true
           ∧ b = (env, strip (slice tex (p + length (begin_marker env)) e), p).
Proof.
  intros Ha. split_and!.
  - rewrite find_environments_spec by done. apply sort_blocks_perm.
  - rewrite find_environments_spec by done. apply sort_blocks_sorted.
  - intros b. rewrite elem_of_find_environments by done. split.
    + intros (env & p & Henv & (Ho & e & He & ->)%block_at_Some).
      exists env, p, e. split_and!; try done.
      by apply close_of_occurs in He as [_ He].
    + intros (env & p & e & Henv & Ho & He & _ & ->).
      exists env, p. split; [done|]. apply block_at_Some. eauto.
Qed.

Lemma find_environments_document_order_witness :
  Forall alphabetic ENV_TYPES
  ∧ find_environments unclosed_doc ENV_TYPES
    ≡ₚ concat (map (blocks_of unclosed_doc) ENV_TYPES)
  ∧ StronglySorted by_start (find_environments unclosed_doc ENV_TYPES).
Proof.
  split; [exact alphabetic_ENV_TYPES|].
  destruct (find_environments_document_order unclosed_doc ENV_TYPES
              alphabetic_ENV_TYPES) as (H1 & H2 & _).
  by split.
Defined.

(** ** Unclosed blocks *)

Lemma make_card_total (course : str) (all_macros : list macro)
    (sections : list heading) (b : block) :
  heading_index sections →
  is_Some (make_card course all_macros sections b).
Proof.
  intros Hi. destruct b as [[env_type body] pos]. unfold make_card.
  destruct (extract_title_from_body body) as [title clean_body].
  by rewrite (get_section_context_spec pos sections Hi).
Qed.

(** [process_file] raises no exception and makes one card from each block
    of the extractor, in order. *)
Lemma process_file_cards (course content : str) (global_macros : list macro) :
  ∃ cards,
    process_file course content global_macros = Some cards
    ∧ Forall2
        (λ b c, make_card course (global_macros ++ load_file_macros content)
                  (find_sections content) b = Some c)
        (find_environments content ENV_TYPES) cards.
Proof.
  unfold process_file.
  destruct (mapM_is_Some_2
              (make_card course (global_macros ++ load_file_macros content)
                 (find_sections content))
              (find_environments content ENV_TYPES)) as [cards Hc].
  - apply Forall_forall. intros b _. apply make_card_total.
    apply find_sections_index.
  - exists cards. split; [done|]. by apply mapM_Some_1.
Qed.

(** C3.  When an open marker of an environment stands at offset [p] of a
    document and has no matching close marker, the extractor returns no
    block for it: whatever the body, no block of that environment that
    starts at [p] is in its result; the extractor still returns a result
    (no loop runs out, nothing is raised); and [process_file] returns its
    cards without an exception, one card made from each block of the
    extractor, so that the unclosed block contributes no card. *)
Theorem unclosed_block_dropped (tex env : str) (p : nat) :
  alphabetic env →
  occurs_at (begin_marker env) tex p = true →
  close_of tex env p = None →
  (∀ env_types body,
     Forall alphabetic env_types →
     (env, body, p) ∉ find_environments tex env_types)
  ∧ (∀ env_types,
       find_environments_fuel (S (length tex)) tex env_types
       = Some (find_environments tex env_types))
  ∧ ∀ course global_macros,
      ∃ cards,
        process_file course tex global_macros = Some cards
        ∧ length cards = length (find_environments tex ENV_TYPES)
        ∧ Forall2
            (λ b c, make_card course (global_macros ++ load_file_macros tex)
                      (find_sections tex) b = Some c)
            (find_environments tex ENV_TYPES) cards
        ∧ ∀ body, (env, body, p) ∉ find_environments tex ENV_TYPES.
Proof.
  intros Ha Ho Hc.
  assert (∀ env_types body,
            Forall alphabetic env_types →
            (env, body, p) ∉ find_environments tex env_types) as Hdrop.
  { intros env_types body Hall. rewrite elem_of_find_environments by done.
    intros (env' & p' & _ & (_ & e & He & [= -> _ ->])%block_at_Some).
    congruence. }
  split_and!.
  - exact Hdrop.
  - intros env_types. apply find_environments_fuel_total.
  - intros course global_macros.
    destruct (process_file_cards course tex global_macros) as (cards & H1 & H2).
    exists cards. split_and!; [done | | done | ].
    + symmetry. by eapply Forall2_length.
    + intros body. apply Hdrop, alphabetic_ENV_TYPES.
Qed.

Lemma unclosed_block_dropped_witness :
  alphabetic (lit "theorem")
  ∧ occurs_at (begin_marker (lit "theorem")) unclosed_doc 28 = true
  ∧ close_of unclosed_doc (lit "theorem") 28 = None
  ∧ (∀ body, (lit "theorem", body, 28) ∉ find_environments unclosed_doc ENV_TYPES)
  ∧ ∃ cards,
      process_file (lit "CourseA") unclosed_doc [] = Some cards
      ∧ length cards = length (find_environments unclosed_doc ENV_TYPES).
Proof.
  assert (alphabetic (lit "theorem")) as Ha by repeat constructor.
  assert (occurs_at (begin_marker (lit "theorem")) unclosed_doc 28 = true)
    as Ho by (vm_compute; reflexivity).
  assert (close_of unclosed_doc (lit "theorem") 28 = None)
    as Hc by (vm_compute; reflexivity).
  destruct (unclosed_block_dropped unclosed_doc (lit "theorem") 28 Ha Ho Hc)
    as (H1 & _ & H3).
  split_and!; [done.. | |].
  - intros body. apply H1, alphabetic_ENV_TYPES.
  - destruct (H3 (lit "CourseA") []) as (cards & Hp & Hl & _).
    exists cards. by split.
Defined.

(** ** Nested blocks *)

Lemma slice_app (s : str) (a b c : nat) :
  a ≤ b ≤ c → slice s a c = slice s a b ++ slice s b c.
Proof.
  intros H. unfold slice.
  replace (c - a) with ((b - a) + (c - b)) by lia.
  rewrite <- take_take_drop, drop_drop. do 3 f_equal. lia.
Qed.

Lemma drop_while_keeps (f : char → bool) (u t : str) (c : char) :
  f c = false → ∃ u', drop_while f (u ++ c :: t) = u' ++ c :: t.
Proof.
  intros Hc. induction u as [|x u [u' IH]]; simpl.
  - exists []. by rewrite Hc.
  - destruct (f x); [by exists u' | by exists (x :: u)].
Qed.

(** Trimming does not reach into a text that starts and ends with
    characters that are not white space. *)
Lemma strip_keeps (u t w : str) (a z : char) :
  is_space a = false → is_space z = false →
  ∃ u' w', strip (u ++ (a :: t ++ [z]) ++ w) = u' ++ (a :: t ++ [z]) ++ w'.
Proof.
  intros Ha Hz. unfold strip, strip_set.
  destruct (drop_while_keeps is_space u ((t ++ [z]) ++ w) a Ha) as [u' Hu].
  change (u ++ (a :: t ++ [z]) ++ w) with (u ++ a :: (t ++ [z]) ++ w).
  rewrite Hu.
  replace (rev (u' ++ a :: (t ++ [z]) ++ w))
    with (rev w ++ z :: rev (u' ++ a :: t)).
  2:{ rewrite !rev_app_distr. simpl. rewrite !rev_app_distr. simpl.
      by rewrite <- !app_assoc. }
  destruct (drop_while_keeps is_space (rev w) (rev (u' ++ a :: t)) z Hz)
    as [w' Hw].
  rewrite Hw. exists u', (rev w').
  rewrite rev_app_distr. simpl. rewrite rev_involutive.
  by rewrite <- !app_assoc.
Qed.

Lemma NoDup_omap {A B} (f : A → option B) (l : list A) :
  (∀ x y z, f x = Some z → f y = Some z → x = y) →
  NoDup l → NoDup (omap f l).
Proof.
  intros Hinj. induction 1 as [|x l Hx Hl IH]; simpl; [constructor|].
  destruct (f x) as [z|] eqn:Hz; [|done]. constructor; [|done].
  intros (y & Hy & Hfy)%list_elem_of_omap.
  by rewrite (Hinj _ _ _ Hz Hfy) in Hx.
Qed.

Lemma block_at_fields (tex env : str) (p : nat) (b : block) :
  block_at tex env p = Some b → b.1.1 = env ∧ b.2 = p.
Proof. by intros (_ & e & _ & ->)%block_at_Some. Qed.

Lemma blocks_of_NoDup (tex env : str) : NoDup (blocks_of tex env).
Proof.
  apply NoDup_omap; [|apply NoDup_seq].
  intros x y z [_ <-]%block_at_fields [_ <-]%block_at_fields. done.
Qed.

(** No block is returned twice when no environment name is listed
    twice. *)
Lemma find_environments_NoDup (tex : str) (env_types : list str) :
  Forall alphabetic env_types → NoDup env_types →
  NoDup (find_environments tex env_types).
Proof.
  intros Ha Hn. rewrite find_environments_spec, sort_blocks_perm by done.
  clear Ha. induction Hn as [|env rest Henv Hn IH]; simpl; [constructor|].
  apply NoDup_app. split_and!; [apply blocks_of_NoDup | | done].
  intros b (p & [<- _]%block_at_fields)%elem_of_blocks_of.
  intros (env' & Henv' & (p' & [Heq _]%block_at_fields)%elem_of_blocks_of)
    %elem_of_concat_map.
  by rewrite <- Heq in Henv'.
Qed.

Lemma begin_marker_ends (env : str) :
  ∃ t, begin_marker env = BACKSLASH :: t.
Proof. by eexists. Qed.

Lemma end_marker_ends (env : str) :
  ∃ t, end_marker env = t ++ [ch "}"].
Proof.
  exists (lit "\end{" ++ env). unfold end_marker. by rewrite <- app_assoc.
Qed.

(** The raw text between the markers of an outer block holds the whole
    inner block, markers included. *)
Lemma outer_text_holds_inner (tex env : str) (p q ep eq : nat) :
  occurs_at (begin_marker env) tex q = true →
  close_of tex env q = Some eq →
  p + length (begin_marker env) ≤ q → eq + length (end_marker env) ≤ ep →
  slice tex (p + length (begin_marker env)) ep =
  slice tex (p + length (begin_marker env)) q
  ++ (begin_marker env ++ slice tex (q + length (begin_marker env)) eq
      ++ end_marker env)
  ++ slice tex (eq + length (end_marker env)) ep.
Proof.
  intros Hq Heq Hpq Hqe. apply close_of_occurs in Heq as [Hle He].
  rewrite (slice_app tex _ q ep) by lia.
  rewrite (slice_app tex q (q + length (begin_marker env)) ep) by lia.
  rewrite (slice_app tex (q + length (begin_marker env)) eq ep) by lia.
  rewrite (slice_app tex eq (eq + length (end_marker env)) ep) by lia.
  rewrite (occurs_at_slice _ _ _ Hq), (occurs_at_slice _ _ _ He).
  by rewrite <- !app_assoc.
Qed.

Lemma singleton_list {A} (l : list A) (a : A) :
  NoDup l → a ∈ l → (∀ x, x ∈ l → x = a) → l = [a].
Proof.
  intros Hn Ha Hall. destruct l as [|x l]; [by apply elem_of_nil in Ha|].
  pose proof (Hall x ltac:(left)) as ->. f_equal.
  destruct l as [|y l]; [done|].
  pose proof (Hall y ltac:(right; left)) as ->.
  apply NoDup_cons in Hn as [Hn _]. exfalso. apply Hn. left.
Qed.

Lemma top_level_false (tex : str) (result : list block) (b b' : block) :
  b' ∈ result → inside tex b b' = true → top_level tex result b = false.
Proof.
  intros Hin Hi. unfold top_level.
  destruct (forallb _ result) eqn:E; [|done].
  rewrite forallb_forall in E. setoid_rewrite <- list_elem_of_In in E.
  specialize (E b' Hin). by rewrite Hi in E.
Qed.

(** C1.  When a block of an environment is nested in another block of the
    same environment, both with matching close markers, the extractor
    returns exactly one block that starts at the outer open marker, and
    its body holds the inner open marker, the inner text and the inner
    close marker as literal text.  The inner block is returned as well, as
    a block of its own that starts at the inner open marker; it is not a
    top-level block, and no block of the environment that starts inside
    the outer one is.  When the text holds no open marker of the
    environment outside the outer block, the outer block is the one
    top-level block of the environment in the result. *)
Theorem nested_block_top_level (tex env : str) (env_types : list str)
    (p q ep eq : nat) :
  Forall alphabetic env_types → NoDup env_types → env ∈ env_types →
  occurs_at (begin_marker env) tex p = true →
  close_of tex env p = Some ep →
  occurs_at (begin_marker env) tex q = true →
  close_of tex env q = Some eq →
  p + length (begin_marker env) ≤ q → eq + length (end_marker env) ≤ ep →
  let result := find_environments tex env_types in
  let outer : block :=
    (env, strip (slice tex (p + length (begin_marker env)) ep), p) in
  let inner : block :=
    (env, strip (slice tex (q + length (begin_marker env)) eq), q) in
  NoDup result
  ∧ outer ∈ result
  ∧ (∀ b, b ∈ result → b.1.1 = env → b.2 = p → b = outer)
  ∧ inner ∈ result
  ∧ inner ≠ outer
  ∧ (∃ u w,
      outer.1.2 =
      u ++ (begin_marker env ++ slice tex (q + length (begin_marker env)) eq
            ++ end_marker env) ++ w)
  ∧ top_level tex result inner = false
  ∧ (∀ b, b ∈ result → b.1.1 = env → p ≤ b.2 < ep →
          top_level tex result b = true → b = outer)
  ∧ ((∀ p', occurs_at (begin_marker env) tex p' = true → p ≤ p' < ep) →
     filter (λ b : block, b.1.1 = env ∧ top_level tex result b = true) result
     = [outer]).
Proof.
  intros Ha Hn Henv Hp Hep Hq Heq Hpq Hqe result outer inner.
  pose proof (begin_marker_length env) as HlO.
  pose proof (end_marker_length env) as HlC.
  pose proof (close_of_occurs _ _ _ _ Heq) as [Hqeq _].
  assert (NoDup result) as Hnd by (by apply find_environments_NoDup).
  assert (outer ∈ result) as Hout.
  { apply elem_of_find_environments; [done|]. exists env, p.
    split; [done|]. apply block_at_Some. eauto. }
  assert (∀ b, b ∈ result → b.1.1 = env → b.2 = p → b = outer) as Hone.
  { intros b Hb H1 H2. apply elem_of_find_environments in Hb; [|done].
    destruct Hb as (env' & p' & _ & Hb).
    destruct (block_at_fields _ _ _ _ Hb) as [<- <-]. rewrite H1, H2 in Hb.
    apply block_at_Some in Hb as (_ & e & He & ->).
    rewrite Hep in He. injection He as <-. done. }
  assert (∀ b, b.1.1 = env → p < b.2 < ep → inside tex b outer = true)
    as Hins.
  { intros b H1 H2. unfold inside, outer. cbn [fst snd]. rewrite Hep.
    rewrite bool_decide_eq_true_2 by done.
    rewrite (proj2 (Nat.ltb_lt _ _)), (proj2 (Nat.ltb_lt _ _)) by lia.
    done. }
  assert (∀ b, b ∈ result → b.1.1 = env → p ≤ b.2 < ep →
               top_level tex result b = true → b = outer) as Hin.
  { intros b Hb H1 H2 Ht.
    destruct (decide (b.2 = p)) as [E|E]; [by apply Hone|].
    rewrite (top_level_false tex result b outer) in Ht; [done..|].
    apply Hins; [done | lia]. }
  split_and!; [done..| | | | | |].
  - apply elem_of_find_environments; [done|]. exists env, q.
    split; [done|]. apply block_at_Some. eauto.
  - intros [= _ ?]. lia.
  - cbn [fst snd outer].
    rewrite (outer_text_holds_inner tex env p q ep eq) by done.
    destruct (begin_marker_ends env) as [t1 ->].
    destruct (end_marker_ends env) as [t2 ->].
    replace ((BACKSLASH :: t1)
             ++ slice tex (q + length (BACKSLASH :: t1)) eq ++ t2 ++ [ch "}"])
      with (BACKSLASH
            :: (t1 ++ slice tex (q + length (BACKSLASH :: t1)) eq ++ t2)
               ++ [ch "}"])
      by (simpl; by rewrite <- !app_assoc).
    by apply strip_keeps.
  - apply (top_level_false tex result inner outer); [done|].
    apply Hins; [done|]. unfold inner. cbn [snd]. lia.
  - done.
  - intros Hall.
    assert (∀ b, b ∈ result → b.1.1 = env → p ≤ b.2 < ep) as Hspan.
    { intros b Hb H1. apply elem_of_find_environments in Hb; [|done].
      destruct Hb as (env' & p' & _ & Hb).
      destruct (block_at_fields _ _ _ _ Hb) as [<- <-].
      apply block_at_Some in Hb as (Ho & _). rewrite H1 in Ho.
      by apply Hall. }
    apply singleton_list.
    + by apply NoDup_filter.
    + apply list_elem_of_filter. split; [|done]. split; [done|].
      unfold top_level. apply forallb_forall. intros b' Hb'.
      apply list_elem_of_In in Hb'. apply negb_true_iff.
      unfold inside, outer. cbn [fst snd].
      destruct (decide (env = b'.1.1)) as [E|E];
        [|by rewrite bool_decide_eq_false_2].
      rewrite bool_decide_eq_true_2 by done. cbn [andb].
      destruct (close_of tex b'.1.1 b'.2) as [e|]; [|done].
      pose proof (Hspan b' Hb' (eq_sym E)) as Hs.
      rewrite (proj2 (Nat.ltb_ge _ _)) by lia. done.
    + intros b [[H1 H2] Hb]%list_elem_of_filter.
      apply Hin; [done | done | by apply Hspan | done].
Qed.

Lemma nested_block_top_level_witness :
  (lit "theorem", strip (slice nested_doc 15 46), 0)
    ∈ find_environments nested_doc ENV_TYPES
  ∧ (lit "theorem", strip (slice nested_doc 31 32), 16)
    ∈ find_environments nested_doc ENV_TYPES
  ∧ top_level nested_doc (find_environments nested_doc ENV_TYPES)
      (lit "theorem", strip (slice nested_doc 31 32), 16) = false
  ∧ filter (λ b : block,
              b.1.1 = lit "theorem"
              ∧ top_level nested_doc (find_environments nested_doc ENV_TYPES) b
                = true)
      (find_environments nested_doc ENV_TYPES)
    = [(lit "theorem", strip (slice nested_doc 15 46), 0)].
Proof.
  assert (NoDup ENV_TYPES) as Hn by (apply (bool_decide_unpack _); exact I).
  assert (lit "theorem" ∈ ENV_TYPES) as Hin
    by (apply (bool_decide_unpack _); exact I).
  pose proof
    (nested_block_top_level nested_doc (lit "theorem") ENV_TYPES
       0 16 46 32 alphabetic_ENV_TYPES Hn Hin) as H.
  destruct H as (_ & H2 & _ & H4 & _ & _ & H7 & _ & H9).
  - vm_compute; reflexivity.
  - vm_compute; reflexivity.
  - vm_compute; reflexivity.
  - vm_compute; reflexivity.
  - vm_compute; lia.
  - vm_compute; lia.
  - split_and!; [exact H2 | exact H4 | exact H7 |].
    apply H9. intros p' Hp'. split; [lia|].
    destruct (decide (p' < 46)) as [|Hge]; [done|]. exfalso.
    assert (occurs_at (begin_marker (lit "theorem")) nested_doc p' = false)
      as E; [|by rewrite E in Hp'].
    clear Hp'.
    do 46 (destruct p' as [|p']; [lia|]).
    do 14 (destruct p' as [|p']; [vm_compute; reflexivity|]).
    reflexivity.
Defined.

(** The blocks of the nested text, as computed: the outer block, with
    the inner markers in its body, and the inner block; the outer one is
    the only top-level block. *)
Lemma nested_doc_blocks :
  find_environments nested_doc ENV_TYPES =
  [(lit "theorem", lit "A\begin{theorem}B\end{theorem}C", 0);
   (lit "theorem", lit "B", 16)]
  ∧ filter (top_level nested_doc (find_environments nested_doc ENV_TYPES))
      (find_environments nested_doc ENV_TYPES)
    = [(lit "theorem", lit "A\begin{theorem}B\end{theorem}C", 0)].
Proof. split; vm_compute; reflexivity. Qed.

(** ** Heading context *)

Lemma sample_headings_index : heading_index sample_headings.
Proof.
  split.
  - repeat (constructor; cbn [fst snd]; try lia).
  - repeat constructor; by eexists.
Defined.

(** C6.  On a list of headings as the heading index builds it (by
    position, each of one of the three ranks), the lookup at position
    [pos] is the fold of [context_at]: over exactly the headings at a
    position up to [pos], keeping the current title of each rank, where
    setting the title of a rank clears the strictly deeper ranks.  The
    heading list of every document is such a list.  With a top heading
    "Ch1" at 0 and mid headings "S1" at 10 and "S2" at 20 the lookup at 15
    gives "Ch1 > S1" and the lookup at 25 gives "Ch1 > S2". *)
Theorem get_section_context_fold (pos : nat) (sections : list heading) :
  heading_index sections →
  get_section_context pos sections = Some (context_at pos sections)
  ∧ (∀ tex, get_section_context pos (find_sections tex)
            = Some (context_at pos (find_sections tex)))
  ∧ get_section_context 15 sample_headings = Some (lit "Ch1 > S1")
  ∧ get_section_context 25 sample_headings = Some (lit "Ch1 > S2").
Proof.
  intros Hi. split_and!.
  - by apply get_section_context_spec.
  - intros tex. apply get_section_context_spec, find_sections_index.
  - vm_compute. reflexivity.
  - vm_compute. reflexivity.
Qed.

Lemma get_section_context_fold_witness :
  heading_index sample_headings
  ∧ get_section_context 15 sample_headings
    = Some (context_at 15 sample_headings)
  ∧ context_at 15 sample_headings = lit "Ch1 > S1".
Proof.
  split; [exact sample_headings_index|].
  destruct (get_section_context_fold 15 sample_headings sample_headings_index)
    as (H1 & _).
  split; [exact H1 | vm_compute; reflexivity].
Defined.

(** ** Macros of arity above 2 *)

Lemma expand_one_high_arity (text name replacement : str) (num_args : nat) :
  2 < num_args → expand_one text (name, num_args, replacement) = text.
Proof.
  intros H. unfold expand_one.
  destruct num_args as [|[|[|n]]]; [lia.. | done].
Qed.

Lemma expand_pass_filter (macros : list macro) (text : str) :
  expand_pass macros text
  = expand_pass (filter (λ m : macro, m.1.2 ≤ 2) macros) text.
Proof.
  unfold expand_pass. revert text.
  induction macros as [|[[name num_args] replacement] macros IH];
    intros text; [done|].
  destruct (decide (num_args ≤ 2)) as [Hle|Hgt].
  - rewrite filter_cons_True by done. cbn [foldl]. apply IH.
  - rewrite filter_cons_False by done. cbn [foldl].
    rewrite expand_one_high_arity by lia. apply IH.
Qed.

Lemma parse_macros_keeps (tex_source : str) (m : rematch) :
  m ∈ re_finditer newcommand_re tex_source →
  newcommand_entry tex_source m ∈ parse_macros tex_source.
Proof.
  intros Hm. unfold parse_macros. apply elem_of_app. left.
  apply list_elem_of_In, in_map. by apply list_elem_of_In.
Qed.

(** C9.  A definition of arity above 2 stays in the macro table and is
    never applied.  Every match of the [\newcommand] pattern gives an
    entry of the table of [parse_macros], whatever its arity; for
    instance the table of [\newcommand{\foo}[3]{#1#2#3}] is the one entry
    of arity 3.  In the expander a macro of arity above 2 takes none of
    the three branches, so applying it leaves every text as it is, and
    [expand_macros] gives the same text with and without such
    definitions in the list; it is a total function, with no error or
    warning to give. *)
Theorem high_arity_never_applied :
  (∀ tex_source m,
     m ∈ re_finditer newcommand_re tex_source →
     newcommand_entry tex_source m ∈ parse_macros tex_source)
  ∧ parse_macros (lit "\newcommand{\foo}[3]{#1#2#3}")
    = [(lit "\foo", 3, lit "#1#2#3")]
  ∧ (∀ text name num_args replacement,
       2 < num_args → expand_one text (name, num_args, replacement) = text)
  ∧ (∀ text macros,
       expand_macros text macros
       = expand_macros text (filter (λ m : macro, m.1.2 ≤ 2) macros))
  ∧ (∀ text name num_args replacement,
       2 < num_args →
       expand_macros text [(name, num_args, replacement)] = text).
Proof.
  split_and!.
  - apply parse_macros_keeps.
  - vm_compute. reflexivity.
  - intros. by apply expand_one_high_arity.
  - intros text macros. unfold expand_macros. cbn [Nat.iter nat_rect].
    by rewrite <- !expand_pass_filter.
  - intros text name num_args replacement H. unfold expand_macros, expand_pass.
    cbn [Nat.iter nat_rect foldl]. by rewrite !expand_one_high_arity.
Qed.

Lemma high_arity_never_applied_witness :
  2 < 3
  ∧ expand_macros (lit "\foo{a}{b}{c}") [(lit "\foo", 3, lit "#1#2#3")]
    = lit "\foo{a}{b}{c}"
  ∧ newcommand_entry (lit "\newcommand{\foo}[3]{#1#2#3}")
      (MkMatch 0 28 [(3, (21, 27)); (2, (18, 19)); (1, (12, 16))])
    ∈ parse_macros (lit "\newcommand{\foo}[3]{#1#2#3}").
Proof.
  destruct high_arity_never_applied as (H1 & _ & _ & _ & H5).
  split; [lia|]. split.
  - apply H5. lia.
  - apply H1. vm_compute. left.
Defined.

(** ** The final trimming of the converter *)

(** C7, at inputs where the code leaves the claim.  The step
    [text.strip('<br>')] removes every leading and trailing character that
    is one of [<], [b], [r] and [>], not only whole [<br>] markers: the
    text "bar" loses its first and last letter, a body that starts with
    "rational" loses the "r", and the closing tag of a bold text loses its
    last two characters. *)
Theorem normalize_whitespace_eats_letters :
  normalize_whitespace (lit "bar") = lit "a"
  ∧ latex_to_anki_mathjax (lit "bar") = lit "a"
  ∧ latex_to_anki_mathjax (lit "rational numbers are dense")
    = lit "ational numbers are dense"
  ∧ latex_to_anki_mathjax (lit "\textbf{x}") = lit "x</".
Proof. split_and!; vm_compute; reflexivity. Qed.

(** ** Tabs in the rows *)

Lemma replace_tab (s : str) :
  replace [TAB] (lit " ") s
  = map (λ c, if char_eqb TAB c then ch " " else c) s.
Proof.
  unfold replace. induction s as [|c s IH]; [done|].
  cbn [replace_go starts_with map length]. rewrite andb_true_r.
  destruct (char_eqb TAB c); simpl; by rewrite IH.
Qed.

Lemma count_tabs_app (s t : str) :
  count_tabs (s ++ t) = count_tabs s + count_tabs t.
Proof. unfold count_tabs. by rewrite filter_app, length_app. Qed.

Lemma count_tabs_replace (s : str) : count_tabs (replace [TAB] (lit " ") s) = 0.
Proof.
  rewrite replace_tab. unfold count_tabs.
  induction s as [|c s IH]; [done|]. cbn [map].
  destruct (char_eqb TAB c) eqn:Hc.
  - by rewrite filter_cons_False.
  - rewrite filter_cons_False; [done|]. intros ->. by rewrite char_eqb_refl in Hc.
Qed.

(** The tabs of a row: the two separators and the tabs of the tags. *)
Lemma write_row_tabs (front back tags : str) :
  count_tabs (write_row (front, back, tags)) = 2 + count_tabs tags.
Proof.
  unfold write_row. rewrite !count_tabs_app, !count_tabs_replace.
  change (count_tabs [TAB]) with 1. change (count_tabs [NL]) with 0. lia.
Qed.

(** C8, at an input where the code leaves the claim.  The tabs of the
    front and of the back are replaced, those of the tags are not: a row
    has two tabs more than its tags.  A tab in the title of a heading
    reaches the tags of the cards under it, and the row of such a card has
    three tabs. *)
Theorem tags_tab_not_replaced :
  (∀ front back tags,
     count_tabs (write_row (front, back, tags)) = 2 + count_tabs tags)
  ∧ process_file (lit "C") tab_doc []
    = Some [(lit "<b>Theorem</b> (A" ++ [TAB] ++ lit "B)<br><i>[C]</i>",
             lit "x", lit "C theorem A" ++ [TAB] ++ lit "B")]
  ∧ main None [(lit "C", tab_doc)]
    = Some (file_header
            ++ lit "<b>Theorem</b> (A B)<br><i>[C]</i>" ++ [TAB] ++ lit "x"
            ++ [TAB] ++ lit "C theorem A" ++ [TAB] ++ lit "B" ++ [NL])
  ∧ count_tabs
      (write_row (lit "<b>Theorem</b> (A" ++ [TAB] ++ lit "B)<br><i>[C]</i>",
                  lit "x", lit "C theorem A" ++ [TAB] ++ lit "B")) = 3.
Proof.
  split_and!; [apply write_row_tabs | vm_compute; reflexivity..].
Qed.

(** ** Passes of the expander *)

Lemma search_loop_None (r : regex) (s : str) (fuel i : nat) :
  (∀ j, match_at r s j = None) → search_loop r s fuel i = None.
Proof.
  intros H. revert i. induction fuel as [|fuel IH]; intros i;
    cbn [search_loop]; by rewrite H.
Qed.

(** A pattern without a match leaves the text as it is. *)
Lemma re_sub_no_match (r : regex) (repl : rematch → str) (s : str) :
  (∀ j, match_at r s j = None) → re_sub r repl s = s.
Proof.
  intros H. unfold re_sub, re_finditer. cbn [finditer_loop].
  destruct (length s <? 0); [done|].
  unfold re_search. by rewrite search_loop_None.
Qed.

Lemma match_at_needs_prefix (name : str) (rest : regex) (s : str) (i : nat) :
  occurs_at name s i = false → match_at (RSeq (RLit name) rest) s i = None.
Proof.
  intros H. unfold match_at. cbn [rmatch]. by rewrite rmatch_lit, H.
Qed.

(** A macro whose name does not occur in the text is not applied. *)
Lemma expand_one_absent (text : str) (mac : macro) :
  find mac.1.1 text = None → expand_one text mac = text.
Proof.
  destruct mac as [[name num_args] replacement]. cbn [fst snd]. intros H.
  unfold expand_one.
  destruct num_args as [|[|[|n]]]; cbn [Nat.eqb]; [| | |done];
    apply re_sub_no_match; intros j; apply match_at_needs_prefix;
    by apply find_None.
Qed.

Lemma expand_pass_absent (macros : list macro) (text : str) :
  Forall (λ m : macro, find m.1.1 text = None) macros →
  expand_pass macros text = text.
Proof.
  unfold expand_pass. induction 1 as [|mac macros Hm _ IH]; [done|].
  cbn [foldl]. by rewrite expand_one_absent.
Qed.

(** ** Math delimiters *)

(** The delimiter of inline math matches a dollar with no dollar next to
    it, and nothing else. *)
Lemma rmatch_lone_dollar (s : str) (i : nat) (g : groups) (k : cont)
    (x : nat * groups) :
  rmatch s lone_dollar i g k = Some x →
  lone_dollar_at s i ∧ k (S i) g = Some x.
Proof.
  unfold lone_dollar, lone_dollar_at. cbn [RCat]. unfold RChar.
  cbn [rmatch].
  assert (i = 0 ∨ s !! (i - 1) ≠ Some (ch "$") ∨
          (0 < i ∧ s !! (i - 1) = Some (ch "$"))) as [->|[Hp|[Hi Hp]]].
  { destruct i as [|i]; [by left | right].
    destruct (decide (s !! (S i - 1) = Some (ch "$"))); [right | by left].
    split; [lia | done]. }
  - cbn [Nat.leb].
    destruct (s !! 0) as [c|]; [|done].
    destruct (char_eqb (ch "$") c) eqn:Hc; [|done].
    apply char_eqb_eq in Hc as <-.
    destruct (s !! 1) as [c'|] eqn:H1.
    + destruct (char_eqb (ch "$") c') eqn:Hc'; [done|].
      intros H. split_and!; [done | by left | | done].
      intros [= ->]. by rewrite char_eqb_refl in Hc'.
    + intros H. split_and!; [done | by left | done | done].
  - assert ((if 1 <=? i
             then match s !! (i - 1) with
                  | Some c =>
                      if char_eqb (ch "$") c
                      then if S (i - 1) =? i then Some (S (i - 1), g) else None
                      else None
                  | None => None
                  end
             else None) = None) as ->.
    { destruct (1 <=? i); [|done]. destruct (s !! (i - 1)) as [c|]; [|done].
      destruct (char_eqb (ch "$") c) eqn:Hc; [|done].
      apply char_eqb_eq in Hc as <-. done. }
    destruct (s !! i) as [c|]; [|done].
    destruct (char_eqb (ch "$") c) eqn:Hc; [|done].
    apply char_eqb_eq in Hc as <-.
    destruct (s !! S i) as [c'|] eqn:H1.
    + destruct (char_eqb (ch "$") c') eqn:Hc'; [done|].
      intros H. split_and!; [done | by right | | done].
      intros [= ->]. by rewrite char_eqb_refl in Hc'.
    + intros H. split_and!; [done | by right | done | done].
  - destruct (Nat.leb_spec 1 i); [|lia]. rewrite Hp, char_eqb_refl.
    destruct (Nat.eqb_spec (S (i - 1)) i); [done | lia].
Qed.

(** Both delimiters of every inline-math match are lone dollars, with
    text between them. *)
Lemma inline_math_lone_dollars (text : str) (m : rematch) :
  m ∈ re_finditer inline_math_re text →
  lone_dollar_at text (m_start m)
  ∧ lone_dollar_at text (m_end m - 1)
  ∧ m_start m < m_end m - 1.
Proof.
  intros Hm%re_finditer_match_at. destruct m as [i e gs].
  cbn [m_start m_end] in *. unfold match_at in Hm.
  destruct (rmatch text inline_math_re i [] _) as [[j g]|] eqn:H; [|done].
  injection Hm as -> ->. unfold inline_math_re in H. cbn [RCat rmatch] in H.
  apply rmatch_lone_dollar in H as [H1 H].
  apply rmatch_inv in H as (j' & new & H & Hj & _).
  apply rmatch_lone_dollar in H as [H2 [= <- _]].
  replace (S j' - 1) with j' by lia.
  split_and!; [done | done | lia].
Qed.

(** A lazy [.*?] hands to its continuation the first offset, from the
    left, at which the continuation succeeds. *)
Lemma lazy_any_first (s : str) (k : cont) (g : groups) (x : nat * groups)
    (j : nat) :
  j ≤ length s → k j g = Some x →
  ∀ fuel n i,
    i ≤ j → j - i < fuel → (∀ j', i ≤ j' < j → k j' g = None) →
    repeat_loop (rmatch s RAnyDotall) false 0 None k fuel n i g = Some x.
Proof.
  intros Hj Hk. induction fuel as [|fuel IH]; intros n i Hi Hf Hnone; [lia|].
  cbn [repeat_loop Nat.leb under]. cbv zeta. unfold or_else.
  destruct (decide (i = j)) as [->|Hne]; [by rewrite Hk|].
  rewrite Hnone by lia. unfold RAnyDotall. cbn [rmatch].
  destruct (lookup_lt_is_Some_2 s i) as [c ->]; [lia|].
  destruct (Nat.leb_spec (S i) i); [lia|]. cbn [andb].
  apply IH; [lia | lia |]. intros j' Hj'. apply Hnone. lia.
Qed.

Lemma search_loop_first (r : regex) (s : str) (m : rematch) (p : nat) :
  match_at r s p = Some m →
  ∀ fuel i,
    i ≤ p → p ≤ i + fuel → (∀ i', i ≤ i' < p → match_at r s i' = None) →
    search_loop r s fuel i = Some m.
Proof.
  intros Hm. induction fuel as [|fuel IH]; intros i Hi Hf Hnone.
  - assert (i = p) as -> by lia. cbn [search_loop]. by rewrite Hm.
  - cbn [search_loop]. destruct (decide (i = p)) as [->|Hne].
    + by rewrite Hm.
    + rewrite Hnone by lia. apply IH; [lia | lia |].
      intros i' Hi'. apply Hnone. lia.
Qed.

Lemma search_loop_None_from (r : regex) (s : str) (fuel i : nat) :
  (∀ j, i ≤ j → match_at r s j = None) → search_loop r s fuel i = None.
Proof.
  revert i. induction fuel as [|fuel IH]; intros i H; cbn [search_loop];
    rewrite H by lia; [done|]. apply IH. intros j Hj. apply H. lia.
Qed.

(** The matches of a pattern that matches once. *)
Lemma re_finditer_single (r : regex) (s : str) (m : rematch) :
  match_at r s (m_start m) = Some m →
  (∀ i, i < m_start m → match_at r s i = None) →
  (∀ i, m_end m ≤ i → match_at r s i = None) →
  m_start m < m_end m ≤ length s →
  re_finditer r s = [m].
Proof.
  intros Hm Hbefore Hafter Hlt.
  unfold re_finditer. cbn [finditer_loop].
  destruct (Nat.ltb_spec (length s) 0); [lia|].
  assert (re_search r s 0 = Some m) as ->.
  { unfold re_search. rewrite Nat.min_l by lia.
    apply (search_loop_first r s m (m_start m) Hm); [lia | lia |].
    intros i' Hi'. apply Hbefore. lia. }
  destruct (Nat.eqb_spec (m_end m) (m_start m)) as [Heq|_]; [lia|].
  f_equal. destruct (length s) as [|n] eqn:Hn; [lia|].
  cbn [finditer_loop].
  destruct (length s <? m_end m); [done|].
  unfold re_search.
  by rewrite search_loop_None_from by (intros; apply Hafter; lia).
Qed.

Lemma slice_middle (a m z : str) :
  slice (a ++ m ++ z) (length a) (length a + length m) = m.
Proof.
  unfold slice. rewrite drop_app_length.
  replace (length a + length m - length a) with (length m) by lia.
  apply take_app_length.
Qed.

Lemma occurs_at_middle (a m z : str) : occurs_at m (a ++ m ++ z) (length a) = true.
Proof. unfold occurs_at. rewrite drop_app_length. apply starts_with_app. Qed.

Lemma occurs_at_head (c : char) (m s : str) (i : nat) :
  occurs_at (c :: m) s i = true → s !! i = Some c.
Proof.
  intros H. pose proof (occurs_at_lookup _ _ i 0 c H eq_refl) as H0.
  by rewrite Nat.add_0_r in H0.
Qed.

Lemma display_math_needs_dollar (s : str) (i : nat) :
  s !! i ≠ Some (ch "$") → match_at display_math_re s i = None.
Proof.
  intros H. unfold display_math_re. cbn [RCat].
  apply match_at_needs_prefix.
  destruct (occurs_at (lit "$$") s i) eqn:Ho; [|done].
  by apply occurs_at_head in Ho.
Qed.

Lemma inline_math_needs_dollar (s : str) (i : nat) :
  s !! i ≠ Some (ch "$") → match_at inline_math_re s i = None.
Proof.
  intros H. unfold match_at.
  destruct (rmatch s inline_math_re i [] _) as [x|] eqn:Hx; [|done].
  unfold inline_math_re in Hx. cbn [RCat rmatch] in Hx.
  by apply rmatch_lone_dollar in Hx as [[Hx _] _].
Qed.

Lemma lookup_not_elem (s : str) (i : nat) (c : char) : c ∉ s → s !! i ≠ Some c.
Proof. intros H Hs. apply H. by eapply list_elem_of_lookup_2. Qed.

Section display_block.
Variables pre body post : str.
Hypothesis pre_plain : ch "$" ∉ pre.
Hypothesis body_plain : ch "$" ∉ body.
Hypothesis post_plain : ch "$" ∉ post.

Let dtext : str := pre ++ lit "$$" ++ body ++ lit "$$" ++ post.
Let dstart : nat := length pre.
Let dlen : nat := length body.

Lemma display_block_length : length dtext = dstart + 2 + dlen + 2 + length post.
Proof using Type.
  unfold dtext, dstart, dlen. rewrite !length_app. simpl. lia.
Qed.

Lemma display_block_before (i : nat) : i < dstart → dtext !! i ≠ Some (ch "$").
Proof using pre_plain.
  intros Hi. unfold dtext. rewrite lookup_app_l by done.
  by apply lookup_not_elem.
Qed.

Lemma display_block_inside (i : nat) :
  dstart + 2 ≤ i < dstart + 2 + dlen → dtext !! i ≠ Some (ch "$").
Proof using body_plain.
  intros Hi. unfold dtext.
  rewrite lookup_app_r by (fold dstart; lia).
  rewrite lookup_app_r by (fold dstart; simpl; lia).
  rewrite lookup_app_l by (fold dstart dlen; simpl; lia).
  by apply lookup_not_elem.
Qed.

Lemma display_block_after (i : nat) :
  dstart + 2 + dlen + 2 ≤ i → dtext !! i ≠ Some (ch "$").
Proof using post_plain.
  intros Hi. unfold dtext.
  rewrite lookup_app_r by (fold dstart; lia).
  rewrite lookup_app_r by (fold dstart; simpl; lia).
  rewrite lookup_app_r by (fold dstart dlen; simpl; lia).
  rewrite lookup_app_r by (fold dstart dlen; simpl; lia).
  by apply lookup_not_elem.
Qed.

Lemma display_block_open : occurs_at (lit "$$") dtext dstart = true.
Proof using Type. apply occurs_at_middle. Qed.

Lemma display_block_close : occurs_at (lit "$$") dtext (dstart + 2 + dlen) = true.
Proof using Type.
  unfold dtext.
  replace (pre ++ lit "$$" ++ body ++ lit "$$" ++ post)
    with ((pre ++ lit "$$" ++ body) ++ lit "$$" ++ post)
    by (by rewrite <- !app_assoc).
  replace (dstart + 2 + dlen) with (length (pre ++ lit "$$" ++ body))
    by (rewrite !length_app; simpl; lia).
  apply occurs_at_middle.
Qed.

(** The one display-math match of the text: the two double dollars and the
    text between them. *)
Lemma display_block_match :
  match_at display_math_re dtext dstart
  = Some (MkMatch dstart (dstart + 2 + dlen + 2) [(1, (dstart + 2, dstart + 2 + dlen))]).
Proof using body_plain.
  unfold match_at, display_math_re. cbn [RCat rmatch].
  rewrite rmatch_lit, display_block_open. unfold RLazyStar. cbn [rmatch].
  change (length (lit "$$")) with 2.
  erewrite (lazy_any_first dtext _ [] (dstart + 2 + dlen + 2, [(1, (dstart + 2, dstart + 2 + dlen))])
              (dstart + 2 + dlen)); [done | | | lia | | ].
  - rewrite display_block_length. lia.
  - cbv beta. by rewrite rmatch_lit, display_block_close.
  - rewrite display_block_length. lia.
  - intros j' Hj'. cbv beta. rewrite rmatch_lit.
    destruct (occurs_at (lit "$$") dtext j') eqn:Ho; [|done].
    apply occurs_at_head in Ho. by apply display_block_inside in Ho.
Qed.

Lemma display_block_matches :
  re_finditer display_math_re dtext
  = [MkMatch dstart (dstart + 2 + dlen + 2) [(1, (dstart + 2, dstart + 2 + dlen))]].
Proof using pre_plain body_plain post_plain.
  apply re_finditer_single; cbn [m_start m_end].
  - apply display_block_match.
  - intros i Hi. by apply display_math_needs_dollar, display_block_before.
  - intros i Hi. by apply display_math_needs_dollar, display_block_after.
  - rewrite display_block_length. lia.
Qed.

(** A display-math block between texts without dollars becomes a
    [\[...\]] block, and the inline-math step then finds nothing to
    rewrite. *)
Lemma convert_display_block :
  convert_display_math dtext = pre ++ lit "\[" ++ body ++ lit "\]" ++ post
  ∧ convert_inline_math (convert_display_math dtext) = convert_display_math dtext.
Proof using pre_plain body_plain post_plain.
  assert (convert_display_math dtext
          = pre ++ lit "\[" ++ body ++ lit "\]" ++ post) as H.
  { unfold convert_display_math, re_sub. rewrite display_block_matches.
    cbn [stitch m_start m_end]. unfold group_str, group.
    cbn [m_groups group_span Nat.eqb from_option id].
    assert (slice dtext 0 dstart = pre) as ->.
    { unfold slice, dtext, dstart. rewrite drop_0, Nat.sub_0_r.
      apply take_app_length. }
    assert (slice dtext (dstart + 2) (dstart + 2 + dlen) = body) as ->.
    { unfold dtext, dstart, dlen.
      replace (pre ++ lit "$$" ++ body ++ lit "$$" ++ post)
        with ((pre ++ lit "$$") ++ body ++ lit "$$" ++ post)
        by (by rewrite <- !app_assoc).
      replace (length pre + 2) with (length (pre ++ lit "$$"))
        by (rewrite length_app; simpl; lia).
      apply slice_middle. }
    assert (drop (dstart + 2 + dlen + 2) dtext = post) as ->.
    { unfold dtext, dstart, dlen.
      replace (pre ++ lit "$$" ++ body ++ lit "$$" ++ post)
        with ((pre ++ lit "$$" ++ body ++ lit "$$") ++ post)
        by (by rewrite <- !app_assoc).
      replace (length pre + 2 + length body + 2)
        with (length (pre ++ lit "$$" ++ body ++ lit "$$"))
        by (rewrite !length_app; simpl; lia).
      apply drop_app_length. }
    by rewrite <- !app_assoc. }
  split; [done|]. rewrite H. unfold convert_inline_math.
  apply re_sub_no_match. intros j. apply inline_math_needs_dollar.
  apply lookup_not_elem. rewrite !not_elem_of_app.
  split_and!; try done; by apply (bool_decide_unpack _).
Qed.
End display_block.

(** The delimiter of inline math matches at every lone dollar. *)
Lemma rmatch_lone_dollar_at (s : str) (i : nat) (g : groups) (k : cont) :
  lone_dollar_at s i → rmatch s lone_dollar i g k = k (S i) g.
Proof.
  intros (H1 & H2 & H3). unfold lone_dollar. cbn [RCat]. unfold RChar.
  cbn [rmatch].
  assert ((if 1 <=? i
           then match s !! (i - 1) with
                | Some c =>
                    if char_eqb (ch "$") c
                    then if S (i - 1) =? i then Some (S (i - 1), g) else None
                    else None
                | None => None
                end
           else None) = None) as ->.
  { destruct (Nat.leb_spec 1 i) as [Hi|]; [|done].
    destruct H2 as [->|H2]; [lia|].
    destruct (s !! (i - 1)) as [c|]; [|done].
    destruct (char_eqb (ch "$") c) eqn:Hc; [|done].
    apply char_eqb_eq in Hc as <-. done. }
  rewrite H1, char_eqb_refl.
  destruct (s !! S i) as [c|]; [|done].
  destruct (char_eqb (ch "$") c) eqn:Hc; [|done].
  apply char_eqb_eq in Hc as <-. done.
Qed.

Lemma lookup_app_cases (a z : str) (i : nat) :
  (a ++ z) !! i = if decide (i < length a) then a !! i else z !! (i - length a).
Proof.
  case_decide; [by apply lookup_app_l | apply lookup_app_r; lia].
Qed.

Section inline_span.
Variables pre body post : str.
Hypothesis pre_plain : ch "$" ∉ pre.
Hypothesis body_plain : ch "$" ∉ body.
Hypothesis post_plain : ch "$" ∉ post.
Hypothesis body_nonempty : body ≠ [].

Let itext : str := pre ++ lit "$" ++ body ++ lit "$" ++ post.
Let istart : nat := length pre.
Let ilen : nat := length body.

Lemma inline_span_length : length itext = istart + 1 + ilen + 1 + length post.
Proof.
  unfold itext, istart, ilen. rewrite !length_app. simpl. lia.
Qed.

Lemma inline_span_body_length : 0 < ilen.
Proof.
  unfold ilen.
  destruct (decide (length body = 0)) as [H%nil_length_inv|]; [done | lia].
Qed.

Lemma inline_span_lookup (i : nat) :
  itext !! i = Some (ch "$") ↔ i = istart ∨ i = istart + 1 + ilen.
Proof.
  unfold itext. rewrite !lookup_app_cases. fold istart ilen.
  change (length (lit "$")) with 1.
  repeat case_decide.
  - split; [by intros ?%lookup_not_elem | lia].
  - replace (i - istart) with 0 by lia. split; [intros _; lia | done].
  - split; [by intros ?%lookup_not_elem | lia].
  - replace (i - istart - 1 - ilen) with 0 by lia. split; [intros _; lia | done].
  - split; [by intros ?%lookup_not_elem | lia].
Qed.

Lemma inline_span_open : lone_dollar_at itext istart.
Proof.
  pose proof inline_span_body_length.
  unfold lone_dollar_at. rewrite !inline_span_lookup.
  split_and!; [by left | | lia].
  destruct (decide (istart = 0)); [by left | right; lia].
Qed.

Lemma inline_span_close : lone_dollar_at itext (istart + 1 + ilen).
Proof.
  pose proof inline_span_body_length.
  unfold lone_dollar_at. rewrite !inline_span_lookup.
  split_and!; [by right | right; lia | lia].
Qed.

Lemma inline_span_match :
  match_at inline_math_re itext istart
  = Some (MkMatch istart (istart + 1 + ilen + 1) [(1, (istart + 1, istart + 1 + ilen))]).
Proof.
  unfold match_at, inline_math_re. cbn [RCat rmatch].
  rewrite (rmatch_lone_dollar_at _ _ _ _ inline_span_open).
  unfold RLazyStar. cbn [rmatch]. replace (S istart) with (istart + 1) by lia.
  erewrite (lazy_any_first itext _ [] (istart + 1 + ilen + 1, [(1, (istart + 1, istart + 1 + ilen))])
              (istart + 1 + ilen)); [done | | | lia | | ].
  - rewrite inline_span_length. lia.
  - cbv beta. rewrite (rmatch_lone_dollar_at _ _ _ _ inline_span_close).
    do 2 f_equal. lia.
  - rewrite inline_span_length. lia.
  - intros j' Hj'. cbv beta.
    destruct (rmatch itext lone_dollar j' _ _) as [x|] eqn:Hx; [|done].
    apply rmatch_lone_dollar in Hx as [[Hx _] _].
    apply inline_span_lookup in Hx. lia.
Qed.

Lemma inline_span_matches :
  re_finditer inline_math_re itext
  = [MkMatch istart (istart + 1 + ilen + 1) [(1, (istart + 1, istart + 1 + ilen))]].
Proof.
  apply re_finditer_single; cbn [m_start m_end].
  - apply inline_span_match.
  - intros i Hi. apply inline_math_needs_dollar.
    rewrite inline_span_lookup. lia.
  - intros i Hi. apply inline_math_needs_dollar.
    rewrite inline_span_lookup. lia.
  - rewrite inline_span_length. lia.
Qed.

(** A span between two single dollars, in a text with no other dollar, is
    left alone by the display-math step and becomes an inline-math span. *)
Lemma convert_inline_span :
  convert_display_math itext = itext
  ∧ convert_inline_math itext = pre ++ lit "\(" ++ body ++ lit "\)" ++ post.
Proof.
  split.
  - unfold convert_display_math. apply re_sub_no_match. intros j.
    unfold display_math_re. cbn [RCat]. apply match_at_needs_prefix.
    destruct (occurs_at (lit "$$") itext j) eqn:Ho; [|done].
    pose proof (occurs_at_lookup _ _ j 0 _ Ho eq_refl) as H0.
    pose proof (occurs_at_lookup _ _ j 1 _ Ho eq_refl) as H1.
    apply inline_span_lookup in H0, H1.
    pose proof inline_span_body_length. lia.
  - unfold convert_inline_math, re_sub. rewrite inline_span_matches.
    cbn [stitch m_start m_end]. unfold group_str, group.
    cbn [m_groups group_span Nat.eqb from_option id].
    assert (slice itext 0 istart = pre) as ->.
    { unfold slice, itext, istart. rewrite drop_0, Nat.sub_0_r.
      apply take_app_length. }
    assert (slice itext (istart + 1) (istart + 1 + ilen) = body) as ->.
    { unfold itext, istart, ilen.
      replace (pre ++ lit "$" ++ body ++ lit "$" ++ post)
        with ((pre ++ lit "$") ++ body ++ lit "$" ++ post)
        by (by rewrite <- !app_assoc).
      replace (length pre + 1) with (length (pre ++ lit "$"))
        by (rewrite length_app; simpl; lia).
      apply slice_middle. }
    assert (drop (istart + 1 + ilen + 1) itext = post) as ->.
    { unfold itext, istart, ilen.
      replace (pre ++ lit "$" ++ body ++ lit "$" ++ post)
        with ((pre ++ lit "$" ++ body ++ lit "$") ++ post)
        by (by rewrite <- !app_assoc).
      replace (length pre + 1 + length body + 1)
        with (length (pre ++ lit "$" ++ body ++ lit "$"))
        by (rewrite !length_app; simpl; lia).
      apply drop_app_length. }
    by rewrite <- !app_assoc.
Qed.
End inline_span.

(** ** The display step in place *)

Lemma display_rewrite_refl (s : str) : display_rewrite s s.
Proof. induction s; by constructor. Qed.

Lemma display_rewrite_app (s1 u1 s2 u2 : str) :
  display_rewrite s1 u1 → display_rewrite s2 u2 →
  display_rewrite (s1 ++ s2) (u1 ++ u2).
Proof.
  intros H1 H2. induction H1; [done|..]; rewrite <- ?app_assoc;
    by constructor.
Qed.

Lemma occurs_at_split (m s : str) (i : nat) :
  occurs_at m s i = true → drop i s = m ++ drop (i + length m) s.
Proof.
  unfold occurs_at. rewrite starts_with_prefix. intros [k Hk].
  rewrite <- drop_drop, Hk. by rewrite drop_app_length.
Qed.

Lemma drop_slice (s : str) (i j : nat) :
  i ≤ j → drop i s = slice s i j ++ drop j s.
Proof.
  intros H. unfold slice. replace j with (i + (j - i)) at 2 by lia.
  rewrite <- drop_drop. by rewrite take_drop.
Qed.

(** A match of the display pattern: two dollars at its start, two dollars
    at its end, and the group between them. *)
Lemma display_match_inv (s : str) (i : nat) (m : rematch) :
  match_at display_math_re s i = Some m →
  ∃ e, m = MkMatch i (e + 2) [(1, (i + 2, e))]
       ∧ occurs_at (lit "$$") s i = true
       ∧ occurs_at (lit "$$") s e = true
       ∧ i + 2 ≤ e.
Proof.
  unfold match_at.
  destruct (rmatch s display_math_re i [] _) as [[j g]|] eqn:H; [|done].
  intros [= <-]. unfold display_math_re in H. cbn [RCat] in H.
  change (rmatch s (RSeq (RLit (lit "$$"))
                      (RSeq (RGroup 1 (RLazyStar RAnyDotall))
                         (RLit (lit "$$")))) i []
            (λ j g, Some (j, g)))
    with (rmatch s (RLit (lit "$$")) i []
            (λ j g, rmatch s (RLazyStar RAnyDotall) j g
               (λ j' g', rmatch s (RLit (lit "$$")) j' ((1, (j, j')) :: g')
                  (λ j'' g'', Some (j'', g''))))) in H.
  rewrite rmatch_lit in H.
  destruct (occurs_at (lit "$$") s i) eqn:Ho; [|done].
  apply rmatch_inv in H as (e & new & H & He & _ & Hnew).
  cbn [group_ids RLazyStar RAnyDotall] in Hnew.
  destruct new as [|x new]; [|by apply Forall_cons in Hnew as [?%elem_of_nil _]].
  cbn [app] in H. rewrite rmatch_lit in H.
  destruct (occurs_at (lit "$$") s e) eqn:Hc; [|done].
  injection H as <- <-. exists e. change (length (lit "$$")) with 2 in *.
  split_and!; [done | done | done | lia].
Qed.

Lemma stitch_display (s : str) (fuel pos : nat) :
  pos ≤ length s →
  display_rewrite (drop pos s)
    (stitch (λ m, lit "\[" ++ group_str s m 1 ++ lit "\]") s pos
       (finditer_loop display_math_re s fuel pos)).
Proof.
  revert pos. induction fuel as [|fuel IH]; intros pos Hpos;
    cbn [finditer_loop]; [apply display_rewrite_refl|].
  destruct (Nat.ltb_spec (length s) pos) as [|_]; [lia|].
  destruct (re_search display_math_re s pos) as [m|] eqn:Hm;
    [|apply display_rewrite_refl].
  apply re_search_inv in Hm as (H1 & H2 & H3); [|done].
  destruct m as [i j gs]. cbn [m_start m_end] in *.
  destruct (display_match_inv _ _ _ H3) as (e & [= -> ->] & Ho & Hc & He).
  cbn [stitch m_start m_end].
  destruct (Nat.eqb_spec (e + 2) i) as [|_]; [lia|].
  unfold group_str, group. cbn [m_groups group_span Nat.eqb default].
  rewrite (drop_slice s pos i) by lia.
  apply display_rewrite_app; [apply display_rewrite_refl|].
  rewrite (occurs_at_split _ _ _ Ho). change (length (lit "$$")) with 2.
  rewrite <- !app_assoc. apply dr_open.
  rewrite (drop_slice s (i + 2) e) by lia.
  apply display_rewrite_app; [apply display_rewrite_refl|].
  rewrite (occurs_at_split _ _ _ Hc). change (length (lit "$$")) with 2.
  apply dr_close. apply IH. lia.
Qed.

Lemma convert_display_math_rewrite (text : str) :
  display_rewrite text (convert_display_math text).
Proof.
  unfold convert_display_math, re_sub, re_finditer.
  pose proof (stitch_display text (S (length text)) 0 ltac:(lia)) as H.
  by rewrite drop_0 in H.
Qed.

Lemma display_rewrite_length (s u : str) :
  display_rewrite s u → length u = length s.
Proof. induction 1; cbn [length app lit]; simpl; lia. Qed.

Lemma display_rewrite_dollar (s u : str) (i : nat) :
  display_rewrite s u → u !! i = Some (ch "$") → s !! i = Some (ch "$").
Proof.
  intros H. revert i. induction H as [|c s u _ IH|s u _ IH|s u _ IH];
    intros i; [done|..].
  - destruct i as [|i]; [done|]. apply IH.
  - destruct i as [|[|i]]; [done..|]. apply IH.
  - destruct i as [|[|i]]; [done..|]. apply IH.
Qed.

(** A dollar that the display step keeps, next to a dollar that it does
    not keep: the dollar after that one is rewritten with it. *)
Lemma display_rewrite_next (s u : str) (i : nat) :
  display_rewrite s u → u !! i = Some (ch "$") →
  s !! (S i) = Some (ch "$") → u !! (S i) ≠ Some (ch "$") →
  s !! (S (S i)) = Some (ch "$").
Proof.
  intros H. revert i. induction H as [|c s u H IH|s u _ IH|s u _ IH];
    intros i; [done|..].
  - destruct i as [|i]; [|apply IH]. intros _. cbn [lookup list_lookup].
    destruct H as [|c' s u _|s u _|s u _]; [done| |done..].
    cbn [lookup list_lookup]. by intros ->.
  - destruct i as [|[|i]]; [done..|]. apply IH.
  - destruct i as [|[|i]]; [done..|]. apply IH.
Qed.

Lemma display_rewrite_prev (s u : str) (i : nat) :
  display_rewrite s u → u !! (S i) = Some (ch "$") →
  s !! i = Some (ch "$") → u !! i ≠ Some (ch "$") →
  ∃ j, i = S j ∧ s !! j = Some (ch "$").
Proof.
  intros H. revert i. induction H as [|c s u H IH|s u H IH|s u H IH];
    intros i; [done|..].
  - destruct i as [|i]; [cbn [lookup list_lookup]; by intros _ ->|].
    intros H1 H2 H3. destruct (IH i H1 H2 H3) as (j & -> & Hj).
    by exists (S j).
  - destruct i as [|[|i]]; [done| |].
    + intros _ _ _. by exists 0.
    + intros H1 H2 H3. destruct (IH i H1 H2 H3) as (j & -> & Hj).
      by exists (S (S j)).
  - destruct i as [|[|i]]; [done| |].
    + intros _ _ _. by exists 0.
    + intros H1 H2 H3. destruct (IH i H1 H2 H3) as (j & -> & Hj).
      by exists (S (S j)).
Qed.

Lemma inline_delimiter_lone (u : str) (i : nat) :
  inline_delimiter u i → lone_dollar_at u i.
Proof.
  intros (m & Hm & Hi).
  destruct (inline_math_lone_dollars u m Hm) as (H1 & H2 & H3).
  destruct Hi as [->|Hi]; [done|].
  by replace i with (m_end m - 1) by lia.
Qed.

(** C5.  The converter maps [$$E=mc^2$$] to [\[E=mc^2\]] and [$x$] to
    [\(x\)].  It converts the double-dollar delimiters before the
    single-dollar ones.  In a text with no other dollar, a block between
    double dollars becomes a display-math block in which the inline step
    finds nothing left to rewrite, and a non-empty span between single
    dollars is left alone by the display step and becomes an inline-math
    span.  In every text the two delimiters of every inline-math match are
    dollars with no dollar next to them.  For every input the display
    step rewrites pairs of adjacent dollars in place and nothing else, so
    the offsets of the input are those of the text that the inline step
    reads: every delimiter of an inline-math match is a dollar of the
    input that the display step left, and two adjacent dollars of the
    input are never both delimiters of inline-math matches.  When no three
    dollars of the input are adjacent, every delimiter of an inline-math
    match is a dollar with no dollar next to it in the input. *)
Theorem math_delimiters :
  latex_to_anki_mathjax (lit "$$E=mc^2$$") = lit "\[E=mc^2\]"
  ∧ latex_to_anki_mathjax (lit "$x$") = lit "\(x\)"
  ∧ (∀ text,
       latex_to_anki_mathjax text
       = normalize_whitespace
           (convert_emphasis
              (convert_inline_math
                 (convert_display_math
                    (convert_lists
                       (convert_equation
                          (convert_align (strip_commands text))))))))
  ∧ (∀ pre body post,
       ch "$" ∉ pre → ch "$" ∉ body → ch "$" ∉ post →
       convert_inline_math
         (convert_display_math (pre ++ lit "$$" ++ body ++ lit "$$" ++ post))
       = pre ++ lit "\[" ++ body ++ lit "\]" ++ post)
  ∧ (∀ pre body post,
       ch "$" ∉ pre → ch "$" ∉ body → ch "$" ∉ post → body ≠ [] →
       convert_inline_math
         (convert_display_math (pre ++ lit "$" ++ body ++ lit "$" ++ post))
       = pre ++ lit "\(" ++ body ++ lit "\)" ++ post)
  ∧ (∀ text m,
       m ∈ re_finditer inline_math_re text →
       lone_dollar_at text (m_start m)
       ∧ lone_dollar_at text (m_end m - 1)
       ∧ m_start m < m_end m - 1)
  ∧ (∀ text,
       display_rewrite text (convert_display_math text)
       ∧ length (convert_display_math text) = length text)
  ∧ (∀ text i,
       inline_delimiter (convert_display_math text) i →
       text !! i = Some (ch "$")
       ∧ lone_dollar_at (convert_display_math text) i)
  ∧ (∀ text i,
       text !! i = Some (ch "$") → text !! (S i) = Some (ch "$") →
       ¬ (inline_delimiter (convert_display_math text) i
          ∧ inline_delimiter (convert_display_math text) (S i)))
  ∧ (∀ text,
       (∀ i, ¬ (text !! i = Some (ch "$") ∧ text !! (S i) = Some (ch "$")
                ∧ text !! (S (S i)) = Some (ch "$"))) →
       ∀ i, inline_delimiter (convert_display_math text) i →
            lone_dollar_at text i).
Proof.
  split_and!.
  - vm_compute. reflexivity.
  - vm_compute. reflexivity.
  - reflexivity.
  - intros pre body post H1 H2 H3.
    destruct (convert_display_block pre body post H1 H2 H3) as [Hd Hi].
    by rewrite Hi.
  - intros pre body post H1 H2 H3 H4.
    destruct (convert_inline_span pre body post H1 H2 H3 H4) as [Hd Hi].
    by rewrite Hd.
  - apply inline_math_lone_dollars.
  - intros text. pose proof (convert_display_math_rewrite text) as H.
    split; [done | by apply display_rewrite_length].
  - intros text i Hi%inline_delimiter_lone. split; [|done].
    destruct Hi as (Hi & _).
    by apply (display_rewrite_dollar _ _ _ (convert_display_math_rewrite text)).
  - intros text i _ _ [(_ & _ & H1)%inline_delimiter_lone
                         (H2 & _)%inline_delimiter_lone]. done.
  - intros text Hno i (Hi & Hp & Hn)%inline_delimiter_lone.
    pose proof (convert_display_math_rewrite text) as Hr.
    split_and!.
    + by apply (display_rewrite_dollar _ _ _ Hr).
    + destruct i as [|i]; [by left | right].
      replace (S i - 1) with i in * by lia.
      destruct Hp as [|Hp]; [done|]. intros Ht.
      destruct (display_rewrite_prev _ _ _ Hr Hi Ht Hp) as (j & -> & Hj).
      apply (Hno j). split_and!; [done | done |].
      by apply (display_rewrite_dollar _ _ _ Hr).
    + intros Ht. apply (Hno i). split_and!; [|done|].
      * by apply (display_rewrite_dollar _ _ _ Hr).
      * by apply (display_rewrite_next _ _ _ Hr Hi Ht Hn).
Qed.

Lemma math_delimiters_witness :
  convert_inline_math
    (convert_display_math
       (lit "so " ++ lit "$$" ++ lit "E=mc^2" ++ lit "$$" ++ lit " holds"))
  = lit "so " ++ lit "\[" ++ lit "E=mc^2" ++ lit "\]" ++ lit " holds"
  ∧ convert_inline_math
      (convert_display_math
         (lit "for " ++ lit "$" ++ lit "x" ++ lit "$" ++ lit " real"))
    = lit "for " ++ lit "\(" ++ lit "x" ++ lit "\)" ++ lit " real"
  ∧ lone_dollar_at (lit "$$a$$ and $x$") 10
  ∧ lone_dollar_at (lit "$$a$$ and $x$") (13 - 1)
  ∧ display_rewrite (lit "$$a$$ and $x$")
      (convert_display_math (lit "$$a$$ and $x$"))
  ∧ ¬ (inline_delimiter (convert_display_math (lit "$$a$$ and $x$")) 0
       ∧ inline_delimiter (convert_display_math (lit "$$a$$ and $x$")) 1)
  ∧ lone_dollar_at (lit "$$a$$ and $x$ or $y$") 19.
Proof.
  destruct math_delimiters as (_ & _ & _ & H4 & H5 & H6 & H7 & _ & H9 & H10).
  split_and!.
  - apply H4; by apply (bool_decide_unpack _).
  - apply H5; [by apply (bool_decide_unpack _).. | discriminate].
  - by destruct (H6 (lit "$$a$$ and $x$") (MkMatch 10 13 [(1, (11, 12))]))
      as (Ha & _ & _); [vm_compute; left|].
  - by destruct (H6 (lit "$$a$$ and $x$") (MkMatch 10 13 [(1, (11, 12))]))
      as (_ & Hb & _); [vm_compute; left|].
  - apply H7.
  - apply H9; reflexivity.
  - apply H10.
    + intros i (H1 & H2 & H3).
      do 18 (destruct i as [|i]; [by vm_compute in H1, H2, H3|]).
      do 3 (destruct i as [|i]; [by vm_compute in H1, H2, H3|]).
      by vm_compute in H1.
    + exists (MkMatch 17 20 [(1, (18, 19))]). split; [|by right].
      vm_compute. right. left.
Defined.

(** The display step takes the first two of three adjacent dollars: in
    [$a$$$b$$] the dollar left over closes an inline-math span that opens
    at the first dollar of the text. *)
Lemma three_dollars_example :
  convert_display_math (lit "$a$$$b$$") = lit "$a\[$b\]"
  ∧ latex_to_anki_mathjax (lit "$a$$$b$$") = lit "\(a\[\)b\]".
Proof. split; vm_compute; reflexivity. Qed.

(** * Further properties of the program *)

(** ** Rows and columns *)

Lemma split_on_plain (sep : char) (s : str) : sep ∉ s → split_on sep s = [s].
Proof.
  induction s as [|c s IH]; intros H; [done|].
  apply not_elem_of_cons in H as [Hc Hs]. cbn [split_on].
  destruct (char_eqb c sep) eqn:E; [by apply char_eqb_eq in E|].
  by rewrite IH.
Qed.

Lemma split_on_app (sep : char) (a z : str) :
  sep ∉ a → split_on sep (a ++ sep :: z) = a :: split_on sep z.
Proof.
  induction a as [|c a IH]; intros H; cbn [app split_on].
  - by rewrite char_eqb_refl.
  - apply not_elem_of_cons in H as [Hc Ha].
    destruct (char_eqb c sep) eqn:E; [by apply char_eqb_eq in E|].
    by rewrite IH.
Qed.

Lemma replace_tab_plain (s : str) : TAB ∉ replace [TAB] (lit " ") s.
Proof.
  rewrite replace_tab. induction s as [|c s IH]; cbn [map].
  - apply not_elem_of_nil.
  - apply not_elem_of_cons. split; [|done].
    destruct (char_eqb TAB c) eqn:E; [done|].
    intros <-. by rewrite char_eqb_refl in E.
Qed.

Lemma replace_tab_length (s : str) :
  length (replace [TAB] (lit " ") s) = length s.
Proof. rewrite replace_tab. apply length_map. Qed.

(** X1.  When the tags hold no tab, the row written for a card splits on
    tabs into exactly three columns: the front and the back, each as long
    as the field it comes from and free of tabs, and the tags followed by
    the line break. *)
Theorem write_row_columns (front back tags : str) :
  TAB ∉ tags →
  split_on TAB (write_row (front, back, tags))
  = [replace [TAB] (lit " ") front; replace [TAB] (lit " ") back;
     tags ++ [NL]]
  ∧ length (replace [TAB] (lit " ") front) = length front
  ∧ length (replace [TAB] (lit " ") back) = length back
  ∧ (TAB ∉ replace [TAB] (lit " ") front)
  ∧ (TAB ∉ replace [TAB] (lit " ") back).
Proof.
  intros Ht. split_and!; auto using replace_tab_length, replace_tab_plain.
  unfold write_row. cbn [app].
  rewrite split_on_app by apply replace_tab_plain.
  rewrite split_on_app by apply replace_tab_plain.
  rewrite split_on_plain; [done|].
  rewrite not_elem_of_app. split; [done|]. by apply (bool_decide_unpack _).
Qed.

Lemma write_row_columns_witness :
  (TAB ∉ lit "CourseA theorem")
  ∧ split_on TAB
      (write_row (lit "a" ++ [TAB] ++ lit "b", lit "x", lit "CourseA theorem"))
    = [lit "a b"; lit "x"; lit "CourseA theorem" ++ [NL]].
Proof.
  assert (TAB ∉ lit "CourseA theorem") as H
    by (by apply (bool_decide_unpack _)).
  split; [exact H|].
  destruct (write_row_columns (lit "a" ++ [TAB] ++ lit "b") (lit "x")
              (lit "CourseA theorem") H) as [H1 _].
  exact H1.
Defined.

(** ** Tags *)

(** [s.replace(c, new)] for a one-character [c]. *)
Lemma replace_single (c : char) (new s : str) :
  replace [c] new s
  = concat (map (λ x, if char_eqb c x then new else [x]) s).
Proof.
  unfold replace. induction s as [|x s IH]; [done|].
  cbn [replace_go starts_with map concat length]. rewrite andb_true_r.
  destruct (char_eqb c x); simpl; by rewrite IH.
Qed.

Lemma replace_single_gone (c : char) (new s : str) :
  c ∉ new → c ∉ replace [c] new s.
Proof.
  intros Hn. rewrite replace_single.
  induction s as [|x s IH]; cbn [map concat]; [apply not_elem_of_nil|].
  apply not_elem_of_app. split; [|done].
  destruct (char_eqb c x) eqn:E; [done|].
  apply not_elem_of_cons. split; [|apply not_elem_of_nil].
  intros <-. by rewrite char_eqb_refl in E.
Qed.

Lemma replace_single_keeps_out (d c : char) (new s : str) :
  d ∉ s → d ∉ new → d ∉ replace [c] new s.
Proof.
  intros Hs Hn. rewrite replace_single.
  induction s as [|x s IH]; cbn [map concat]; [apply not_elem_of_nil|].
  apply not_elem_of_cons in Hs as [Hx Hs].
  apply not_elem_of_app. split; [|by apply IH].
  destruct (char_eqb c x); [done|].
  apply not_elem_of_cons. split; [done | apply not_elem_of_nil].
Qed.

(** X2.  A sanitized tag holds no space, no comma and no ampersand,
    whatever the text it is made from. *)
Theorem sanitize_tag_safe (text : str) :
  (ch " " ∉ sanitize_tag text)
  ∧ (ch "," ∉ sanitize_tag text)
  ∧ (ch "&" ∉ sanitize_tag text).
Proof.
  unfold sanitize_tag.
  change (lit " ") with [ch " "]. change (lit ",") with [ch ","].
  change (lit "&") with [ch "&"].
  assert (ch " " ∉ replace [ch " "] (lit "_") text) as H1
    by (apply replace_single_gone; by apply (bool_decide_unpack _)).
  assert (ch "," ∉ replace [ch ","] [] (replace [ch " "] (lit "_") text))
    as H2 by (apply replace_single_gone, not_elem_of_nil).
  assert (ch " " ∉ replace [ch ","] [] (replace [ch " "] (lit "_") text))
    as H3 by (apply replace_single_keeps_out; [done | apply not_elem_of_nil]).
  split_and!.
  - apply replace_single_keeps_out; [done | by apply (bool_decide_unpack _)].
  - apply replace_single_keeps_out; [done | by apply (bool_decide_unpack _)].
  - apply replace_single_gone. by apply (bool_decide_unpack _).
Qed.

Lemma sanitize_tag_spaceless (text : str) : ch " " ∉ sanitize_tag text.
Proof.
  unfold sanitize_tag.
  change (lit " ") with [ch " "]. change (lit ",") with [ch ","].
  change (lit "&") with [ch "&"].
  apply replace_single_keeps_out; [|by apply (bool_decide_unpack _)].
  apply replace_single_keeps_out; [|apply not_elem_of_nil].
  apply replace_single_gone. by apply (bool_decide_unpack _).
Qed.

Lemma split_on_join (sep : char) (l : list str) :
  l ≠ [] → Forall (λ x, sep ∉ x) l → split_on sep (join [sep] l) = l.
Proof.
  intros Hl H. induction H as [|x l Hx H IH]; [done|]. clear Hl.
  destruct l as [|y l].
  - by apply split_on_plain.
  - change (join [sep] (x :: y :: l)) with (x ++ sep :: join [sep] (y :: l)).
    rewrite split_on_app by done. by rewrite IH.
Qed.

(** X3.  The tag string of every card splits at its spaces back into the
    tags it was joined from: the sanitized directory name, the sanitized
    environment name and, when the block has a heading context, the
    sanitized text of the context before its first [" > "]; no tag holds a
    space, so an importer reads two or three tags. *)
Theorem make_card_tags (course : str) (all_macros : list macro)
    (sections : list heading) (env_type body : str) (pos : nat)
    (front back tag_str : str) :
  make_card course all_macros sections (env_type, body, pos)
  = Some (front, back, tag_str) →
  ∃ ctx,
    get_section_context pos sections = Some ctx
    ∧ split_on (ch " ") tag_str
      = [sanitize_tag course; sanitize_tag env_type]
        ++ (if bool_decide (ctx = []) then []
            else [sanitize_tag (split_first (lit " > ") ctx)])
    ∧ Forall (λ tag, ch " " ∉ tag) (split_on (ch " ") tag_str).
Proof.
  unfold make_card.
  destruct (extract_title_from_body body) as [title clean_body].
  destruct (get_section_context pos sections) as [ctx|]; [|done].
  cbn [mbind option_bind]. intros H.
  apply (f_equal (λ o : option card, match o with
                                     | Some c => c.2
                                     | None => []
                                     end)) in H.
  cbv beta iota in H. cbn [snd] in H. subst tag_str.
  exists ctx. split; [done|].
  change (lit " ") with [ch " "].
  assert (Forall (λ tag : str, ch " " ∉ tag)
            ([sanitize_tag course; sanitize_tag env_type]
             ++ (if bool_decide (ctx = []) then []
                 else [sanitize_tag (split_first (lit " > ") ctx)]))) as Hf.
  { destruct (bool_decide (ctx = []));
      repeat constructor; apply sanitize_tag_spaceless. }
  rewrite split_on_join; [by split | by destruct (bool_decide _) | done].
Qed.

Lemma make_card_tags_witness :
  make_card (lit "Real Analysis") [] [(0, lit "section", lit "Limits, & more")]
    (lit "theorem", lit "x", 30)
  = Some (lit "<b>Theorem</b> (Limits, & more)<br><i>[Real Analysis]</i>",
          lit "x", lit "Real_Analysis theorem Limits_and_more")
  ∧ split_on (ch " ") (lit "Real_Analysis theorem Limits_and_more")
    = [lit "Real_Analysis"; lit "theorem"; lit "Limits_and_more"].
Proof.
  assert (make_card (lit "Real Analysis") []
            [(0, lit "section", lit "Limits, & more")]
            (lit "theorem", lit "x", 30)
          = Some (lit "<b>Theorem</b> (Limits, & more)<br><i>[Real Analysis]</i>",
                  lit "x", lit "Real_Analysis theorem Limits_and_more")) as H
    by (vm_compute; reflexivity).
  split; [exact H|].
  destruct (make_card_tags _ _ _ _ _ _ _ _ _ H) as (ctx & Hc & Hs & _).
  rewrite Hs. vm_compute in Hc. injection Hc as <-. vm_compute. reflexivity.
Defined.

(** ** The heading loop on any list *)

Lemma index_rank (sec_type : str) :
  rank_of sec_type = None → index sec_type hierarchy = None.
Proof.
  unfold rank_of, hierarchy. cbn [index].
  repeat case_bool_decide; done.
Qed.

Lemma context_loop_prefix (pos : nat) (sections : list heading) :
  ∀ current t, represents current t →
    match context_loop pos sections current with
    | Some current' =>
        Forall (λ h : heading, is_Some (rank_of h.1.2))
          (headings_read pos sections)
        ∧ represents current'
            (foldl heading_event t (headings_read pos sections))
    | None =>
        ¬ Forall (λ h : heading, is_Some (rank_of h.1.2))
            (headings_read pos sections)
    end.
Proof.
  induction sections as [|[[sec_pos sec_type] sec_title] rest IH];
    intros current t Ht; cbn [context_loop headings_read fst snd].
  { by split. }
  destruct (pos <? sec_pos); [by split|].
  destruct (rank_of sec_type) as [r|] eqn:Hrk.
  - assert (heading_event t (sec_pos, sec_type, sec_title)
            = set_title t r sec_title) as He.
    { unfold heading_event. cbn [fst snd]. by rewrite Hrk. }
    cbn [foldl]. rewrite He.
    assert (is_Some (rank_of sec_type)) as Hv by (by rewrite Hrk).
    apply rank_of_Some in Hrk as ->. destruct Ht as (Ht1 & Ht2 & Ht3).
    assert (∀ c t',
              represents c t' →
              match context_loop pos rest c with
              | Some current' =>
                  Forall (λ h : heading, is_Some (rank_of h.1.2))
                    ((sec_pos,
                      match r with
                      | Top => lit "section"
                      | Mid => lit "subsection"
                      | Low => lit "subsubsection"
                      end, sec_title) :: headings_read pos rest)
                  ∧ represents current'
                      (foldl heading_event t' (headings_read pos rest))
              | None =>
                  ¬ Forall (λ h : heading, is_Some (rank_of h.1.2))
                      ((sec_pos,
                        match r with
                        | Top => lit "section"
                        | Mid => lit "subsection"
                        | Low => lit "subsubsection"
                        end, sec_title) :: headings_read pos rest)
              end) as Hstep.
    { intros c t' Hc. specialize (IH c t' Hc).
      destruct (context_loop pos rest c) as [current'|].
      - destruct IH as [IH1 IH2]. split; [by constructor | done].
      - intros [_ Hf]%Forall_cons. by apply IH. }
    destruct r; cbn -[lit]; apply Hstep; unfold represents; cbn -[lit];
      split_and!;
      repeat first [ rewrite lookup_delete_eq
                   | rewrite lookup_delete_ne by done
                   | rewrite lookup_insert_eq
                   | rewrite lookup_insert_ne by done ]; done.
  - rewrite (index_rank _ Hrk). intros [[r Hr] _]%Forall_cons.
    cbn [fst snd] in Hr. congruence.
Qed.

(** X4.  On any list of headings, sorted or not, the lookup reads the
    headings up to the first one that stands after [pos] and no further:
    when each of them has one of the three ranks the result is the titles
    of the fold over them, and when one of them has another rank the
    lookup fails (the [ValueError] of [hierarchy.index]).  Headings after
    the first later one are never read, whatever their position or
    rank. *)
Theorem get_section_context_prefix (pos : nat) (sections : list heading) :
  get_section_context pos sections =
  if bool_decide (Forall (λ h : heading, is_Some (rank_of h.1.2))
                    (headings_read pos sections))
  then Some (titles_text (foldl heading_event (None, None, None)
                            (headings_read pos sections)))
  else None.
Proof.
  unfold get_section_context.
  pose proof (context_loop_prefix pos sections ∅ (None, None, None)) as H.
  destruct (context_loop pos sections ∅) as [current|].
  - destruct H as (Hf & H1 & H2 & H3); [done|].
    rewrite bool_decide_eq_true_2 by done.
    cbn -[lit join]. rewrite H1, H2, H3. f_equal. unfold titles_text.
    by destruct (foldl _ _ _) as [[[a|] [b|]] [c|]].
  - rewrite bool_decide_eq_false_2; [done|]. by apply H.
Qed.

(** ** The preamble *)

Lemma starts_with_app_l (m u z : str) :
  length m ≤ length u → starts_with m (u ++ z) = starts_with m u.
Proof.
  revert u. induction m as [|a m IH]; intros u Hl; [done|].
  destruct u as [|b u]; [simpl in Hl; lia|]. cbn [app starts_with].
  rewrite IH; [done | simpl in Hl; lia].
Qed.

Lemma occurs_at_within (m a z : str) (q : nat) :
  q + length m ≤ length a → occurs_at m (a ++ z) q = occurs_at m a q.
Proof.
  intros H. unfold occurs_at. rewrite drop_app_le by lia.
  apply starts_with_app_l. rewrite length_drop. lia.
Qed.

(** The first occurrence of a marker that follows a text without it. *)
Lemma find_after (m a z : str) :
  marker m → find m a = None → find m (a ++ m ++ z) = Some (length a).
Proof.
  intros Hm Ha. apply find_first; [apply occurs_at_middle|].
  intros q Hq.
  destruct (occurs_at m (a ++ m ++ z) q) eqn:Ho; [|done]. exfalso.
  destruct (decide (q + length m ≤ length a)) as [Hle|Hgt].
  - rewrite occurs_at_within in Ho by done.
    by rewrite (find_None _ _ q Ha) in Ho.
  - pose proof (marker_inside m m (a ++ m ++ z) q (length a) Hm Hm Ho) as H.
    rewrite occurs_at_middle in H. by specialize (H ltac:(lia)).
Qed.

(** X5.  Only the preamble is read for the macros of a file: when the
    text before the first [\begin{document}] does not hold that marker,
    the macros of the file are those of that text, whatever follows the
    marker. *)
Theorem load_file_macros_preamble (preamble rest : str) :
  find (lit "\begin{document}") preamble = None →
  load_file_macros (preamble ++ lit "\begin{document}" ++ rest)
  = parse_macros preamble.
Proof.
  intros H. unfold load_file_macros. rewrite find_after; [| |done].
  - by rewrite take_app_length.
  - exists (lit "begin{document}"). split; [done|].
    by apply (bool_decide_unpack _).
Qed.

Lemma load_file_macros_preamble_witness :
  find (lit "\begin{document}") (lit "\newcommand{\R}{\mathbb{R}}" ++ [NL])
  = None
  ∧ load_file_macros
      ((lit "\newcommand{\R}{\mathbb{R}}" ++ [NL])
       ++ lit "\begin{document}" ++ lit "\newcommand{\C}{\mathbb{C}}")
    = [(lit "\R", 0, lit "\mathbb{R}")].
Proof.
  assert (find (lit "\begin{document}")
            (lit "\newcommand{\R}{\mathbb{R}}" ++ [NL]) = None) as H
    by (vm_compute; reflexivity).
  split; [exact H|].
  rewrite (load_file_macros_preamble _ (lit "\newcommand{\C}{\mathbb{C}}") H).
  vm_compute. reflexivity.
Defined.

(** ** Line breaks and white space in the back of a card *)

Lemma stitch_Forall (P : char → Prop) (repl : rematch → str) (s : str)
    (pos : nat) (ms : list rematch) :
  Forall P s → (∀ m, Forall P (repl m)) → Forall P (stitch repl s pos ms).
Proof.
  intros Hs Hr. revert pos. induction ms as [|m ms IH]; intros pos;
    cbn [stitch].
  - by apply Forall_drop.
  - rewrite !Forall_app. split_and!; [|done|done].
    unfold slice. by apply Forall_take, Forall_drop.
Qed.

(** A substitution puts nothing in the text but what the replacements
    hold. *)
Lemma re_sub_Forall (P : char → Prop) (r : regex) (repl : rematch → str)
    (s : str) :
  Forall P s → (∀ m, Forall P (repl m)) → Forall P (re_sub r repl s).
Proof. apply stitch_Forall. Qed.

Lemma drop_while_Forall (P : char → Prop) (f : char → bool) (s : str) :
  Forall P s → Forall P (drop_while f s).
Proof.
  induction 1 as [|c s Hc Hs IH]; [constructor|]. simpl.
  destruct (f c); [done | by constructor].
Qed.

Lemma rev_Forall (P : char → Prop) (s : str) : Forall P s → Forall P (rev s).
Proof.
  rewrite !Forall_forall. intros H c Hc. apply H.
  by apply list_elem_of_In, in_rev, list_elem_of_In.
Qed.

Lemma strip_set_Forall (P : char → Prop) (f : char → bool) (s : str) :
  Forall P s → Forall P (strip_set f s).
Proof.
  intros H. unfold strip_set.
  by apply rev_Forall, drop_while_Forall, rev_Forall, drop_while_Forall.
Qed.

Lemma join_Forall (P : char → Prop) (sep : str) (l : list str) :
  Forall P sep → Forall (Forall P) l → Forall P (join sep l).
Proof.
  intros Hsep. induction 1 as [|x l Hx Hl IH]; [constructor|].
  destruct l as [|y l]; [done|].
  change (join sep (x :: y :: l)) with (x ++ sep ++ join sep (y :: l)).
  rewrite !Forall_app. by split_and!.
Qed.

Lemma split_on_Forall (sep : char) (s : str) :
  Forall (Forall (λ c, c ≠ sep)) (split_on sep s).
Proof.
  induction s as [|c s IH]; cbn [split_on]; [by repeat constructor|].
  destruct (char_eqb c sep) eqn:E.
  - by constructor.
  - destruct (split_on sep s) as [|h t]; [|apply Forall_cons in IH as [Hh Ht]];
      (constructor; [|done]); (constructor; [|done]);
      intros ->; by rewrite char_eqb_refl in E.
Qed.

Lemma normalize_whitespace_one_line (text : str) :
  Forall (λ c, c ≠ NL) (normalize_whitespace text).
Proof.
  unfold normalize_whitespace. cbv zeta.
  apply strip_set_Forall, re_sub_Forall; [|by constructor].
  apply re_sub_Forall; [|by constructor].
  apply strip_set_Forall, re_sub_Forall;
    [|intros _; by apply (bool_decide_unpack _)].
  apply join_Forall; [by apply (bool_decide_unpack _)|].
  apply Forall_forall. intros l (l' & <- & Hl')%list_elem_of_In%in_map_iff.
  apply strip_set_Forall.
  pose proof (split_on_Forall NL text) as H. rewrite Forall_forall in H.
  by apply H, list_elem_of_In.
Qed.

Lemma drop_while_head (f : char → bool) (s : str) (c : char) :
  head (drop_while f s) = Some c → f c = false.
Proof.
  induction s as [|x s IH]; [done|]. simpl.
  destruct (f x) eqn:E; [done|]. by intros [= <-].
Qed.

Lemma drop_while_last (f : char → bool) (s : str) (c : char) :
  last (drop_while f s) = Some c → last s = Some c.
Proof.
  induction s as [|x s IH]; [done|]. simpl.
  destruct (f x); [|done]. intros H. specialize (IH H).
  destruct s; [done | exact IH].
Qed.

Lemma head_rev (s : str) : head (rev s) = last s.
Proof.
  induction s as [|x s _] using rev_ind; [done|].
  by rewrite rev_app_distr, last_snoc.
Qed.

Lemma last_rev (s : str) : last (rev s) = head s.
Proof. by rewrite <- head_rev, rev_involutive. Qed.

Lemma strip_set_trimmed (f : char → bool) (s : str) :
  (∀ c, head (strip_set f s) = Some c → f c = false)
  ∧ (∀ c, last (strip_set f s) = Some c → f c = false).
Proof.
  unfold strip_set. split; intros c.
  - rewrite head_rev. intros H%drop_while_last. rewrite last_rev in H.
    by apply drop_while_head in H.
  - rewrite last_rev. apply drop_while_head.
Qed.

(** X6.  The text that the converter returns, the back of a card, holds
    no line break, and neither starts nor ends with white space, whatever
    the body it is made from. *)
Theorem latex_to_anki_mathjax_one_line (text : str) :
  (NL ∉ latex_to_anki_mathjax text) ∧ trimmed (latex_to_anki_mathjax text).
Proof.
  unfold latex_to_anki_mathjax. cbv zeta. split.
  - intros H. pose proof (normalize_whitespace_one_line
                            (convert_emphasis
                               (convert_inline_math
                                  (convert_display_math
                                     (convert_lists
                                        (convert_equation
                                           (convert_align
                                              (strip_commands text))))))))
      as Hf.
    rewrite Forall_forall in Hf. by apply (Hf NL).
  - unfold normalize_whitespace. cbv zeta. apply strip_set_trimmed.
Qed.

(** ** The whole run *)

Lemma encodable_plain (s : str) : encodable s = true ↔ Forall plain s.
Proof.
  unfold encodable, plain. induction s as [|c s IH]; cbn [forallb].
  - split; [constructor | done].
  - rewrite andb_true_iff, negb_true_iff, IH, Forall_cons. done.
Qed.

Lemma slice_Forall (P : char → Prop) (s : str) (a b : nat) :
  Forall P s → Forall P (slice s a b).
Proof. intros H. unfold slice. by apply Forall_take, Forall_drop. Qed.

Lemma group_str_Forall (P : char → Prop) (s : str) (m : rematch) (n : nat) :
  Forall P s → Forall P (group_str s m n).
Proof.
  intros H. unfold group_str, group.
  destruct (group_span n (m_groups m)) as [[a b]|]; [|constructor].
  by apply slice_Forall.
Qed.

Lemma replace_go_Forall (P : char → Prop) (old new : str) (skip : nat)
    (s : str) :
  Forall P new → Forall P s → Forall P (replace_go old new skip s).
Proof.
  intros Hn Hs. revert skip. induction Hs as [|c s Hc Hs IH]; intros skip;
    cbn [replace_go]; [constructor|].
  destruct skip as [|n]; [|apply IH].
  destruct (starts_with old (c :: s)).
  - apply Forall_app. split; [done | apply IH].
  - constructor; [done | apply IH].
Qed.

Lemma replace_Forall (P : char → Prop) (old new s : str) :
  Forall P new → Forall P s → Forall P (replace old new s).
Proof. apply replace_go_Forall. Qed.

Lemma strip_Forall (P : char → Prop) (s : str) :
  Forall P s → Forall P (strip s).
Proof. apply strip_set_Forall. Qed.

Lemma split_on_pieces (P : char → Prop) (sep : char) (s : str) :
  Forall P s → Forall (Forall P) (split_on sep s).
Proof.
  induction 1 as [|c s Hc Hs IH]; cbn [split_on]; [by repeat constructor|].
  destruct (char_eqb c sep); [by constructor|].
  destruct (split_on sep s) as [|h t]; [by repeat constructor|].
  apply Forall_cons in IH as [Hh Ht]. by repeat constructor.
Qed.

Lemma pieces_Forall (P : char → Prop) (s : str) (pos : nat)
    (ms : list rematch) :
  Forall P s → Forall (Forall P) (pieces s pos ms).
Proof.
  intros Hs. revert pos. induction ms as [|m ms IH]; intros pos;
    cbn [pieces].
  - constructor; [by apply Forall_drop | constructor].
  - constructor; [by apply slice_Forall | apply IH].
Qed.

Lemma concat_Forall (P : char → Prop) (l : list str) :
  Forall (Forall P) l → Forall P (concat l).
Proof. induction 1; cbn [concat]; [constructor | by apply Forall_app]. Qed.

(** ** Characters that the output can hold *)

Lemma parse_macros_plain (src : str) :
  Forall plain src → Forall (λ m : macro, Forall plain m.2) (parse_macros src).
Proof.
  intros H. unfold parse_macros. rewrite !Forall_app, !Forall_map.
  split_and!; apply Forall_forall; intros m _;
    unfold newcommand_entry, mathoperator_entry, documentcommand_entry,
      paireddelimiter_entry; cbv zeta; cbn [snd].
  - by apply group_str_Forall.
  - rewrite !Forall_app. split_and!; [by repeat constructor | |
      by repeat constructor]. by apply group_str_Forall.
  - by apply group_str_Forall.
  - rewrite !Forall_app.
    split_and!; try (by repeat constructor); by apply group_str_Forall.
Qed.

Lemma expand_one_plain (text : str) (mac : macro) :
  Forall plain mac.2 → Forall plain text → Forall plain (expand_one text mac).
Proof.
  destruct mac as [[name num_args] replacement]. cbn [snd]. intros Hr Ht.
  unfold expand_one.
  destruct num_args as [|[|[|n]]]; cbn [Nat.eqb]; [| | |done];
    apply re_sub_Forall; try done; intros m.
  - apply replace_Forall; [by apply group_str_Forall | done].
  - apply replace_Forall; [by apply group_str_Forall|].
    apply replace_Forall; [by apply group_str_Forall | done].
Qed.

Lemma expand_pass_plain (macros : list macro) (text : str) :
  Forall (λ m : macro, Forall plain m.2) macros → Forall plain text →
  Forall plain (expand_pass macros text).
Proof.
  unfold expand_pass. intros Hm. revert text.
  induction Hm as [|mac macros H _ IH]; intros text Ht; [done|].
  cbn [foldl]. by apply IH, expand_one_plain.
Qed.

Lemma expand_macros_plain (text : str) (macros : list macro) :
  Forall (λ m : macro, Forall plain m.2) macros → Forall plain text →
  Forall plain (expand_macros text macros).
Proof.
  intros Hm Ht. unfold expand_macros. cbn [Nat.iter nat_rect].
  do 3 (apply expand_pass_plain; [done|]). done.
Qed.

Lemma html_items_plain_text (content : str) :
  Forall plain content → Forall plain (html_items content).
Proof.
  intros H. unfold html_items. cbv zeta. apply concat_Forall.
  rewrite !Forall_map. apply Forall_forall.
  intros item [_ Hi]%list_elem_of_filter. cbv beta.
  rewrite !Forall_app. split_and!; try (by repeat constructor).
  apply strip_Forall. unfold re_split in Hi.
  pose proof (pieces_Forall plain content 0 (re_finditer item_re content) H)
    as Hp.
  rewrite Forall_forall in Hp. by apply Hp.
Qed.

Lemma convert_command_plain_text (name tag text : str) :
  Forall plain tag → Forall plain text →
  Forall plain (convert_command name tag text).
Proof.
  intros Hg Ht. unfold convert_command. apply re_sub_Forall; [done|].
  intros m. rewrite !Forall_app.
  split_and!; try done; try (by repeat constructor).
  by apply group_str_Forall.
Qed.

Lemma normalize_whitespace_plain (text : str) :
  Forall plain text → Forall plain (normalize_whitespace text).
Proof.
  intros H. unfold normalize_whitespace. cbv zeta.
  apply strip_Forall, re_sub_Forall; [|by constructor].
  apply re_sub_Forall; [|by constructor].
  apply strip_set_Forall, re_sub_Forall; [|intros _; by repeat constructor].
  apply join_Forall; [by repeat constructor|].
  rewrite Forall_map. apply Forall_forall. intros l Hl. apply strip_Forall.
  pose proof (split_on_pieces plain NL text H) as Hp.
  rewrite Forall_forall in Hp. by apply Hp.
Qed.

Lemma wrap_group_plain (r : regex) (open close text : str) :
  Forall plain open → Forall plain close → Forall plain text →
  Forall plain
    (re_sub r (λ m, open ++ group_str text m 1 ++ close) text).
Proof.
  intros Ho Hc Ht. apply re_sub_Forall; [done|]. intros m.
  rewrite !Forall_app. split_and!; [done | | done].
  by apply group_str_Forall.
Qed.

Lemma convert_lists_plain (text : str) :
  Forall plain text → Forall plain (convert_lists text).
Proof.
  intros H. unfold convert_lists. cbv zeta.
  assert (Forall plain (re_sub enumerate_re (convert_enumerate text) text))
    as H1.
  { apply re_sub_Forall; [done|]. intros m. unfold convert_enumerate.
    rewrite !Forall_app. split_and!; try (by repeat constructor).
    by apply html_items_plain_text, group_str_Forall. }
  apply re_sub_Forall; [done|]. intros m. unfold convert_itemize.
  rewrite !Forall_app. split_and!; try (by repeat constructor).
  by apply html_items_plain_text, group_str_Forall.
Qed.

Lemma latex_to_anki_mathjax_plain (text : str) :
  Forall plain text → Forall plain (latex_to_anki_mathjax text).
Proof.
  intros H. unfold latex_to_anki_mathjax. cbv zeta.
  apply normalize_whitespace_plain.
  unfold convert_emphasis.
  do 3 (apply convert_command_plain_text; [by repeat constructor|]).
  apply wrap_group_plain; [by repeat constructor..|].
  apply wrap_group_plain; [by repeat constructor..|].
  apply convert_lists_plain.
  apply wrap_group_plain; [by repeat constructor..|].
  apply (wrap_group_plain align_re (lit "\[\begin{aligned}")
           (lit "\end{aligned}\]")); [by repeat constructor..|].
  unfold strip_commands.
  apply replace_Forall; [constructor|].
  by apply replace_Forall; [constructor|].
Qed.

Lemma capitalize_plain (s : str) :
  Forall plain s → Forall plain (capitalize s).
Proof.
  assert (∀ c, plain c → plain (upper c)) as Hu.
  { intros c Hc. unfold upper.
    destruct ((97 <=? c) && (c <=? 122))%N eqn:E; [|done].
    apply andb_true_iff in E as [H1%N.leb_le H2%N.leb_le].
    unfold plain, is_surrogate. apply andb_false_iff. left.
    apply N.leb_gt. lia. }
  assert (∀ c, plain c → plain (lower c)) as Hl.
  { intros c Hc. unfold lower.
    destruct ((65 <=? c) && (c <=? 90))%N eqn:E; [|done].
    apply andb_true_iff in E as [H1%N.leb_le H2%N.leb_le].
    unfold plain, is_surrogate. apply andb_false_iff. left.
    apply N.leb_gt. lia. }
  intros [|c s' Hc Hs]; cbn [capitalize]; constructor; [by apply Hu|].
  rewrite Forall_map. eapply Forall_impl; [exact Hs|]. done.
Qed.

Lemma sanitize_tag_plain (text : str) :
  Forall plain text → Forall plain (sanitize_tag text).
Proof.
  intros H. unfold sanitize_tag.
  apply replace_Forall; [by repeat constructor|].
  apply replace_Forall; [constructor|].
  by apply replace_Forall; [by repeat constructor|].
Qed.

Lemma extract_title_from_body_plain (body : str) :
  Forall plain body →
  (∀ t, (extract_title_from_body body).1 = Some t → Forall plain t)
  ∧ Forall plain (extract_title_from_body body).2.
Proof.
  intros H. unfold extract_title_from_body.
  destruct (match_at title_re body 0) as [m|]; cbn [fst snd].
  - split.
    + intros t [= <-]. by apply strip_Forall, group_str_Forall.
    + by apply strip_Forall, Forall_drop.
  - done.
Qed.

Lemma find_sections_plain (content : str) :
  Forall plain content →
  Forall (λ h : heading, Forall plain h.2) (find_sections content).
Proof.
  intros H. unfold find_sections. rewrite Forall_map.
  apply Forall_forall. intros m _. cbn [snd]. by apply group_str_Forall.
Qed.

Lemma context_loop_plain (pos : nat) (sections : list heading) :
  Forall (λ h : heading, Forall plain h.2) sections →
  ∀ current current',
    map_Forall (λ _ v, Forall plain v) current →
    context_loop pos sections current = Some current' →
    map_Forall (λ _ v, Forall plain v) current'.
Proof.
  induction 1 as [|[[sec_pos sec_type] sec_title] rest Hh _ IH];
    intros current current' Hc; cbn [context_loop]; [by intros [= <-]|].
  destruct (pos <? sec_pos); [by intros [= <-]|].
  destruct (index sec_type hierarchy) as [idx|]; [|done].
  apply IH.
  assert (map_Forall (λ _ v, Forall plain v) (<[sec_type:=sec_title]> current))
    as Hi by (by apply map_Forall_insert_2).
  revert Hi. generalize (<[sec_type:=sec_title]> current).
  induction (drop (idx + 1) hierarchy) as [|lower l IHl]; intros cur Hcur;
    [done|].
  cbn [foldl]. apply IHl. by apply map_Forall_delete.
Qed.

Lemma get_section_context_plain (pos : nat) (sections : list heading)
    (ctx : str) :
  Forall (λ h : heading, Forall plain h.2) sections →
  get_section_context pos sections = Some ctx → Forall plain ctx.
Proof.
  intros Hs. unfold get_section_context.
  destruct (context_loop pos sections ∅) as [current|] eqn:E; [|done].
  pose proof (context_loop_plain pos sections Hs ∅ current
                (map_Forall_empty _) E) as Hc.
  assert (Forall (Forall plain) (omap (λ level, current !! level) hierarchy))
    as Hp.
  { apply Forall_forall. intros v (level & _ & Hv)%list_elem_of_omap.
    by apply (Hc level). }
  cbv zeta. generalize dependent (omap (λ level, current !! level) hierarchy).
  intros parts Hp H. assert (ctx = match parts with
                                    | [] => []
                                    | _ :: _ => join (lit " > ") parts
                                    end) as -> by congruence.
  destruct parts as [|x l]; [constructor|].
  apply join_Forall; [by repeat constructor | done].
Qed.

Lemma make_card_plain (course : str) (all_macros : list macro)
    (sections : list heading) (b : block) (c : card) :
  Forall plain course → Forall (λ m : macro, Forall plain m.2) all_macros →
  Forall (λ h : heading, Forall plain h.2) sections →
  Forall plain b.1.1 → Forall plain b.1.2 →
  make_card course all_macros sections b = Some c →
  Forall plain c.1.1 ∧ Forall plain c.1.2 ∧ Forall plain c.2.
Proof.
  intros Hco Hm Hs. destruct b as [[env_type body] pos]. cbn [fst snd].
  intros He Hb. unfold make_card.
  destruct (extract_title_from_body_plain body Hb) as [Ht Hr].
  destruct (extract_title_from_body body) as [title clean_body].
  cbn [fst snd] in Ht, Hr.
  set (title' := if truthy title then _ else title).
  assert (Forall plain (default [] title')) as Ht'.
  { unfold title'. destruct title as [t|]; [|constructor].
    destruct (truthy (Some t));
      cbn [fmap option_fmap option_map default]; [|by apply Ht].
    apply expand_macros_plain; [done | by apply Ht]. }
  destruct (get_section_context pos sections) as [ctx|] eqn:E;
    cbn [mbind option_bind]; [|done].
  pose proof (get_section_context_plain _ _ _ Hs E) as Hctx.
  intros <-%(inj Some). cbn [fst snd].
  split_and!.
  - rewrite !Forall_app. split_and!; try (by repeat constructor); try done.
    destruct (truthy title'); rewrite !Forall_app; split_and!;
      try (by repeat constructor); try (by apply capitalize_plain);
      try done.
    destruct (bool_decide (ctx = [])); [constructor|].
    rewrite !Forall_app. by split_and!; try (by repeat constructor).
  - by apply latex_to_anki_mathjax_plain, expand_macros_plain.
  - apply join_Forall; [by repeat constructor|].
    apply Forall_app. split.
    + repeat constructor; by apply sanitize_tag_plain.
    + destruct (bool_decide (ctx = [])); [constructor|].
      repeat constructor. apply sanitize_tag_plain. unfold split_first.
      destruct (find (lit " > ") ctx); [by apply Forall_take | done].
Qed.

Lemma write_row_plain (c : card) :
  Forall plain c.1.1 → Forall plain c.1.2 → Forall plain c.2 →
  Forall plain (write_row c).
Proof.
  destruct c as [[front back] tags]. cbn [fst snd]. intros H1 H2 H3.
  unfold write_row. rewrite !Forall_app.
  split_and!; try (by repeat constructor); try done;
    by apply replace_Forall; [by repeat constructor|].
Qed.

Lemma find_environments_plain (content : str) (b : block) :
  Forall plain content → b ∈ find_environments content ENV_TYPES →
  Forall plain b.1.1 ∧ Forall plain b.1.2.
Proof.
  intros H Hb. apply elem_of_find_environments in Hb;
    [|apply alphabetic_ENV_TYPES].
  destruct Hb as (env & p & Henv & Hb).
  apply block_at_Some in Hb as (_ & e & _ & ->). cbn [fst snd]. split.
  - unfold ENV_TYPES in Henv.
    repeat (apply elem_of_cons in Henv as [->|Henv];
            [by repeat constructor|]).
    by apply elem_of_nil in Henv.
  - by apply strip_Forall, slice_Forall.
Qed.

Lemma load_file_macros_plain (content : str) :
  Forall plain content →
  Forall (λ m : macro, Forall plain m.2) (load_file_macros content).
Proof.
  intros H. unfold load_file_macros. cbv zeta. apply parse_macros_plain.
  destruct (find _ content); [by apply Forall_take | done].
Qed.

Lemma process_file_plain (course content : str) (global_macros : list macro)
    (cards : list card) :
  Forall plain course → Forall plain content →
  Forall (λ m : macro, Forall plain m.2) global_macros →
  process_file course content global_macros = Some cards →
  Forall (λ c, Forall plain (write_row c)) cards.
Proof.
  intros Hco Hc Hm. unfold process_file. cbv zeta. intros H%mapM_Some_1.
  assert (Forall (λ b : block, Forall plain b.1.1 ∧ Forall plain b.1.2)
            (find_environments content ENV_TYPES)) as Hb.
  { apply Forall_forall. intros b. by apply find_environments_plain. }
  induction H as [|b c bs cs Hmk _ IH]; [constructor|].
  apply Forall_cons in Hb as [[Hb1 Hb2] Hb]. constructor; [|by apply IH].
  assert (Forall (λ m : macro, Forall plain m.2)
            (global_macros ++ load_file_macros content)) as Hall.
  { apply Forall_app. split; [done | by apply load_file_macros_plain]. }
  destruct (make_card_plain _ _ _ _ _ Hco Hall
              (find_sections_plain _ Hc) Hb1 Hb2 Hmk) as (H1 & H2 & H3).
  by apply write_row_plain.
Qed.

Lemma load_global_macros_plain (header : option str) :
  (∀ h, header = Some h → Forall plain h) →
  Forall (λ m : macro, Forall plain m.2) (load_global_macros header).
Proof.
  intros H. destruct header as [h|]; [|constructor].
  by apply parse_macros_plain, H.
Qed.

(** X7.  Every file gives its cards, whatever the header and the files,
    one card for each block of the extractor.  [main] returns the four
    directive lines followed by the rows of the cards, file by file in the
    order given, when every course name and every row can be encoded in
    UTF-8, and raises otherwise.  It raises nothing when the header, the
    course names and the contents of the files hold no lone surrogate:
    nothing else reaches the rows but the characters of the program's own
    text. *)
Theorem main_output (header : option str) (tex_files : list (str * str)) :
  ∃ all_cards,
    Forall2 (λ f cards,
               process_file f.1 f.2 (load_global_macros header) = Some cards
               ∧ length cards = length (find_environments f.2 ENV_TYPES))
      tex_files all_cards
    ∧ main header tex_files
      = (if forallb (λ f : str * str, encodable f.1) tex_files
            && forallb encodable (map write_row (concat all_cards))
         then Some (file_header ++ concat (map write_row (concat all_cards)))
         else None)
    ∧ ((∀ h, header = Some h → encodable h = true) →
       Forall (λ f : str * str, encodable f.1 = true ∧ encodable f.2 = true)
         tex_files →
       main header tex_files
       = Some (file_header ++ concat (map write_row (concat all_cards)))).
Proof.
  destruct (mapM_is_Some_2
              (λ f : str * str,
                 process_file f.1 f.2 (load_global_macros header)) tex_files)
    as [all_cards Hc].
  { apply Forall_forall. intros f _. unfold compose.
    destruct (process_file_cards f.1 f.2 (load_global_macros header))
      as (cards & Hp & _). by rewrite Hp. }
  exists all_cards.
  assert (main header tex_files
          = (if forallb (λ f : str * str, encodable f.1) tex_files
                && forallb encodable (map write_row (concat all_cards))
             then Some (file_header
                        ++ concat (map write_row (concat all_cards)))
             else None)) as Hmain.
  { unfold main. cbv zeta. rewrite Hc. cbn [mbind option_bind].
    by destruct (forallb (λ f : str * str, encodable f.1) tex_files). }
  apply mapM_Some_1 in Hc.
  split_and!; [|done|].
  - eapply Forall2_impl; [exact Hc|].
    intros f cards Hp. split; [done|].
    destruct (process_file_cards f.1 f.2 (load_global_macros header))
      as (cards' & Hp' & Hl). rewrite Hp in Hp'. injection Hp' as <-.
    symmetry. by eapply Forall2_length.
  - intros Hh Hf. rewrite Hmain.
    assert (Forall (λ m : macro, Forall plain m.2)
              (load_global_macros header)) as Hg.
    { apply load_global_macros_plain. intros h E.
      by apply encodable_plain, Hh. }
    assert (forallb (λ f : str * str, encodable f.1) tex_files = true) as ->.
    { apply forallb_forall. intros f Hin%list_elem_of_In.
      rewrite Forall_forall in Hf. by apply Hf. }
    assert (forallb encodable (map write_row (concat all_cards)) = true)
      as ->; [|done].
    apply forallb_forall. intros row Hrow%list_elem_of_In.
    apply list_elem_of_fmap in Hrow as (c & -> & Hcin).
    apply encodable_plain. revert c Hcin. apply Forall_forall.
    clear Hmain. induction Hc as [|f cards fs cs Hp _ IH];
      [constructor|].
    apply Forall_cons in Hf as [[H1 H2] Hf]. cbn [concat].
    apply Forall_app. split; [|by apply IH].
    apply (process_file_plain f.1 f.2 (load_global_macros header));
      [by apply encodable_plain | by apply encodable_plain | done | done].
Qed.

Lemma main_output_witness :
  (∀ h, None = Some h → encodable h = true)
  ∧ Forall (λ f : str * str, encodable f.1 = true ∧ encodable f.2 = true)
      [(lit "Analysis", lit "\begin{lemma}x\end{lemma}")]
  ∧ is_Some (main None [(lit "Analysis", lit "\begin{lemma}x\end{lemma}")]).
Proof.
  assert (∀ h : str, None = Some h → encodable h = true) as H1 by done.
  assert (Forall (λ f : str * str,
                    encodable f.1 = true ∧ encodable f.2 = true)
            [(lit "Analysis", lit "\begin{lemma}x\end{lemma}")]) as H2
    by (repeat constructor).
  split_and!; [exact H1 | exact H2 |].
  destruct (main_output None
              [(lit "Analysis", lit "\begin{lemma}x\end{lemma}")])
    as (cards & _ & _ & H3).
  rewrite (H3 H1 H2). by eexists.
Defined.

(** A course name with a lone surrogate, as a directory name with a byte
    that is not UTF-8 gives: [main] raises. *)
Lemma main_surrogate_example :
  main None [([56448%N], lit "\begin{lemma}x\end{lemma}")] = None.
Proof. vm_compute. reflexivity. Qed.

(** ** Blocks at different offsets *)

Lemma alphabetic_close_brace (e1 e2 : str) :
  alphabetic e1 → alphabetic e2 →
  e1 ++ lit "}" `prefix_of` e2 ++ lit "}" → e1 = e2.
Proof.
  intros H1. revert e2. induction H1 as [|a e1 Ha _ IH]; intros e2 H2 Hp.
  - destruct H2 as [|b e2 Hb _]; [done|].
    apply prefix_cons_inv_1 in Hp as <-. by vm_compute in Hb.
  - destruct H2 as [|b e2 Hb H2].
    + apply prefix_cons_inv_1 in Hp as ->. by vm_compute in Ha.
    + cbn [app] in Hp. pose proof (prefix_cons_inv_1 _ _ _ _ Hp) as ->.
      apply prefix_cons_inv_2 in Hp. f_equal. by apply IH.
Qed.

(** The open markers of two environment names never stand at the same
    offset. *)
Lemma begin_markers_apart (e1 e2 s : str) (p : nat) :
  alphabetic e1 → alphabetic e2 →
  occurs_at (begin_marker e1) s p = true →
  occurs_at (begin_marker e2) s p = true → e1 = e2.
Proof.
  unfold occurs_at. rewrite !starts_with_prefix. intros H1 H2 Hp1 Hp2.
  destruct (prefix_weak_total _ _ _ Hp1 Hp2) as [Hp|Hp];
    unfold begin_marker in Hp; apply prefix_app_inv in Hp.
  - by apply alphabetic_close_brace.
  - symmetry. by apply alphabetic_close_brace.
Qed.

Lemma find_environments_start_inj (tex : str) (env_types : list str)
    (b1 b2 : block) :
  Forall alphabetic env_types →
  b1 ∈ find_environments tex env_types →
  b2 ∈ find_environments tex env_types →
  block_start b1 = block_start b2 → b1 = b2.
Proof.
  intros Ha H1 H2 Hs. rewrite Forall_forall in Ha.
  apply elem_of_find_environments in H1 as (e1 & p1 & He1 & Hb1);
    [|by apply Forall_forall].
  apply elem_of_find_environments in H2 as (e2 & p2 & He2 & Hb2);
    [|by apply Forall_forall].
  destruct (block_at_fields _ _ _ _ Hb1) as [_ Hp1].
  destruct (block_at_fields _ _ _ _ Hb2) as [_ Hp2].
  unfold block_start in Hs. rewrite Hp1, Hp2 in Hs. subst p2.
  pose proof Hb1 as [Ho1 _]%block_at_Some.
  pose proof Hb2 as [Ho2 _]%block_at_Some.
  assert (e1 = e2) as -> by (eapply begin_markers_apart; eauto).
  congruence.
Qed.

Lemma strictly_sorted (l : list block) :
  StronglySorted by_start l → NoDup l →
  (∀ b1 b2, b1 ∈ l → b2 ∈ l → block_start b1 = block_start b2 → b1 = b2) →
  StronglySorted before_start l.
Proof.
  induction 1 as [|x l Hl IH Hx]; intros Hn Hinj; [constructor|].
  apply NoDup_cons in Hn as [Hnx Hn]. constructor.
  - apply IH; [done|]. intros b1 b2 H1 H2. apply Hinj; by right.
  - rewrite Forall_forall in Hx. apply Forall_forall. intros y Hy.
    specialize (Hx y Hy). unfold by_start, before_start in *.
    destruct (decide (block_start x = block_start y)) as [He|]; [|lia].
    apply Hinj in He; [by subst | by left | by right].
Qed.

(** Two lists with the same blocks, both strictly by start offset, are the
    same list. *)
Lemma strictly_sorted_unique (l1 l2 : list block) :
  StronglySorted before_start l1 → StronglySorted before_start l2 →
  l1 ≡ₚ l2 → l1 = l2.
Proof.
  intros H1. revert l2. induction H1 as [|x l1 Hl1 IH Hx]; intros l2 H2 Hp.
  { by apply Permutation_nil_l in Hp. }
  destruct H2 as [|y l2 Hl2 Hy].
  { by apply Permutation_nil_r in Hp. }
  assert (x = y) as ->.
  { destruct (decide (x = y)) as [|Hne]; [done|]. exfalso.
    assert (x ∈ l2) as Hx2.
    { assert (x ∈ y :: l2) as [|]%elem_of_cons by (rewrite <- Hp; left);
        done. }
    assert (y ∈ l1) as Hy1.
    { assert (y ∈ x :: l1) as [|]%elem_of_cons by (rewrite Hp; left);
        done. }
    rewrite Forall_forall in Hx, Hy.
    specialize (Hx _ Hy1). specialize (Hy _ Hx2).
    unfold before_start in *. lia. }
  f_equal. apply IH; [done|]. by apply Permutation_cons_inv in Hp.
Qed.

(** X8.  When no environment name is listed twice, no two blocks of the
    result start at the same offset, so the result is strictly in document
    order; and the order in which the environment names are listed does
    not matter: a rearranged list gives the same list of blocks. *)
Theorem find_environments_order_free (tex : str) (env_types : list str) :
  Forall alphabetic env_types → NoDup env_types →
  StronglySorted before_start (find_environments tex env_types)
  ∧ ∀ env_types',
      env_types' ≡ₚ env_types →
      find_environments tex env_types' = find_environments tex env_types.
Proof.
  intros Ha Hn.
  assert (∀ l, Forall alphabetic l → NoDup l →
               StronglySorted before_start (find_environments tex l)) as Hs.
  { intros l Hal Hnl. apply strictly_sorted.
    - rewrite find_environments_spec by done. apply sort_blocks_sorted.
    - by apply find_environments_NoDup.
    - intros b1 b2. by apply find_environments_start_inj. }
  split; [by apply Hs|]. intros env_types' Hp.
  assert (Forall alphabetic env_types') as Ha' by (by rewrite Hp).
  assert (NoDup env_types') as Hn' by (by rewrite Hp).
  apply strictly_sorted_unique; [by apply Hs | by apply Hs |].
  apply NoDup_Permutation; [by apply find_environments_NoDup.. |].
  intros b. rewrite !elem_of_find_environments by done.
  by setoid_rewrite Hp.
Qed.

Lemma find_environments_order_free_witness :
  Forall alphabetic ENV_TYPES ∧ NoDup ENV_TYPES
  ∧ StronglySorted before_start (find_environments unclosed_doc ENV_TYPES)
  ∧ find_environments unclosed_doc (rev ENV_TYPES)
    = find_environments unclosed_doc ENV_TYPES.
Proof.
  assert (NoDup ENV_TYPES) as Hn by (apply (bool_decide_unpack _); exact I).
  destruct (find_environments_order_free unclosed_doc ENV_TYPES
              alphabetic_ENV_TYPES Hn) as [H1 H2].
  split_and!; [exact alphabetic_ENV_TYPES | exact Hn | exact H1 |].
  apply H2. symmetry. apply Permutation_rev.
Defined.

(** ** Repeats of a character class *)

(** A repeat of a class, greedy or lazy, hands to its continuation the
    end of a run of characters of the class that is long enough. *)
Lemma repeat_class_inv (s : str) (f : char → bool) (greedy : bool) (lo : nat)
    (hi : option nat) (k : cont) (x : nat * groups) :
  ∀ fuel n i g,
    repeat_loop (rmatch s (RClass f)) greedy lo hi k fuel n i g = Some x →
    ∃ j, i ≤ j ∧ lo ≤ n + (j - i) ∧ class_run f s i j ∧ k j g = Some x.
Proof.
  induction fuel as [|fuel IH]; intros n i g; [done|].
  cbn [repeat_loop]. cbv zeta.
  assert ((if lo <=? n then k i g else None) = Some x →
          ∃ j, i ≤ j ∧ lo ≤ n + (j - i) ∧ class_run f s i j ∧ k j g = Some x)
    as Hstop.
  { destruct (Nat.leb_spec lo n) as [Hle|]; [|done]. intros Hk. exists i.
    split_and!; [lia | lia | | done]. intros q Hq. lia. }
  assert ((if under n hi
           then rmatch s (RClass f) i g
                  (λ j g', if (lo <=? n) && (j <=? i) then None
                           else repeat_loop (rmatch s (RClass f)) greedy lo hi
                                  k fuel (S n) j g')
           else None) = Some x →
          ∃ j, i ≤ j ∧ lo ≤ n + (j - i) ∧ class_run f s i j ∧ k j g = Some x)
    as Hmore.
  { destruct (under n hi); [|done]. cbn [rmatch].
    destruct (s !! i) as [c|] eqn:Hc; [|done].
    destruct (f c) eqn:Hf; [|done].
    destruct (Nat.leb_spec (S i) i); [lia|]. rewrite andb_false_r.
    intros (j & Hj & Hlo & Hrun & Hk)%IH. exists j.
    split_and!; [lia | lia | | done].
    intros q Hq. destruct (decide (q = i)) as [->|]; [by exists c|].
    apply Hrun. lia. }
  destruct greedy; intros [H|H]%or_else_Some; auto.
Qed.

Lemma rmatch_class_inv (s : str) (f : char → bool) (greedy : bool) (lo : nat)
    (hi : option nat) (i : nat) (g : groups) (k : cont) (x : nat * groups) :
  rmatch s (RRepeat greedy lo hi (RClass f)) i g k = Some x →
  ∃ j, i + lo ≤ j ∧ class_run f s i j ∧ k j g = Some x.
Proof.
  cbn [rmatch]. intros (j & Hj & Hlo & Hrun & Hk)%repeat_class_inv.
  exists j. split_and!; [lia | done | done].
Qed.

(** A greedy repeat of a class followed by something that matches right
    after the longest run takes the whole run. *)
Lemma repeat_class_greedy (s : str) (f : char → bool) (lo : nat) (k : cont)
    (g : groups) (x : nat * groups) (j : nat) :
  (∀ c, s !! j = Some c → f c = false) → k j g = Some x →
  ∀ fuel n i,
    i ≤ j → j - i < fuel → lo ≤ n + (j - i) → class_run f s i j →
    repeat_loop (rmatch s (RClass f)) true lo None k fuel n i g = Some x.
Proof.
  intros Hend Hk. induction fuel as [|fuel IH]; intros n i Hi Hf Hlo Hrun;
    [lia|].
  cbn [repeat_loop under]. cbv zeta. cbn [rmatch].
  destruct (decide (i = j)) as [->|Hne].
  - destruct (s !! j) as [c|] eqn:Hc.
    + rewrite (Hend c eq_refl). cbn [or_else].
      destruct (Nat.leb_spec lo n); [done | lia].
    + cbn [or_else]. destruct (Nat.leb_spec lo n); [done | lia].
  - destruct (Hrun i) as (c & -> & ->); [lia|].
    destruct (Nat.leb_spec (S i) i); [lia|]. rewrite andb_false_r.
    rewrite IH; [done | lia | lia | lia |].
    intros q Hq. apply Hrun. lia.
Qed.

Lemma rmatch_class_greedy (s : str) (f : char → bool) (lo : nat) (k : cont)
    (g : groups) (x : nat * groups) (i j : nat) :
  i + lo ≤ j → j ≤ length s → class_run f s i j →
  (∀ c, s !! j = Some c → f c = false) → k j g = Some x →
  rmatch s (RRepeat true lo None (RClass f)) i g k = Some x.
Proof.
  intros Hlo Hj Hrun Hend Hk. cbn [rmatch].
  apply (repeat_class_greedy s f lo k g x j); [done | done | lia | lia | lia |
                                                 done].
Qed.

(** ** Occurrences of joined texts *)

Lemma starts_with_app_split (m1 m2 d : str) :
  starts_with (m1 ++ m2) d
  = starts_with m1 d && starts_with m2 (drop (length m1) d).
Proof.
  revert d. induction m1 as [|a m1 IH]; intros d; [done|].
  destruct d as [|b d]; [done|]. cbn [app starts_with length drop].
  by rewrite IH, andb_assoc.
Qed.

Lemma occurs_at_app (m1 m2 s : str) (i : nat) :
  occurs_at (m1 ++ m2) s i
  = occurs_at m1 s i && occurs_at m2 s (i + length m1).
Proof. unfold occurs_at. by rewrite starts_with_app_split, drop_drop. Qed.

Lemma occurs_at_slice_self (s : str) (i j : nat) :
  i ≤ j ≤ length s → occurs_at (slice s i j) s i = true.
Proof.
  intros H. unfold occurs_at, slice. apply starts_with_prefix.
  exists (drop (j - i) (drop i s)). by rewrite take_drop.
Qed.

Lemma slice_length (s : str) (i j : nat) :
  i ≤ j ≤ length s → length (slice s i j) = j - i.
Proof. intros H. unfold slice. rewrite length_take, length_drop. lia. Qed.

Lemma class_run_slice (f : char → bool) (s : str) (i j : nat) :
  class_run f s i j → Forall (λ c, f c = true) (slice s i j).
Proof.
  intros H. apply Forall_forall. intros c (q & Hq)%list_elem_of_lookup_1.
  unfold slice in Hq. apply lookup_take_Some in Hq as [Hq Hlt].
  rewrite lookup_drop in Hq. destruct (H (i + q)) as (c' & Hc & Hf); [lia|].
  congruence.
Qed.

Lemma class_run_in_range (f : char → bool) (s : str) (i j : nat) :
  i ≤ j → i ≤ length s → class_run f s i j → j ≤ length s.
Proof.
  intros Hij Hi H. destruct (decide (i = j)) as [->|]; [done|].
  destruct (H (j - 1)) as (c & Hc%lookup_lt_Some & _); lia.
Qed.

Lemma slice_class_run (f : char → bool) (a t z : str) :
  Forall (λ c, f c = true) t →
  class_run f (a ++ t ++ z) (length a) (length a + length t).
Proof.
  intros H q Hq. rewrite lookup_app_r by lia.
  rewrite lookup_app_l by lia.
  destruct (lookup_lt_is_Some_2 t (q - length a)) as [c Hc]; [lia|].
  exists c. split; [done|]. rewrite Forall_forall in H.
  by eapply H, list_elem_of_lookup_2.
Qed.

Lemma occurs_at_single (c : char) (s : str) (i : nat) :
  occurs_at [c] s i = true ↔ s !! i = Some c.
Proof.
  split; [apply occurs_at_head|]. intros H. unfold occurs_at.
  rewrite (drop_S _ _ _ H). cbn [starts_with]. by rewrite char_eqb_refl.
Qed.

(** ** A group in braces *)

(** The pattern [\{([^}]...)\}] with a greedy repeat: an open brace, a run
    of characters that are not close braces, and the close brace that
    ends it. *)
Lemma braced_inv (n lo : nat) (s : str) (a : nat) (g : groups) (k : cont)
    (x : nat * groups) :
  rmatch s
    (RSeq (RLit (lit "{"))
       (RSeq (RGroup n (RRepeat true lo None (RNot (ch "}"))))
          (RLit (lit "}")))) a g k = Some x →
  ∃ j,
    a + 1 + lo ≤ j
    ∧ occurs_at (lit "{" ++ slice s (a + 1) j ++ lit "}") s a = true
    ∧ (ch "}" ∉ slice s (a + 1) j)
    ∧ length (slice s (a + 1) j) = j - (a + 1)
    ∧ k (j + 1) ((n, (a + 1, j)) :: g) = Some x.
Proof.
  cbn [rmatch]. rewrite rmatch_lit.
  destruct (occurs_at (lit "{") s a) eqn:Ho; [|done].
  change (length (lit "{")) with 1. unfold RNot.
  intros (j & Hj & Hrun & Hk)%rmatch_class_inv.
  rewrite rmatch_lit in Hk.
  destruct (occurs_at (lit "}") s j) eqn:Hc; [|done].
  change (length (lit "}")) with 1 in Hk.
  pose proof (occurs_at_length _ _ _ Hc) as [Hl|]; [|done].
  change (length (lit "}")) with 1 in Hl.
  exists j. split_and!; [done | | | apply slice_length; lia | done].
  - rewrite !occurs_at_app, Ho. change (length (lit "{")) with 1.
    rewrite occurs_at_slice_self by lia. rewrite slice_length by lia.
    replace (a + 1 + (j - (a + 1))) with j by lia. by rewrite Hc.
  - intros Hin. apply class_run_slice in Hrun. rewrite Forall_forall in Hrun.
    specialize (Hrun _ Hin). cbv beta in Hrun.
    by rewrite char_eqb_refl in Hrun.
Qed.

(** The same pattern on a text that holds the braces and a text without
    close brace between them. *)
Lemma braced_match (n lo : nat) (s t : str) (a : nat) (g : groups) (k : cont)
    (x : nat * groups) :
  occurs_at (lit "{" ++ t ++ lit "}") s a = true →
  ch "}" ∉ t → lo ≤ length t →
  k (a + 1 + length t + 1) ((n, (a + 1, a + 1 + length t)) :: g) = Some x →
  rmatch s
    (RSeq (RLit (lit "{"))
       (RSeq (RGroup n (RRepeat true lo None (RNot (ch "}"))))
          (RLit (lit "}")))) a g k = Some x.
Proof.
  intros Ho Ht Hlo Hk. pose proof Ho as Ho'.
  rewrite !occurs_at_app in Ho'. change (length (lit "{")) with 1 in Ho'.
  apply andb_true_iff in Ho' as [H1 [H2 H3]%andb_true_iff].
  pose proof (occurs_at_length _ _ _ H3) as [Hl|]; [|done].
  change (length (lit "}")) with 1 in Hl.
  cbn [rmatch]. rewrite rmatch_lit, H1. change (length (lit "{")) with 1.
  unfold RNot.
  apply (rmatch_class_greedy s _ lo _ g x (a + 1) (a + 1 + length t));
    [lia | lia | | | ].
  - intros q Hq.
    destruct (lookup_lt_is_Some_2 t (q - (a + 1))) as [c Hc]; [lia|].
    exists c. split.
    + pose proof (occurs_at_lookup _ _ (a + 1) (q - (a + 1)) c H2 Hc) as H.
      by replace (a + 1 + (q - (a + 1))) with q in H by lia.
    + destruct (char_eqb c (ch "}")) eqn:E; [|done].
      apply char_eqb_eq in E as ->. exfalso. apply Ht.
      by eapply list_elem_of_lookup_2.
  - intros c Hc. apply occurs_at_head in H3. rewrite H3 in Hc.
    injection Hc as <-. done.
  - rewrite rmatch_lit, H3. by change (length (lit "}")) with 1.
Qed.

(** ** Headings as they stand in the document *)

Lemma section_match_inv (s : str) (i : nat) (m : rematch) :
  match_at section_re s i = Some m →
  is_Some (rank_of (group_str s m 1))
  ∧ group_str s m 2 ≠ []
  ∧ (ch "}" ∉ group_str s m 2)
  ∧ occurs_at (BACKSLASH :: group_str s m 1 ++ lit "{" ++ group_str s m 2
               ++ lit "}") s i = true.
Proof.
  unfold match_at.
  destruct (rmatch s section_re i [] _) as [[j g]|] eqn:H; [|done].
  intros [= <-]. unfold group_str, group. cbn [m_groups].
  unfold section_re in H. cbn [RCat] in H.
  remember (RSeq (RLit (lit "{"))
              (RSeq (RGroup 2 (RPlus (RNot (ch "}")))) (RLit (lit "}"))))
    as rest eqn:Hrest.
  unfold RChar in H. cbn [rmatch] in H.
  destruct (s !! i) as [c|] eqn:Hi; [|done].
  destruct (char_eqb BACKSLASH c) eqn:Hc; [|done].
  apply char_eqb_eq in Hc as <-. rewrite !rmatch_lit in H.
  assert (∀ a, is_Some (rank_of a) →
            (if occurs_at a s (S i)
             then rmatch s rest (S i + length a)
                    [(1, (S i, S i + length a))] (λ j g, Some (j, g))
             else None) = Some (j, g) →
            ∃ t, g = [(2, (S i + length a + 1, S i + length a + 1 + length t));
                      (1, (S i, S i + length a))]
                 ∧ t ≠ [] ∧ (ch "}" ∉ t)
                 ∧ slice s (S i) (S i + length a) = a
                 ∧ slice s (S i + length a + 1)
                     (S i + length a + 1 + length t) = t
                 ∧ occurs_at (BACKSLASH :: a ++ lit "{" ++ t ++ lit "}") s i
                   = true) as Hk.
  { intros a Hr Hm. destruct (occurs_at a s (S i)) eqn:Ha; [|done].
    subst rest. apply braced_inv in Hm as (e & He & Ho & Hn & Hl & [= <- <-]).
    exists (slice s (S i + length a + 1) e).
    assert (S i + length a + 1 + length (slice s (S i + length a + 1) e) = e)
      as Hlen by (rewrite Hl; lia).
    rewrite Hlen. split_and!; [done | | done | | done | ].
    - intros Hnil. rewrite Hnil in Hl. simpl in Hl. lia.
    - by apply occurs_at_slice.
    - change (BACKSLASH :: a ++ lit "{" ++ slice s (S i + length a + 1) e
              ++ lit "}")
        with ([BACKSLASH] ++ a ++ lit "{" ++ slice s (S i + length a + 1) e
              ++ lit "}").
      rewrite occurs_at_app. apply andb_true_iff. split;
        [by apply occurs_at_single|].
      rewrite occurs_at_app. apply andb_true_iff.
      replace (i + length [BACKSLASH]) with (S i) by (simpl; lia).
      by split. }
  assert (∀ a, is_Some (rank_of a) →
            (if occurs_at a s (S i)
             then rmatch s rest (S i + length a)
                    [(1, (S i, S i + length a))] (λ j g, Some (j, g))
             else None) = Some (j, g) →
            is_Some (rank_of (default [] (match group_span 1 g with
                                          | Some (a, b) => Some (slice s a b)
                                          | None => None
                                          end)))
            ∧ default [] (match group_span 2 g with
                          | Some (a, b) => Some (slice s a b)
                          | None => None
                          end) ≠ []
            ∧ (ch "}" ∉ default [] (match group_span 2 g with
                                    | Some (a, b) => Some (slice s a b)
                                    | None => None
                                    end))
            ∧ occurs_at
                (BACKSLASH
                 :: default [] (match group_span 1 g with
                                | Some (a, b) => Some (slice s a b)
                                | None => None
                                end)
                    ++ lit "{"
                    ++ default [] (match group_span 2 g with
                                   | Some (a, b) => Some (slice s a b)
                                   | None => None
                                   end) ++ lit "}") s i = true) as Hk'.
  { intros a Hr Hm.
    destruct (Hk a Hr Hm) as (t & -> & Ht & Hb & H1 & H2 & Ho).
    cbn [group_span Nat.eqb from_option id]. rewrite H1, H2. by split_and!. }
  apply or_else_Some in H as [H|H]; [by apply Hk' in H|].
  apply or_else_Some in H as [H|H]; by apply Hk' in H.
Qed.

(** X9.  Every heading of the heading index stands in the document at
    its position as written: a backslash, one of the three heading
    commands, an open brace, the title and a close brace; the title is not
    empty and holds no close brace; and the positions strictly increase
    along the list. *)
Theorem find_sections_literal (tex : str) :
  StronglySorted (λ a b : heading, a.1.1 < b.1.1) (find_sections tex)
  ∧ Forall (λ h : heading,
              is_Some (rank_of h.1.2)
              ∧ h.2 ≠ []
              ∧ (ch "}" ∉ h.2)
              ∧ occurs_at (BACKSLASH :: h.1.2 ++ lit "{" ++ h.2 ++ lit "}")
                  tex h.1.1 = true)
      (find_sections tex).
Proof.
  unfold find_sections. split.
  - pose proof (re_finditer_sorted section_re tex) as H.
    induction H as [|m ms Hs IH Hm]; [constructor|]. cbn [map].
    constructor; [done|]. apply Forall_forall.
    intros h (m' & <- & Hm')%list_elem_of_In%in_map_iff. cbn [fst].
    rewrite Forall_forall in Hm. by apply Hm, list_elem_of_In.
  - apply Forall_forall.
    intros h (m & <- & Hm)%list_elem_of_In%in_map_iff. cbn [fst snd].
    apply list_elem_of_In, re_finditer_match_at in Hm.
    by apply section_match_inv.
Qed.

(** ** One macro call *)

Lemma rmatch_seq (s : str) (r1 r2 : regex) (i : nat) (g : groups) (k : cont) :
  rmatch s (RSeq r1 r2) i g k = rmatch s r1 i g (λ j g', rmatch s r2 j g' k).
Proof. done. Qed.

Lemma match_at_needs_backslash (tail : str) (rest : regex) (s : str) (i : nat) :
  s !! i ≠ Some BACKSLASH →
  match_at (RSeq (RLit (BACKSLASH :: tail)) rest) s i = None.
Proof.
  intros H. apply match_at_needs_prefix.
  destruct (occurs_at (BACKSLASH :: tail) s i) eqn:Ho; [|done].
  by apply occurs_at_head in Ho.
Qed.

(** The parts of a text made of three. *)
Lemma text_parts (a m z : str) :
  slice (a ++ m ++ z) 0 (length a) = a
  ∧ drop (length a + length m) (a ++ m ++ z) = z
  ∧ occurs_at m (a ++ m ++ z) (length a) = true.
Proof.
  split_and!.
  - unfold slice. rewrite drop_0, Nat.sub_0_r. apply take_app_length.
  - rewrite app_assoc, <- length_app. apply drop_app_length.
  - apply occurs_at_middle.
Qed.

Lemma lookup_before (c : char) (a z : str) (i : nat) :
  c ∉ a → i < length a → (a ++ z) !! i ≠ Some c.
Proof. intros H Hi. rewrite lookup_app_l by done. by apply lookup_not_elem. Qed.

Lemma lookup_after (c : char) (a z : str) (i : nat) :
  c ∉ z → length a ≤ i → (a ++ z) !! i ≠ Some c.
Proof. intros H Hi. rewrite lookup_app_r by done. by apply lookup_not_elem. Qed.

(** The substitution of a pattern that matches once, between two texts in
    which it cannot start. *)
Lemma re_sub_once (r : regex) (repl : rematch → str) (a m z : str)
    (gs : groups) :
  m ≠ [] →
  match_at r (a ++ m ++ z) (length a)
  = Some (MkMatch (length a) (length a + length m) gs) →
  (∀ i, i < length a → match_at r (a ++ m ++ z) i = None) →
  (∀ i, length a + length m ≤ i → match_at r (a ++ m ++ z) i = None) →
  re_sub r repl (a ++ m ++ z)
  = a ++ repl (MkMatch (length a) (length a + length m) gs) ++ z.
Proof.
  intros Hm Hmatch Hbefore Hafter. unfold re_sub.
  rewrite (re_finditer_single r _ (MkMatch (length a) (length a + length m) gs));
    cbn [m_start m_end]; [|done|done|done|].
  - cbn [stitch m_start m_end].
    destruct (text_parts a m z) as (-> & -> & _). done.
  - rewrite !length_app. destruct m; [done|]. simpl. lia.
Qed.

(** A table of one definition: when the text after one application no
    longer holds the name, the two passes that follow change nothing. *)
Lemma expand_macros_settled (text text' name template : str) (n : nat) :
  expand_one text (name, n, template) = text' → find name text' = None →
  expand_macros text [(name, n, template)] = text'.
Proof.
  intros H1 H2.
  change (expand_one
            (expand_one (expand_one text (name, n, template))
               (name, n, template)) (name, n, template) = text').
  rewrite H1. by rewrite !(expand_one_absent text' (name, n, template) H2).
Qed.

(** X10.  A definition of arity 1 applied to a call [\name{arg}], where
    the argument holds no close brace and the text around the call no
    backslash: one application replaces the call by the template with
    every [#1] replaced by the argument and keeps the text around it; and
    when the name does not stand in that result, the expander with this
    definition as its table returns it. *)
Theorem expand_one_call (pre name_tail arg post template : str) :
  BACKSLASH ∉ pre → BACKSLASH ∉ post → ch "}" ∉ arg →
  let text :=
    pre ++ ((BACKSLASH :: name_tail) ++ lit "{" ++ arg ++ lit "}") ++ post in
  let mac : macro := (BACKSLASH :: name_tail, 1, template) in
  let result := pre ++ replace (lit "#1") arg template ++ post in
  expand_one text mac = result
  ∧ (find (BACKSLASH :: name_tail) result = None →
     expand_macros text [mac] = result).
Proof.
  intros Hpre Hpost Harg. cbv zeta.
  match goal with |- ?A ∧ _ => assert A as Hone end;
    [|split; [done | by apply expand_macros_settled]].
  unfold expand_one. cbn [Nat.eqb].
  set (name := BACKSLASH :: name_tail).
  set (call := name ++ lit "{" ++ arg ++ lit "}").
  set (text := pre ++ call ++ post).
  set (a := length pre + length name).
  assert (length call = length name + 1 + length arg + 1) as Hlen.
  { unfold call. rewrite !length_app. simpl. lia. }
  assert (text = (pre ++ name) ++ (lit "{" ++ arg ++ lit "}") ++ post) as Ht1.
  { unfold text, call. by rewrite <- !app_assoc. }
  assert (text = (pre ++ name ++ lit "{") ++ arg ++ (lit "}" ++ post)) as Ht2.
  { unfold text, call. by rewrite <- !app_assoc. }
  assert (occurs_at (lit "{" ++ arg ++ lit "}") text a = true) as Hbr.
  { rewrite Ht1. unfold a. rewrite <- length_app. apply occurs_at_middle. }
  assert (slice text (a + 1) (a + 1 + length arg) = arg) as Hg.
  { rewrite Ht2.
    replace (a + 1) with (length (pre ++ name ++ lit "{"))
      by (unfold a; rewrite !length_app; simpl; lia).
    apply slice_middle. }
  rewrite (re_sub_once (arity1_re name) _ pre call post
             [(1, (a + 1, a + 1 + length arg))]).
  - unfold group_str, group. cbn [m_groups group_span Nat.eqb from_option id].
    fold text. by rewrite Hg.
  - done.
  - fold text. unfold match_at, arity1_re. cbn [RCat].
    rewrite rmatch_seq, rmatch_lit.
    destruct (text_parts pre call post) as (_ & _ & Ho). fold text in Ho.
    assert (occurs_at name text (length pre) = true) as ->.
    { unfold call in Ho. rewrite occurs_at_app in Ho.
      by apply andb_true_iff in Ho as [Ho _]. }
    fold a. unfold RStar.
    rewrite (braced_match 1 0 text arg a []
               (λ j g, Some (j, g))
               (a + 1 + length arg + 1, [(1, (a + 1, a + 1 + length arg))]));
      [|done|done|lia|done].
    cbv beta iota. do 2 f_equal. unfold a. rewrite Hlen. lia.
  - intros i Hi. apply match_at_needs_backslash. by apply lookup_before.
  - intros i Hi. apply match_at_needs_backslash.
    rewrite app_assoc. apply lookup_after; [done|]. by rewrite length_app.
Qed.

Lemma expand_one_call_witness :
  (BACKSLASH ∉ lit "so ") ∧ (BACKSLASH ∉ lit " is small")
  ∧ (ch "}" ∉ lit "x")
  ∧ expand_one (lit "so \norm{x} is small")
      (lit "\norm", 1, lit "\lVert #1 \rVert")
    = lit "so \lVert x \rVert is small"
  ∧ expand_macros (lit "so \norm{x} is small")
      [(lit "\norm", 1, lit "\lVert #1 \rVert")]
    = lit "so \lVert x \rVert is small".
Proof.
  assert (BACKSLASH ∉ lit "so ") as H1 by (by apply (bool_decide_unpack _)).
  assert (BACKSLASH ∉ lit " is small") as H2
    by (by apply (bool_decide_unpack _)).
  assert (ch "}" ∉ lit "x") as H3 by (by apply (bool_decide_unpack _)).
  destruct (expand_one_call (lit "so ") (lit "norm") (lit "x")
              (lit " is small") (lit "\lVert #1 \rVert") H1 H2 H3)
    as [Hone Hall].
  split_and!; [done | done | done | exact Hone |].
  apply Hall. vm_compute. reflexivity.
Defined.

(** ** One symbol *)

(** X11.  A definition of arity 0 applied to a text with one backslash,
    the one of the name: one application replaces the name by the template
    when the text ends after it or goes on with something other than an
    ASCII letter, and leaves the text as it is when a letter follows (the
    name is then the start of a longer command name); and when no letter
    follows and the name does not stand in the result, the expander with
    this definition as its table returns that result. *)
Theorem expand_one_symbol (pre name_tail post template : str) :
  BACKSLASH ∉ pre → BACKSLASH ∉ name_tail → BACKSLASH ∉ post →
  let text := pre ++ (BACKSLASH :: name_tail) ++ post in
  let mac : macro := (BACKSLASH :: name_tail, 0, template) in
  expand_one text mac
  = (if letter_follows post then text else pre ++ template ++ post)
  ∧ (letter_follows post = false →
     find (BACKSLASH :: name_tail) (pre ++ template ++ post) = None →
     expand_macros text [mac] = pre ++ template ++ post).
Proof.
  intros Hpre Htail Hpost. cbv zeta.
  match goal with |- ?A ∧ _ => assert A as Hone end;
    [|split; [done|]; intros Hl Hf; apply expand_macros_settled; [|done];
      by rewrite Hone, Hl].
  unfold expand_one. cbn [Nat.eqb].
  set (name := BACKSLASH :: name_tail).
  set (text := pre ++ name ++ post).
  assert (∀ i, i < length pre → match_at (arity0_re name) text i = None)
    as Hbefore.
  { intros i Hi. apply match_at_needs_backslash. by apply lookup_before. }
  assert (∀ i, length pre < i → match_at (arity0_re name) text i = None)
    as Hafter.
  { intros i Hi. apply match_at_needs_backslash. unfold text, name.
    replace (pre ++ (BACKSLASH :: name_tail) ++ post)
      with ((pre ++ [BACKSLASH]) ++ name_tail ++ post)
      by (by rewrite <- app_assoc).
    apply lookup_after.
    - rewrite elem_of_app. by intros [?|?].
    - rewrite length_app. simpl. lia. }
  assert (match_at (arity0_re name) text (length pre)
          = if letter_follows post then None
            else Some (MkMatch (length pre) (length pre + length name) []))
    as Hhere.
  { unfold match_at, arity0_re. rewrite rmatch_seq, rmatch_lit.
    unfold text at 1. rewrite occurs_at_middle. cbn [rmatch].
    assert (text !! (length pre + length name) = post !! 0) as ->.
    { unfold text. rewrite app_assoc, <- length_app.
      rewrite lookup_app_r by done. by rewrite Nat.sub_diag. }
    destruct post as [|c post']; cbn [lookup list_lookup letter_follows];
      [done|].
    by destruct (is_alpha c). }
  destruct (letter_follows post).
  - apply re_sub_no_match. intros j.
    destruct (Nat.lt_trichotomy j (length pre)) as [Hj|[->|Hj]]; auto.
  - rewrite (re_sub_once (arity0_re name) _ pre name post []); [done..| |].
    + auto.
    + intros i Hi. apply Hafter. unfold name in Hi. simpl in Hi. lia.
Qed.

Lemma expand_one_symbol_witness :
  (BACKSLASH ∉ lit "x in ") ∧ (BACKSLASH ∉ lit "R") ∧ (BACKSLASH ∉ lit "^2")
  ∧ expand_one (lit "x in \R^2") (lit "\R", 0, lit "\mathbb{R}")
    = lit "x in \mathbb{R}^2"
  ∧ expand_macros (lit "x in \R^2") [(lit "\R", 0, lit "\mathbb{R}")]
    = lit "x in \mathbb{R}^2".
Proof.
  assert (BACKSLASH ∉ lit "x in ") as H1 by (by apply (bool_decide_unpack _)).
  assert (BACKSLASH ∉ lit "R") as H2 by (by apply (bool_decide_unpack _)).
  assert (BACKSLASH ∉ lit "^2") as H3 by (by apply (bool_decide_unpack _)).
  destruct (expand_one_symbol (lit "x in ") (lit "R") (lit "^2")
              (lit "\mathbb{R}") H1 H2 H3) as [Hone Hall].
  split_and!; [done | done | done | exact Hone |].
  apply Hall; vm_compute; reflexivity.
Defined.

(** ** One call with two arguments *)

(** A group of characters other than [c], as long as it can be, before a
    [c]. *)
Lemma group_until_match (n lo : nat) (s t : str) (c : char) (i : nat)
    (g : groups) (k : cont) (x : nat * groups) :
  occurs_at t s i = true → c ∉ t → lo ≤ length t →
  s !! (i + length t) = Some c →
  k (i + length t) ((n, (i, i + length t)) :: g) = Some x →
  rmatch s (RGroup n (RRepeat true lo None (RNot c))) i g k = Some x.
Proof.
  intros Ho Ht Hlo Hc Hk. cbn [rmatch RNot]. unfold RNot.
  pose proof (lookup_lt_Some _ _ _ Hc) as Hlen.
  apply (rmatch_class_greedy s _ lo _ g x i (i + length t));
    [lia | lia | | | done].
  - intros q Hq.
    destruct (lookup_lt_is_Some_2 t (q - i)) as [d Hd]; [lia|].
    exists d. split.
    + pose proof (occurs_at_lookup _ _ i (q - i) d Ho Hd) as H.
      by replace (i + (q - i)) with q in H by lia.
    + destruct (char_eqb d c) eqn:E; [|done].
      apply char_eqb_eq in E as ->. exfalso. apply Ht.
      by eapply list_elem_of_lookup_2.
  - intros d Hd. rewrite Hc in Hd. injection Hd as <-.
    by rewrite char_eqb_refl.
Qed.

(** X12.  A definition of arity 2 applied to a call
    [\name{arg1}{arg2}], where the arguments hold no close brace and the
    text around the call no backslash: one application replaces the call
    by the template in which first every [#1] is replaced by the first
    argument and then every [#2] by the second, and keeps the text around
    it; and when the name does not stand in that result, the expander with
    this definition as its table returns it. *)
Theorem expand_one_call2 (pre name_tail arg1 arg2 post template : str) :
  BACKSLASH ∉ pre → BACKSLASH ∉ post → ch "}" ∉ arg1 → ch "}" ∉ arg2 →
  let text :=
    pre ++ ((BACKSLASH :: name_tail) ++ lit "{" ++ arg1 ++ lit "}{"
              ++ arg2 ++ lit "}") ++ post in
  let mac : macro := (BACKSLASH :: name_tail, 2, template) in
  let result :=
    pre ++ replace (lit "#2") arg2 (replace (lit "#1") arg1 template)
    ++ post in
  expand_one text mac = result
  ∧ (find (BACKSLASH :: name_tail) result = None →
     expand_macros text [mac] = result).
Proof.
  intros Hpre Hpost Harg1 Harg2. cbv zeta.
  match goal with |- ?A ∧ _ => assert A as Hone end;
    [|split; [done | by apply expand_macros_settled]].
  unfold expand_one. cbn [Nat.eqb].
  set (name := BACKSLASH :: name_tail).
  set (call := name ++ lit "{" ++ arg1 ++ lit "}{" ++ arg2 ++ lit "}").
  set (text := pre ++ call ++ post).
  set (a := length pre + length name).
  set (b := a + 1 + length arg1 + 2).
  assert (length call = length name + 1 + length arg1 + 2 + length arg2 + 1)
    as Hlen.
  { unfold call. rewrite !length_app. simpl. lia. }
  destruct (text_parts pre call post) as (_ & _ & Ho). fold text in Ho.
  unfold call in Ho. rewrite !occurs_at_app in Ho.
  change (length (lit "{")) with 1 in Ho.
  change (length (lit "}{")) with 2 in Ho.
  fold a in Ho. fold b in Ho.
  apply andb_true_iff in Ho as [Hname Ho].
  apply andb_true_iff in Ho as [Hopen Ho].
  apply andb_true_iff in Ho as [Harg1o Ho].
  apply andb_true_iff in Ho as [Hmid Ho].
  apply andb_true_iff in Ho as [Harg2o Hclose].
  assert (slice text (a + 1) (a + 1 + length arg1) = arg1) as Hg1.
  { unfold text, call.
    replace (pre ++ (name ++ lit "{" ++ arg1 ++ lit "}{" ++ arg2 ++ lit "}")
             ++ post)
      with ((pre ++ name ++ lit "{") ++ arg1
            ++ (lit "}{" ++ arg2 ++ lit "}" ++ post))
      by (by rewrite <- !app_assoc).
    replace (a + 1) with (length (pre ++ name ++ lit "{"))
      by (unfold a; rewrite !length_app; simpl; lia).
    apply slice_middle. }
  assert (slice text b (b + length arg2) = arg2) as Hg2.
  { unfold text, call.
    replace (pre ++ (name ++ lit "{" ++ arg1 ++ lit "}{" ++ arg2 ++ lit "}")
             ++ post)
      with ((pre ++ name ++ lit "{" ++ arg1 ++ lit "}{") ++ arg2
            ++ (lit "}" ++ post))
      by (by rewrite <- !app_assoc).
    replace b with (length (pre ++ name ++ lit "{" ++ arg1 ++ lit "}{"))
      by (unfold b, a; rewrite !length_app; simpl; lia).
    apply slice_middle. }
  rewrite (re_sub_once (arity2_re name) _ pre call post
             [(2, (b, b + length arg2)); (1, (a + 1, a + 1 + length arg1))]).
  - unfold group_str, group. cbn [m_groups group_span Nat.eqb from_option id].
    fold text. by rewrite Hg1, Hg2.
  - done.
  - fold text. unfold match_at, arity2_re. cbn [RCat]. unfold RStar.
    rewrite rmatch_seq, rmatch_lit, Hname. fold a.
    rewrite rmatch_seq, rmatch_lit, Hopen. change (length (lit "{")) with 1.
    rewrite rmatch_seq.
    rewrite (group_until_match 1 0 text arg1 (ch "}") (a + 1) []
               _ (b + length arg2 + 1,
                  [(2, (b, b + length arg2));
                   (1, (a + 1, a + 1 + length arg1))])).
    + cbv beta iota. do 2 f_equal. unfold b, a. rewrite Hlen. lia.
    + done.
    + done.
    + lia.
    + by apply occurs_at_head in Hmid.
    + rewrite rmatch_seq, rmatch_lit, Hmid. change (length (lit "}{")) with 2.
      fold b. rewrite rmatch_seq.
      apply (group_until_match 2 0 text arg2 (ch "}") b); [done|done|lia| |].
      * by apply occurs_at_head in Hclose.
      * rewrite rmatch_lit, Hclose. by change (length (lit "}")) with 1.
  - intros i Hi. apply match_at_needs_backslash. by apply lookup_before.
  - intros i Hi. apply match_at_needs_backslash.
    rewrite app_assoc. apply lookup_after; [done|]. by rewrite length_app.
Qed.

Lemma expand_one_call2_witness :
  (BACKSLASH ∉ lit "so ") ∧ (BACKSLASH ∉ lit " holds")
  ∧ (ch "}" ∉ lit "u") ∧ (ch "}" ∉ lit "v")
  ∧ expand_one (lit "so \inner{u}{v} holds")
      (lit "\inner", 2, lit "\langle #1, #2 \rangle")
    = lit "so \langle u, v \rangle holds"
  ∧ expand_macros (lit "so \inner{u}{v} holds")
      [(lit "\inner", 2, lit "\langle #1, #2 \rangle")]
    = lit "so \langle u, v \rangle holds".
Proof.
  assert (BACKSLASH ∉ lit "so ") as H1 by (by apply (bool_decide_unpack _)).
  assert (BACKSLASH ∉ lit " holds") as H2
    by (by apply (bool_decide_unpack _)).
  assert (ch "}" ∉ lit "u") as H3 by (by apply (bool_decide_unpack _)).
  assert (ch "}" ∉ lit "v") as H4 by (by apply (bool_decide_unpack _)).
  destruct (expand_one_call2 (lit "so ") (lit "inner") (lit "u") (lit "v")
              (lit " holds") (lit "\langle #1, #2 \rangle") H1 H2 H3 H4)
    as [Hone Hall].
  split_and!; [done | done | done | done | exact Hone |].
  apply Hall. vm_compute. reflexivity.
Defined.

(** ** The title of a block *)

Lemma drop_while_run (f : char → bool) (s : str) (j : nat) (c : char) :
  class_run f s 0 j → s !! j = Some c → f c = false →
  drop_while f s = drop j s.
Proof.
  revert s. induction j as [|j IH]; intros s Hrun Hc Hf.
  - destruct s as [|d s]; [done|]. injection Hc as ->.
    cbn [drop_while]. by rewrite Hf.
  - destruct s as [|d s]; [done|].
    destruct (Hrun 0) as (d' & Hd & Hfd); [lia|]. injection Hd as <-.
    cbn [drop_while drop]. rewrite Hfd. apply IH; [|done|done].
    intros q Hq. destruct (Hrun (S q)) as (e & He & Hfe); [lia|].
    by exists e.
Qed.

(** X13.  A body that starts, after white space, with a non-empty text in
    round brackets has that text, with the white space at its ends removed,
    as its title, and the rest of the body, stripped as well, as its
    text. *)
Theorem extract_title_from_body_titled (ws title rest : str) :
  Forall (λ c, is_space c = true) ws → title ≠ [] → ch ")" ∉ title →
  extract_title_from_body (ws ++ lit "(" ++ title ++ lit ")" ++ rest)
  = (Some (strip title), strip rest).
Proof.
  intros Hws Hne Htitle. unfold extract_title_from_body.
  set (body := ws ++ lit "(" ++ title ++ lit ")" ++ rest).
  set (a := length ws).
  assert (body = (ws ++ lit "(") ++ title ++ (lit ")" ++ rest)) as Hb.
  { unfold body. by rewrite <- !app_assoc. }
  assert (length (ws ++ lit "(") = a + 1) as Hla
    by (by rewrite length_app).
  assert (body !! a = Some (ch "(")) as Hopen.
  { unfold body, a. rewrite lookup_app_r by done. by rewrite Nat.sub_diag. }
  assert (occurs_at title body (a + 1) = true) as Ho.
  { rewrite Hb, <- Hla. apply occurs_at_middle. }
  assert (body !! (a + 1 + length title) = Some (ch ")")) as Hclose.
  { rewrite Hb, app_assoc, <- Hla, <- length_app.
    rewrite lookup_app_r by done. by rewrite Nat.sub_diag. }
  assert (match_at title_re body 0
          = Some (MkMatch 0 (a + 1 + length title + 1)
                    [(1, (a + 1, a + 1 + length title))])) as ->.
  { unfold match_at, title_re. cbn [RCat]. unfold RStar, RPlus.
    rewrite rmatch_seq.
    rewrite (rmatch_class_greedy body is_space 0 _ []
               (a + 1 + length title + 1,
                [(1, (a + 1, a + 1 + length title))]) 0 a); [done|lia| | | |].
    - apply lookup_lt_Some in Hopen. lia.
    - exact (slice_class_run is_space [] ws _ Hws).
    - intros c Hc. rewrite Hopen in Hc. by injection Hc as <-.
    - rewrite rmatch_seq, rmatch_lit.
      assert (occurs_at (lit "(") body a = true) as ->
        by (by apply occurs_at_single).
      change (length (lit "(")) with 1. rewrite rmatch_seq.
      apply (group_until_match 1 1 body title (ch ")") (a + 1));
        [done | done | | done |].
      + destruct title; [done|]. simpl. lia.
      + rewrite rmatch_lit.
        assert (occurs_at (lit ")") body (a + 1 + length title) = true) as ->
          by (by apply occurs_at_single).
        by change (length (lit ")")) with 1. }
  cbn [m_end]. unfold group_str, group.
  cbn [m_groups group_span Nat.eqb from_option id].
  assert (slice body (a + 1) (a + 1 + length title) = title) as ->.
  { rewrite Hb, <- Hla. apply slice_middle. }
  assert (drop (a + 1 + length title + 1) body = rest) as ->; [|done].
  unfold body.
  replace (ws ++ lit "(" ++ title ++ lit ")" ++ rest)
    with ((ws ++ lit "(" ++ title ++ lit ")") ++ rest)
    by (by rewrite <- !app_assoc).
  replace (a + 1 + length title + 1)
    with (length (ws ++ lit "(" ++ title ++ lit ")"))
    by (unfold a; rewrite !length_app; simpl; lia).
  apply drop_app_length.
Qed.

Lemma extract_title_from_body_titled_witness :
  Forall (λ c, is_space c = true) [NL; ch " "]
  ∧ lit " Cauchy " ≠ [] ∧ (ch ")" ∉ lit " Cauchy ")
  ∧ extract_title_from_body
      (NL :: lit " ( Cauchy ) Every bounded sequence. ")
    = (Some (lit "Cauchy"), lit "Every bounded sequence.").
Proof.
  assert (Forall (λ c, is_space c = true) [NL; ch " "]) as H1
    by (by repeat constructor).
  assert (lit " Cauchy " ≠ []) as H2 by done.
  assert (ch ")" ∉ lit " Cauchy ") as H3 by (by apply (bool_decide_unpack _)).
  split_and!; [done.. |].
  exact (extract_title_from_body_titled [NL; ch " "] (lit " Cauchy ")
           (lit " Every bounded sequence. ") H1 H2 H3).
Defined.

(** X14.  A body whose first character after white space is not an open
    round bracket has no title and is returned as it is, white space
    included. *)
Theorem extract_title_from_body_untitled (body : str) :
  head (drop_while is_space body) ≠ Some (ch "(") →
  extract_title_from_body body = (None, body).
Proof.
  intros H. unfold extract_title_from_body.
  destruct (match_at title_re body 0) as [m|] eqn:Hm; [|done].
  exfalso. apply H. unfold match_at in Hm.
  destruct (rmatch body title_re 0 [] _) as [[j g]|] eqn:Hr; [|done].
  unfold title_re in Hr. cbn [RCat] in Hr. unfold RStar in Hr.
  rewrite rmatch_seq in Hr.
  apply rmatch_class_inv in Hr as (q & _ & Hrun & Hr).
  rewrite rmatch_seq, rmatch_lit in Hr.
  destruct (occurs_at (lit "(") body q) eqn:Ho; [|done].
  apply occurs_at_head in Ho.
  rewrite (drop_while_run is_space body q (ch "(") Hrun Ho eq_refl).
  by rewrite head_lookup, lookup_drop, Nat.add_0_r.
Qed.

Lemma extract_title_from_body_untitled_witness :
  head (drop_while is_space (lit " Let (x) be given.")) ≠ Some (ch "(")
  ∧ extract_title_from_body (lit " Let (x) be given.")
    = (None, lit " Let (x) be given.").
Proof.
  assert (head (drop_while is_space (lit " Let (x) be given."))
          ≠ Some (ch "(")) as H by (vm_compute; congruence).
  split; [done|].
  exact (extract_title_from_body_untitled (lit " Let (x) be given.") H).
Defined.

(** ** The names and arities of the macro table *)

Lemma digit_value_le (c : char) (v : nat) : digit_value c = Some v → v ≤ 9.
Proof.
  unfold digit_value.
  destruct (filter _ digit_zeros) as [|z zs] eqn:Hz; [done|].
  intros [= <-].
  assert (z ∈ filter (λ z, (z <= c)%N ∧ (c < z + 10)%N) digit_zeros) as Hin
    by (rewrite Hz; left).
  apply list_elem_of_filter in Hin as [[H1 H2] _]. lia.
Qed.

Lemma int_of_le (d : str) : int_of d ≤ 9.
Proof.
  destruct d as [|c d]; cbn [int_of]; [lia|].
  destruct (digit_value c) as [v|] eqn:Hv; cbn [default from_option id]; [|lia].
  by apply digit_value_le in Hv.
Qed.

(** A pattern without groups in front of another leaves the groups to the
    other. *)
Lemma rmatch_skip (r1 r2 : regex) (s : str) (i : nat) (g : groups) (k : cont)
    (x : nat * groups) :
  group_ids r1 = [] →
  rmatch s (RSeq r1 r2) i g k = Some x →
  ∃ j, i ≤ j ∧ rmatch s r2 j g k = Some x.
Proof.
  intros Hids. rewrite rmatch_seq.
  intros (j & new & Hk & Hj & _ & Hnew)%rmatch_inv. rewrite Hids in Hnew.
  destruct new as [|e new]; [by exists j|].
  apply Forall_cons in Hnew as [Hnew _]. by apply elem_of_nil in Hnew.
Qed.

Lemma slice_cons (s : str) (i j : nat) (c : char) :
  s !! i = Some c → i < j → slice s i j = c :: slice s (S i) j.
Proof.
  intros Hc Hij. unfold slice. rewrite (drop_S _ _ _ Hc).
  replace (j - i) with (S (j - S i)) by lia. done.
Qed.

(** A group of one or more ASCII letters, whose number the rest of the
    pattern does not use: its span at the end of the match, and its
    text. *)
Lemma letters_group_inv (n : nat) (rest : regex) (s : str) (i : nat)
    (g : groups) (e : nat) (gs : groups) :
  n ∉ group_ids rest →
  rmatch s (RSeq (RGroup n (RPlus (RClass is_alpha))) rest) i g
    (λ j g', Some (j, g')) = Some (e, gs) →
  ∃ j, group_span n gs = Some (i, j)
       ∧ slice s i j ≠ []
       ∧ Forall (λ c, is_alpha c = true) (slice s i j).
Proof.
  intros Hn. rewrite rmatch_seq. unfold RPlus.
  change (rmatch s (RGroup n (RRepeat true 1 None (RClass is_alpha))) i g
            (λ j g', rmatch s rest j g' (λ j0 g'0, Some (j0, g'0))))
    with (rmatch s (RRepeat true 1 None (RClass is_alpha)) i g
            (λ j g', rmatch s rest j ((n, (i, j)) :: g')
                       (λ j0 g'0, Some (j0, g'0)))).
  intros (j & Hj & Hrun & Hk)%rmatch_class_inv.
  apply rmatch_inv in Hk as (j' & new & [= <- <-] & _ & _ & Hnew).
  exists j. split_and!.
  - rewrite group_span_app.
    + cbn [group_span]. by rewrite Nat.eqb_refl.
    + eapply Forall_impl; [exact Hnew|]. intros x Hx Heq. apply Hn.
      by rewrite <- Heq.
  - assert (i < length s) as Hi.
    { destruct (Hrun i) as (c & Hc%lookup_lt_Some & _); [lia | done]. }
    assert (j ≤ length s)
      by (apply (class_run_in_range is_alpha s i j); [lia | lia | done]).
    intros Hnil. apply (f_equal length) in Hnil.
    rewrite slice_length in Hnil by lia. simpl in Hnil. lia.
  - by apply class_run_slice.
Qed.

(** The same for a group of a backslash and one or more ASCII letters. *)
Lemma command_group_inv (n : nat) (rest : regex) (s : str) (i : nat)
    (g : groups) (e : nat) (gs : groups) :
  n ∉ group_ids rest →
  rmatch s
    (RSeq (RGroup n (RSeq (RChar BACKSLASH) (RPlus (RClass is_alpha)))) rest)
    i g (λ j g', Some (j, g')) = Some (e, gs) →
  ∃ j letters, group_span n gs = Some (i, j)
       ∧ slice s i j = BACKSLASH :: letters
       ∧ letters ≠ []
       ∧ Forall (λ c, is_alpha c = true) letters.
Proof.
  intros Hn. rewrite rmatch_seq. unfold RPlus, RChar.
  change (rmatch s
            (RGroup n (RSeq (RClass (char_eqb BACKSLASH))
                         (RRepeat true 1 None (RClass is_alpha)))) i g
            (λ j g', rmatch s rest j g' (λ j0 g'0, Some (j0, g'0))))
    with (match s !! i with
          | Some c =>
              if char_eqb BACKSLASH c
              then rmatch s (RRepeat true 1 None (RClass is_alpha)) (S i) g
                     (λ j g', rmatch s rest j ((n, (i, j)) :: g')
                                (λ j0 g'0, Some (j0, g'0)))
              else None
          | None => None
          end).
  destruct (s !! i) as [c|] eqn:Hi; [|done].
  destruct (char_eqb BACKSLASH c) eqn:Hc; [|done].
  apply char_eqb_eq in Hc as <-.
  intros (j & Hj & Hrun & Hk)%rmatch_class_inv.
  apply rmatch_inv in Hk as (j' & new & [= <- <-] & _ & _ & Hnew).
  exists j, (slice s (S i) j). split_and!.
  - rewrite group_span_app.
    + cbn [group_span]. by rewrite Nat.eqb_refl.
    + eapply Forall_impl; [exact Hnew|]. intros x Hx Heq. apply Hn.
      by rewrite <- Heq.
  - apply slice_cons; [done | lia].
  - assert (S i < length s) as Hlt.
    { destruct (Hrun (S i)) as (c & Hc%lookup_lt_Some & _); [lia | done]. }
    assert (j ≤ length s)
      by (apply (class_run_in_range is_alpha s (S i) j); [lia | lia | done]).
    intros Hnil. apply (f_equal length) in Hnil.
    rewrite slice_length in Hnil by lia. simpl in Hnil. lia.
  - by apply class_run_slice.
Qed.

Lemma newcommand_name (s : str) (i : nat) (m : rematch) :
  match_at newcommand_re s i = Some m → control_word (group_str s m 1).
Proof.
  unfold match_at.
  destruct (rmatch s newcommand_re i [] _) as [[e gs]|] eqn:H; [|done].
  intros [= <-]. unfold group_str, group. cbn [m_groups].
  unfold newcommand_re in H. cbn [RCat] in H.
  apply rmatch_skip in H as (j1 & _ & H); [|done].
  apply rmatch_skip in H as (j2 & _ & H); [|done].
  apply rmatch_skip in H as (j3 & _ & H); [|done].
  apply command_group_inv in H as (j & letters & -> & Hs & Hne & Hl).
  - cbn [default from_option id]. rewrite Hs. by exists letters.
  - by apply (bool_decide_unpack _).
Qed.

Lemma mathoperator_name (s : str) (i : nat) (m : rematch) :
  match_at mathoperator_re s i = Some m → control_word (group_str s m 1).
Proof.
  unfold match_at.
  destruct (rmatch s mathoperator_re i [] _) as [[e gs]|] eqn:H; [|done].
  intros [= <-]. unfold group_str, group. cbn [m_groups].
  unfold mathoperator_re in H. cbn [RCat] in H.
  apply rmatch_skip in H as (j1 & _ & H); [|done].
  apply command_group_inv in H as (j & letters & -> & Hs & Hne & Hl).
  - cbn [default from_option id]. rewrite Hs. by exists letters.
  - by apply (bool_decide_unpack _).
Qed.

Lemma documentcommand_name (s : str) (i : nat) (m : rematch) :
  match_at documentcommand_re s i = Some m →
  control_word (BACKSLASH :: group_str s m 1).
Proof.
  unfold match_at.
  destruct (rmatch s documentcommand_re i [] _) as [[e gs]|] eqn:H; [|done].
  intros [= <-]. unfold group_str, group. cbn [m_groups].
  unfold documentcommand_re in H. cbn [RCat] in H.
  apply rmatch_skip in H as (j1 & _ & H); [|done].
  apply letters_group_inv in H as (j & -> & Hne & Hl).
  - cbn [default from_option id]. by eexists.
  - by apply (bool_decide_unpack _).
Qed.

Lemma paireddelimiter_name (s : str) (i : nat) (m : rematch) :
  match_at paireddelimiter_re s i = Some m →
  control_word (BACKSLASH :: group_str s m 1).
Proof.
  unfold match_at.
  destruct (rmatch s paireddelimiter_re i [] _) as [[e gs]|] eqn:H; [|done].
  intros [= <-]. unfold group_str, group. cbn [m_groups].
  unfold paireddelimiter_re in H. cbn [RCat] in H.
  apply rmatch_skip in H as (j1 & _ & H); [|done].
  apply letters_group_inv in H as (j & -> & Hne & Hl).
  - cbn [default from_option id]. by eexists.
  - by apply (bool_decide_unpack _).
Qed.

(** X15.  Every entry of the macro table has as its name a backslash
    followed by one or more ASCII letters, and an arity of at most 9,
    whatever the source text. *)
Theorem parse_macros_entries (tex_source : str) :
  Forall (λ mac : macro, control_word mac.1.1 ∧ mac.1.2 ≤ 9)
    (parse_macros tex_source).
Proof.
  unfold parse_macros. rewrite !Forall_app. split_and!; apply Forall_forall;
    intros mac (m & <- & Hm)%list_elem_of_In%in_map_iff;
    apply list_elem_of_In, re_finditer_match_at in Hm;
    unfold newcommand_entry, mathoperator_entry, documentcommand_entry,
      paireddelimiter_entry; cbv zeta; cbn [fst snd].
  - split; [by eapply newcommand_name|].
    destruct (group tex_source m 2) as [d|]; [|lia].
    destruct (bool_decide (d = [])); [lia | apply int_of_le].
  - split; [by eapply mathoperator_name | lia].
  - split; [by eapply documentcommand_name | lia].
  - split; [by eapply paireddelimiter_name | lia].
Qed.

(** ** Prose without markup *)

Lemma replace_absent (c : char) (m new s : str) :
  c ∉ s → replace (c :: m) new s = s.
Proof.
  unfold replace. induction s as [|d s IH]; [done|]. intros H.
  apply not_elem_of_cons in H as [Hd Hs].
  cbn [replace_go starts_with].
  destruct (char_eqb c d) eqn:E; [by apply char_eqb_eq in E|].
  cbn [andb]. by rewrite IH.
Qed.

Lemma re_sub_needs_char (c : char) (m : str) (rest : regex)
    (repl : rematch → str) (s : str) :
  head m = Some c → c ∉ s → re_sub (RSeq (RLit m) rest) repl s = s.
Proof.
  intros Hm Hc. apply re_sub_no_match. intros j.
  apply match_at_needs_prefix.
  destruct m as [|d m]; [done|]. injection Hm as ->.
  destruct (occurs_at (c :: m) s j) eqn:Ho; [|done].
  apply occurs_at_head in Ho. by apply lookup_not_elem in Ho.
Qed.

Lemma match_at_needs_char (c : char) (rest : regex) (s : str) (i : nat) :
  s !! i ≠ Some c → match_at (RSeq (RChar c) rest) s i = None.
Proof.
  intros H. unfold match_at, RChar. cbn [rmatch].
  destruct (s !! i) as [d|] eqn:Hd; [|done].
  destruct (char_eqb c d) eqn:E; [|done].
  apply char_eqb_eq in E as ->. done.
Qed.

(** A repeat of one turn or more needs a first turn. *)
Lemma repeat_needs_first (body : matcher) (greedy : bool) (lo : nat)
    (hi : option nat) (k : cont) (fuel i : nat) (g : groups) :
  0 < lo → (∀ k', body i g k' = None) →
  repeat_loop body greedy lo hi k fuel 0 i g = None.
Proof.
  intros Hlo Hbody. destruct fuel as [|fuel]; [done|].
  cbn [repeat_loop]. cbv zeta. rewrite Hbody.
  destruct (Nat.leb_spec lo 0) as [|_]; [lia|].
  by destruct (under 0 hi), greedy.
Qed.

Lemma br_run_needs_bracket (greedy : bool) (lo : nat) (hi : option nat)
    (s : str) (i : nat) (g : groups) (k : cont) :
  0 < lo → s !! i ≠ Some (ch "<") →
  rmatch s (RRepeat greedy lo hi (RGroup 1 (RLit BR))) i g k = None.
Proof.
  intros Hlo Hi. cbn [rmatch]. apply repeat_needs_first; [done|].
  intros k'. rewrite rmatch_lit.
  destruct (occurs_at BR s i) eqn:Ho; [|done].
  by apply occurs_at_head in Ho.
Qed.

Lemma rmatch_bol (s : str) (ml : bool) (r : regex) (i : nat) (g : groups)
    (k : cont) :
  rmatch s (RSeq (RBol ml) r) i g k
  = if (i =? 0) || ml && bool_decide (s !! (i - 1) = Some NL)
    then rmatch s r i g k else None.
Proof. done. Qed.

Lemma normalize_whitespace_prose (text : str) :
  ch "<" ∉ text → NL ∉ text →
  normalize_whitespace text = strip (strip_set (mem_char BR) (strip text)).
Proof.
  intros Hlt Hnl. unfold normalize_whitespace. cbv zeta.
  rewrite split_on_plain by done. cbn [map join].
  assert (Forall (λ c, c ≠ ch "<") (strip text)) as H1.
  { apply strip_set_Forall, Forall_forall. by intros c Hc ->. }
  assert (Forall (λ c, c ≠ ch "<") (strip_set (mem_char BR) (strip text)))
    as H2 by (by apply strip_set_Forall).
  assert (∀ s i, Forall (λ c, c ≠ ch "<") s → s !! i ≠ Some (ch "<")) as Hno.
  { intros s i Hs Hi. rewrite Forall_forall in Hs.
    by apply (Hs _ (list_elem_of_lookup_2 _ _ _ Hi)). }
  rewrite (re_sub_no_match br3_re).
  2:{ intros j. unfold match_at, br3_re.
      by rewrite br_run_needs_bracket by (lia || by apply Hno). }
  rewrite (re_sub_no_match leading_br_re).
  2:{ intros j. unfold match_at, leading_br_re, RPlus. rewrite rmatch_bol.
      rewrite br_run_needs_bracket by (lia || by apply Hno).
      by destruct (_ || _). }
  rewrite (re_sub_no_match trailing_br_re); [done|].
  intros j. unfold match_at, trailing_br_re, RPlus. rewrite rmatch_seq.
  by rewrite br_run_needs_bracket by (lia || by apply Hno).
Qed.

(** X16.  Prose without markup: a text of one line that holds no
    backslash, no dollar sign and no [<] goes through the converter
    untouched but for its ends, where first the white space, then the
    characters [<], [b], [r] and [>], then white space again are
    removed. *)
Theorem latex_to_anki_mathjax_prose (text : str) :
  BACKSLASH ∉ text → ch "$" ∉ text → ch "<" ∉ text → NL ∉ text →
  latex_to_anki_mathjax text
  = strip (strip_set (mem_char BR) (strip text)).
Proof.
  intros Hb Hd Hlt Hnl. unfold latex_to_anki_mathjax. cbv zeta.
  assert (strip_commands text = text) as ->.
  { unfold strip_commands.
    change (lit "\qed") with (BACKSLASH :: lit "qed").
    change (lit "\par") with (BACKSLASH :: lit "par").
    rewrite (replace_absent BACKSLASH (lit "qed") [] text Hb).
    by rewrite (replace_absent BACKSLASH (lit "par") [] text Hb). }
  assert (convert_align text = text) as ->
    by (by apply (re_sub_needs_char BACKSLASH)).
  assert (convert_equation text = text) as ->
    by (by apply (re_sub_needs_char BACKSLASH)).
  assert (convert_lists text = text) as ->.
  { unfold convert_lists. cbv zeta.
    assert (re_sub enumerate_re (convert_enumerate text) text = text) as ->
      by (by apply (re_sub_needs_char BACKSLASH)).
    by apply (re_sub_needs_char BACKSLASH). }
  assert (convert_display_math text = text) as ->.
  { apply re_sub_no_match. intros j. apply display_math_needs_dollar.
    by apply lookup_not_elem. }
  assert (convert_inline_math text = text) as ->.
  { apply re_sub_no_match. intros j. apply inline_math_needs_dollar.
    by apply lookup_not_elem. }
  assert (∀ name tag, convert_command name tag text = text) as Hcmd.
  { intros name tag. apply re_sub_no_match. intros j.
    apply match_at_needs_char. by apply lookup_not_elem. }
  unfold convert_emphasis. rewrite !Hcmd.
  by apply normalize_whitespace_prose.
Qed.

Lemma latex_to_anki_mathjax_prose_witness :
  (BACKSLASH ∉ lit " Every bounded sequence converges. ")
  ∧ (ch "$" ∉ lit " Every bounded sequence converges. ")
  ∧ (ch "<" ∉ lit " Every bounded sequence converges. ")
  ∧ (NL ∉ lit " Every bounded sequence converges. ")
  ∧ latex_to_anki_mathjax (lit " Every bounded sequence converges. ")
    = lit "Every bounded sequence converges.".
Proof.
  assert (BACKSLASH ∉ lit " Every bounded sequence converges. ") as H1
    by (by apply (bool_decide_unpack _)).
  assert (ch "$" ∉ lit " Every bounded sequence converges. ") as H2
    by (by apply (bool_decide_unpack _)).
  assert (ch "<" ∉ lit " Every bounded sequence converges. ") as H3
    by (by apply (bool_decide_unpack _)).
  assert (NL ∉ lit " Every bounded sequence converges. ") as H4
    by (by apply (bool_decide_unpack _)).
  split_and!; [done.. |].
  exact (latex_to_anki_mathjax_prose
           (lit " Every bounded sequence converges. ") H1 H2 H3 H4).
Defined.

(** ** A block without markup inside *)

Lemma matching_close_flat (O C body rest : str) :
  head O = Some BACKSLASH → head C = Some BACKSLASH → BACKSLASH ∉ body →
  matching_close O C (body ++ C ++ rest) 1 = Some (length body).
Proof.
  intros HO HC. induction body as [|d body IH]; intros Hb.
  - destruct C as [|c C]; [done|]. cbn [app matching_close].
    change (c :: C ++ rest) with ((c :: C) ++ rest).
    by rewrite starts_with_app.
  - apply not_elem_of_cons in Hb as [Hd Hb].
    destruct O as [|o O]; [done|]. destruct C as [|c C]; [done|].
    injection HO as ->. injection HC as ->.
    cbn [app matching_close starts_with].
    destruct (char_eqb BACKSLASH d) eqn:E; [by apply char_eqb_eq in E|].
    cbn [andb]. specialize (IH Hb). cbn [app] in IH.
    by rewrite IH.
Qed.

(** X17.  A block whose text between the markers holds no backslash is
    returned, with the trimmed text as its body and the offset of its
    open marker as its start, whatever stands before and after it. *)
Theorem find_environments_flat (pre body post env : str)
    (env_types : list str) :
  Forall alphabetic env_types → env ∈ env_types → BACKSLASH ∉ body →
  (env, strip body, length pre)
  ∈ find_environments
      (pre ++ begin_marker env ++ body ++ end_marker env ++ post) env_types.
Proof.
  intros Ha Henv Hb. apply elem_of_find_environments; [done|].
  exists env, (length pre). split; [done|]. apply block_at_Some.
  set (tex := pre ++ begin_marker env ++ body ++ end_marker env ++ post).
  split; [apply occurs_at_middle|].
  exists (length pre + length (begin_marker env) + length body).
  assert (drop (length pre + length (begin_marker env)) tex
          = body ++ end_marker env ++ post) as Hdrop.
  { unfold tex. rewrite app_assoc, <- length_app. apply drop_app_length. }
  split.
  - unfold close_of. cbv zeta. rewrite Hdrop.
    by rewrite matching_close_flat.
  - do 2 f_equal. unfold slice. rewrite Hdrop.
    replace (length pre + length (begin_marker env) + length body
             - (length pre + length (begin_marker env)))
      with (length body) by lia.
    by rewrite take_app_length.
Qed.

Lemma find_environments_flat_witness :
  Forall alphabetic ENV_TYPES ∧ lit "lemma" ∈ ENV_TYPES
  ∧ (BACKSLASH ∉ lit " Every x is y. ")
  ∧ (lit "lemma", lit "Every x is y.", 5)
    ∈ find_environments
        (lit "Then \begin{lemma} Every x is y. \end{lemma} follows.")
        ENV_TYPES.
Proof.
  assert (lit "lemma" ∈ ENV_TYPES) as H1 by (by apply (bool_decide_unpack _)).
  assert (BACKSLASH ∉ lit " Every x is y. ") as H2
    by (by apply (bool_decide_unpack _)).
  split_and!; [exact alphabetic_ENV_TYPES | done | done |].
  exact (find_environments_flat (lit "Then ") (lit " Every x is y. ")
           (lit " follows.") (lit "lemma") ENV_TYPES alphabetic_ENV_TYPES
           H1 H2).
Defined.

(** ** Emphasis *)

Lemma rmatch_char_here (s : str) (c : char) (r : regex) (i : nat)
    (g : groups) (k : cont) :
  s !! i = Some c → rmatch s (RSeq (RChar c) r) i g k = rmatch s r (S i) g k.
Proof.
  intros H. rewrite rmatch_seq. unfold RChar. cbn [rmatch].
  by rewrite H, char_eqb_refl.
Qed.

(** A text without backslash holds no command. *)
Lemma convert_command_plain (name tag s : str) :
  BACKSLASH ∉ s → convert_command name tag s = s.
Proof.
  intros H. apply re_sub_no_match. intros j.
  apply match_at_needs_char. by apply lookup_not_elem.
Qed.

(** A text whose only backslash starts another command. *)
Lemma convert_command_other (name tag pre rest : str) :
  BACKSLASH ∉ pre → BACKSLASH ∉ rest → starts_with name rest = false →
  convert_command name tag (pre ++ BACKSLASH :: rest) = pre ++ BACKSLASH :: rest.
Proof.
  intros Hpre Hrest Hname. apply re_sub_no_match. intros j.
  destruct (Nat.lt_trichotomy j (length pre)) as [Hj|[->|Hj]].
  - apply match_at_needs_char. by apply lookup_before.
  - unfold match_at, command_re. cbn [RCat].
    rewrite rmatch_char_here by (by rewrite list_lookup_middle).
    rewrite rmatch_seq, rmatch_lit.
    assert (occurs_at name (pre ++ BACKSLASH :: rest) (S (length pre)) = false)
      as ->; [|done].
    unfold occurs_at.
    replace (pre ++ BACKSLASH :: rest) with ((pre ++ [BACKSLASH]) ++ rest)
      by (by rewrite <- app_assoc).
    replace (S (length pre)) with (length (pre ++ [BACKSLASH]))
      by (rewrite length_app; simpl; lia).
    by rewrite drop_app_length.
  - apply match_at_needs_char.
    replace (pre ++ BACKSLASH :: rest) with ((pre ++ [BACKSLASH]) ++ rest)
      by (by rewrite <- app_assoc).
    apply lookup_after; [done|]. rewrite length_app. simpl. lia.
Qed.

(** One command with its argument, in a text without other backslashes. *)
Lemma convert_command_call (name tag pre arg post : str) :
  BACKSLASH ∉ pre → BACKSLASH ∉ post → ch "}" ∉ arg →
  convert_command name tag
    (pre ++ (BACKSLASH :: name ++ lit "{" ++ arg ++ lit "}") ++ post)
  = pre ++ (lit "<" ++ tag ++ lit ">" ++ arg ++ lit "</" ++ tag ++ lit ">")
    ++ post.
Proof.
  intros Hpre Hpost Harg. unfold convert_command.
  set (call := BACKSLASH :: name ++ lit "{" ++ arg ++ lit "}").
  set (text := pre ++ call ++ post).
  set (a := S (length pre) + length name).
  assert (length call = 1 + length name + 1 + length arg + 1) as Hlen.
  { unfold call. cbn [length]. rewrite !length_app. simpl. lia. }
  assert (text !! length pre = Some BACKSLASH) as Hbs
    by (by apply list_lookup_middle).
  assert (text = (pre ++ [BACKSLASH]) ++ name
                 ++ (lit "{" ++ arg ++ lit "}" ++ post)) as Ht0.
  { unfold text, call. cbn [app]. rewrite <- !app_assoc. cbn [app].
    by rewrite <- ?app_assoc. }
  assert (text = (pre ++ BACKSLASH :: name)
                 ++ (lit "{" ++ arg ++ lit "}") ++ post) as Ht1.
  { unfold text, call. cbn [app]. rewrite <- !app_assoc. cbn [app].
    by rewrite <- ?app_assoc. }
  assert (text = (pre ++ BACKSLASH :: name ++ lit "{") ++ arg
                 ++ (lit "}" ++ post)) as Ht2.
  { unfold text, call. cbn [app]. rewrite <- !app_assoc. cbn [app].
    by rewrite <- ?app_assoc. }
  assert (occurs_at name text (S (length pre)) = true) as Hname.
  { rewrite Ht0.
    replace (S (length pre)) with (length (pre ++ [BACKSLASH]))
      by (rewrite length_app; simpl; lia).
    apply occurs_at_middle. }
  assert (occurs_at (lit "{" ++ arg ++ lit "}") text a = true) as Hbr.
  { rewrite Ht1.
    replace a with (length (pre ++ BACKSLASH :: name))
      by (unfold a; rewrite length_app; simpl; lia).
    apply occurs_at_middle. }
  assert (slice text (a + 1) (a + 1 + length arg) = arg) as Hg.
  { rewrite Ht2.
    replace (a + 1) with (length (pre ++ BACKSLASH :: name ++ lit "{"))
      by (unfold a; rewrite length_app; cbn [length]; rewrite length_app;
          simpl; lia).
    apply slice_middle. }
  rewrite (re_sub_once (command_re name) _ pre call post
             [(1, (a + 1, a + 1 + length arg))]).
  - unfold group_str, group. cbn [m_groups group_span Nat.eqb from_option id].
    fold text. by rewrite Hg.
  - done.
  - fold text. unfold match_at, command_re. cbn [RCat].
    rewrite rmatch_char_here by done.
    rewrite rmatch_seq, rmatch_lit, Hname. fold a. unfold RStar.
    rewrite (braced_match 1 0 text arg a []
               (λ j g, Some (j, g))
               (a + 1 + length arg + 1, [(1, (a + 1, a + 1 + length arg))]));
      [|done|done|lia|done].
    cbv beta iota. do 2 f_equal. unfold a. rewrite Hlen. lia.
  - intros i Hi. apply match_at_needs_char. by apply lookup_before.
  - intros i Hi. apply match_at_needs_char.
    rewrite app_assoc. apply lookup_after; [done|]. by rewrite length_app.
Qed.

(** X18.  The three emphasis commands: in a text with one backslash, the
    one of a [\textit], [\textbf] or [\emph] whose argument holds no close
    brace, the command and its braces are replaced by the tags [<i>],
    [<b>] and [<i>] around the argument, and the rest of the text is
    kept. *)
Theorem convert_emphasis_command (name tag pre arg post : str) :
  (name, tag) ∈ [(lit "textit", lit "i"); (lit "textbf", lit "b");
                 (lit "emph", lit "i")] →
  BACKSLASH ∉ pre → BACKSLASH ∉ arg → BACKSLASH ∉ post → ch "}" ∉ arg →
  convert_emphasis
    (pre ++ (BACKSLASH :: name ++ lit "{" ++ arg ++ lit "}") ++ post)
  = pre ++ (lit "<" ++ tag ++ lit ">" ++ arg ++ lit "</" ++ tag ++ lit ">")
    ++ post.
Proof.
  intros Hin Hpre Harg Hpost Hbrace. unfold convert_emphasis.
  assert (∀ t, BACKSLASH ∉ t →
            BACKSLASH ∉ pre ++ (lit "<" ++ t ++ lit ">" ++ arg ++ lit "</"
                                ++ t ++ lit ">") ++ post) as Hplain.
  { intros t Ht. rewrite !elem_of_app.
    assert (BACKSLASH ∉ lit "<") by (by apply (bool_decide_unpack _)).
    assert (BACKSLASH ∉ lit ">") by (by apply (bool_decide_unpack _)).
    assert (BACKSLASH ∉ lit "</") by (by apply (bool_decide_unpack _)).
    tauto. }
  assert (∀ n, BACKSLASH ∉ n →
            BACKSLASH ∉ n ++ lit "{" ++ arg ++ lit "}" ++ post) as Hrest.
  { intros n Hn. rewrite !elem_of_app.
    assert (BACKSLASH ∉ lit "{") by (by apply (bool_decide_unpack _)).
    assert (BACKSLASH ∉ lit "}") by (by apply (bool_decide_unpack _)).
    tauto. }
  assert (BACKSLASH ∉ lit "i") as Hi by (by apply (bool_decide_unpack _)).
  assert (BACKSLASH ∉ lit "b") as Hb by (by apply (bool_decide_unpack _)).
  assert (BACKSLASH ∉ lit "textbf") as Hbf
    by (by apply (bool_decide_unpack _)).
  assert (BACKSLASH ∉ lit "emph") as Hem by (by apply (bool_decide_unpack _)).
  assert (∀ n, pre ++ (BACKSLASH :: n ++ lit "{" ++ arg ++ lit "}") ++ post
               = pre ++ BACKSLASH :: (n ++ lit "{" ++ arg ++ lit "}" ++ post))
    as Hshape.
  { intros n. cbn [app]. by rewrite <- !app_assoc. }
  apply elem_of_cons in Hin as [[= -> ->]|Hin];
    [|apply elem_of_cons in Hin as [[= -> ->]|Hin];
      [|apply elem_of_cons in Hin as [[= -> ->]|Hin];
        [|by apply elem_of_nil in Hin]]].
  - rewrite (convert_command_call (lit "textit") (lit "i")) by done.
    rewrite (convert_command_plain (lit "textbf")) by (by apply Hplain).
    by rewrite (convert_command_plain (lit "emph")) by (by apply Hplain).
  - rewrite (Hshape (lit "textbf")).
    rewrite (convert_command_other (lit "textit"));
      [|done | by apply Hrest | done].
    rewrite <- (Hshape (lit "textbf")).
    rewrite (convert_command_call (lit "textbf") (lit "b")) by done.
    by rewrite (convert_command_plain (lit "emph")) by (by apply Hplain).
  - rewrite (Hshape (lit "emph")).
    rewrite (convert_command_other (lit "textit"));
      [|done | by apply Hrest | done].
    rewrite (convert_command_other (lit "textbf"));
      [|done | by apply Hrest | done].
    rewrite <- (Hshape (lit "emph")).
    by rewrite (convert_command_call (lit "emph") (lit "i")) by done.
Qed.

Lemma convert_emphasis_command_witness :
  (BACKSLASH ∉ lit "a ") ∧ (BACKSLASH ∉ lit "bounded")
  ∧ (BACKSLASH ∉ lit " set") ∧ (ch "}" ∉ lit "bounded")
  ∧ convert_emphasis (lit "a \emph{bounded} set")
    = lit "a <i>bounded</i> set".
Proof.
  assert ((lit "emph", lit "i")
          ∈ [(lit "textit", lit "i"); (lit "textbf", lit "b");
             (lit "emph", lit "i")]) as H0
    by (right; right; left).
  assert (BACKSLASH ∉ lit "a ") as H1 by (by apply (bool_decide_unpack _)).
  assert (BACKSLASH ∉ lit "bounded") as H2
    by (by apply (bool_decide_unpack _)).
  assert (BACKSLASH ∉ lit " set") as H3 by (by apply (bool_decide_unpack _)).
  assert (ch "}" ∉ lit "bounded") as H4 by (by apply (bool_decide_unpack _)).
  split_and!; [done.. |].
  exact (convert_emphasis_command (lit "emph") (lit "i") (lit "a ")
           (lit "bounded") (lit " set") H0 H1 H2 H3 H4).
Defined.

(** ** The items of a list *)

Lemma space_split (it : str) :
  ∃ sp, it = sp ++ drop_while is_space it
        ∧ Forall (λ c, is_space c = true) sp.
Proof.
  induction it as [|c it (sp & Heq & Hsp)]; [by exists []|].
  cbn [drop_while]. destruct (is_space c) eqn:E.
  - exists (c :: sp). split; [by rewrite Heq at 1 | by constructor].
  - by exists [].
Qed.

Lemma drop_while_idem (f : char → bool) (s : str) :
  drop_while f (drop_while f s) = drop_while f s.
Proof.
  induction s as [|c s IH]; [done|]. cbn [drop_while].
  destruct (f c) eqn:E; [done|]. cbn [drop_while]. by rewrite E.
Qed.

Lemma strip_drop_while (s : str) : strip (drop_while is_space s) = strip s.
Proof. unfold strip, strip_set. by rewrite drop_while_idem. Qed.

(** The item pattern at an [\item] followed by the white space [sp] and
    then by something else. *)
Lemma item_match (s sp : str) (p : nat) :
  occurs_at (lit "\item" ++ sp) s p = true →
  Forall (λ c, is_space c = true) sp →
  (∀ c, s !! (p + 5 + length sp) = Some c → is_space c = false) →
  match_at item_re s p = Some (MkMatch p (p + 5 + length sp) []).
Proof.
  intros Ho Hsp Hnext. pose proof Ho as Ho'.
  rewrite occurs_at_app in Ho'. change (length (lit "\item")) with 5 in Ho'.
  apply andb_true_iff in Ho' as [Hitem Hrun].
  unfold match_at, item_re. rewrite rmatch_seq, rmatch_lit, Hitem.
  change (length (lit "\item")) with 5. unfold RStar.
  rewrite (rmatch_class_greedy s is_space 0 _ []
             (p + 5 + length sp, []) (p + 5) (p + 5 + length sp));
    [done | lia | | | done | done].
  - destruct (occurs_at_length _ _ _ Ho) as [Hl|Hl].
    + rewrite length_app in Hl. change (length (lit "\item")) with 5 in Hl.
      lia.
    + by destruct sp.
  - intros q Hq.
    destruct (lookup_lt_is_Some_2 sp (q - (p + 5))) as [c Hc]; [lia|].
    exists c. split.
    + pose proof (occurs_at_lookup _ _ (p + 5) (q - (p + 5)) c Hrun Hc) as H.
      by replace (p + 5 + (q - (p + 5))) with q in H by lia.
    + rewrite Forall_forall in Hsp. apply Hsp.
      by eapply list_elem_of_lookup_2.
Qed.

Lemma item_pieces (items : list str) :
  Forall (λ it, BACKSLASH ∉ it) items →
  ∀ fuel done cur s,
    BACKSLASH ∉ cur → length items < fuel →
    s = done ++ cur ++ concat (map (λ it, lit "\item" ++ it) items) →
    pieces s (length done) (finditer_loop item_re s fuel (length done))
    = cur :: map (drop_while is_space) items.
Proof.
  induction 1 as [|it items Hit _ IH]; intros fuel done cur s Hcur Hfuel Hs.
  - destruct fuel as [|fuel]; [simpl in Hfuel; lia|].
    cbn [concat map] in Hs. rewrite app_nil_r in Hs.
    cbn [finditer_loop].
    destruct (Nat.ltb_spec (length s) (length done)) as [Hlt|_].
    { rewrite Hs, length_app in Hlt. lia. }
    assert (re_search item_re s (length done) = None) as ->.
    { unfold re_search. apply search_loop_None_from. intros j Hj.
      apply (match_at_needs_backslash (lit "item")).
      rewrite Hs. apply lookup_after; [done|].
      rewrite Hs, length_app in Hj. lia. }
    cbn [pieces map]. by rewrite Hs, drop_app_length.
  - destruct fuel as [|fuel]; [simpl in Hfuel; lia|].
    cbn [length] in Hfuel.
    destruct (space_split it) as (sp & Heq & Hsp).
    set (cur' := drop_while is_space it) in *.
    set (rest := concat (map (λ it, lit "\item" ++ it) items)) in *.
    assert (BACKSLASH ∉ cur') as Hcur'.
    { intros Hin. apply Hit. rewrite Heq, elem_of_app. by right. }
    assert (s = (done ++ cur) ++ (lit "\item" ++ sp) ++ (cur' ++ rest)) as Hs1.
    { rewrite Hs. cbn [concat map]. fold rest. rewrite Heq at 1.
      by rewrite <- !app_assoc. }
    assert (s = (done ++ cur ++ lit "\item" ++ sp) ++ cur' ++ rest) as Hs2.
    { rewrite Hs1. by rewrite <- !app_assoc. }
    set (p := length done + length cur).
    set (e := p + 5 + length sp).
    assert (length (done ++ cur) = p) as Hp by (by rewrite length_app).
    assert (length (done ++ cur ++ lit "\item" ++ sp) = e) as He.
    { unfold e, p. rewrite !length_app. simpl. lia. }
    assert (length s = e + length (cur' ++ rest)) as Hlen
      by (by rewrite Hs2, length_app, He).
    assert (match_at item_re s p = Some (MkMatch p e [])) as Hm.
    { apply item_match; [|done|].
      - rewrite Hs1, <- Hp. apply occurs_at_middle.
      - fold e. intros c Hc. rewrite Hs2, <- He in Hc.
        rewrite lookup_app_r, Nat.sub_diag in Hc by done.
        destruct cur' as [|c' cur''] eqn:Hc'.
        + destruct items as [|it2 items]; [done|].
          by injection Hc as <-.
        + injection Hc as <-. apply (drop_while_head is_space it).
          fold cur'. by rewrite Hc'. }
    cbn [finditer_loop].
    destruct (Nat.ltb_spec (length s) (length done)) as [Hlt|_]; [lia|].
    assert (re_search item_re s (length done) = Some (MkMatch p e [])) as ->.
    { unfold re_search. rewrite Nat.min_l by lia.
      apply (search_loop_first item_re s _ p Hm); [lia | lia |].
      intros i' Hi'. apply (match_at_needs_backslash (lit "item")).
      rewrite Hs. rewrite app_assoc, lookup_app_l by (rewrite Hp; lia).
      rewrite lookup_app_r by lia. by apply lookup_not_elem. }
    cbn [m_start m_end].
    destruct (Nat.eqb_spec e p) as [Hep|_]; [lia|].
    cbn [pieces m_start m_end map]. f_equal.
    + rewrite Hs. unfold p. apply slice_middle.
    + rewrite <- He. apply (IH fuel _ cur' s Hcur'); [lia | exact Hs2].
Qed.

Lemma item_count (items : list str) :
  length items ≤ length (concat (map (λ it, lit "\item" ++ it) items)).
Proof.
  induction items as [|it items IH]; [done|].
  cbn [concat map length]. rewrite !length_app.
  change (length (lit "\item")) with 5. lia.
Qed.

Lemma re_split_items (lead : str) (items : list str) :
  BACKSLASH ∉ lead → Forall (λ it, BACKSLASH ∉ it) items →
  re_split item_re (lead ++ concat (map (λ it, lit "\item" ++ it) items))
  = lead :: map (drop_while is_space) items.
Proof.
  intros Hlead Hitems. unfold re_split, re_finditer.
  apply (item_pieces items Hitems _ [] lead); [done| |done].
  rewrite length_app. pose proof (item_count items). lia.
Qed.

Lemma filter_strip_drop_while (l : list str) :
  map strip (filter (λ i, strip i ≠ []) (map (drop_while is_space) l))
  = map strip (filter (λ i, strip i ≠ []) l).
Proof.
  induction l as [|x l IH]; [done|]. cbn [map]. rewrite !filter_cons.
  rewrite strip_drop_while.
  destruct (decide (strip x ≠ [])); cbn [map];
    [by rewrite strip_drop_while, IH | done].
Qed.

(** X19.  The items of a list environment: for a content made of a
    lead text and of [\item]s each followed by its text, none with a
    backslash, the result is one [<li>] element for the lead text and for
    each item, in order, with the text of each stripped of the white space
    at its ends; the texts that are blank are left out. *)
Theorem html_items_list (lead : str) (items : list str) :
  BACKSLASH ∉ lead → Forall (λ it, BACKSLASH ∉ it) items →
  html_items (lead ++ concat (map (λ it, lit "\item" ++ it) items))
  = concat (map (λ it, lit "<li>" ++ strip it ++ lit "</li>")
              (filter (λ it, strip it ≠ []) (lead :: items))).
Proof.
  intros Hlead Hitems. unfold html_items. cbv zeta.
  rewrite re_split_items by done.
  assert (map strip
            (filter (λ i, strip i ≠ [])
               (lead :: map (drop_while is_space) items))
          = map strip (filter (λ i, strip i ≠ []) (lead :: items))) as ->.
  { rewrite !filter_cons.
    destruct (decide (strip lead ≠ [])); cbn [map];
      by rewrite filter_strip_drop_while. }
  rewrite map_map. done.
Qed.

Lemma html_items_list_witness :
  (BACKSLASH ∉ lit " ")
  ∧ Forall (λ it, BACKSLASH ∉ it) [lit " first "; lit "  "; lit " second"]
  ∧ html_items (lit " \item first \item  \item second")
    = lit "<li>first</li><li>second</li>".
Proof.
  assert (BACKSLASH ∉ lit " ") as H1 by (by apply (bool_decide_unpack _)).
  assert (Forall (λ it, BACKSLASH ∉ it)
            [lit " first "; lit "  "; lit " second"]) as H2
    by (repeat constructor; by apply (bool_decide_unpack _)).
  split_and!; [done | done |].
  exact (html_items_list (lit " ")
           [lit " first "; lit "  "; lit " second"] H1 H2).
Defined.

(** ** List environments *)

Lemma match_at_needs_head (c : char) (m : str) (rest : regex) (s : str)
    (i : nat) :
  head m = Some c → s !! i ≠ Some c →
  match_at (RSeq (RLit m) rest) s i = None.
Proof.
  intros Hm Hi. apply match_at_needs_prefix.
  destruct m as [|d m]; [done|]. injection Hm as ->.
  destruct (occurs_at (c :: m) s i) eqn:Ho; [|done].
  by apply occurs_at_head in Ho.
Qed.

(** An optional part that cannot start is passed over. *)
Lemma ropt_skip (s : str) (r : regex) (i : nat) (g : groups) (k : cont) :
  (∀ k', rmatch s r i g k' = None) → rmatch s (ROpt r) i g k = k i g.
Proof.
  intros H. unfold ROpt. cbn [rmatch].
  change (S (0 + length s)) with (S (length s)).
  cbn [repeat_loop under]. cbv zeta. by rewrite H.
Qed.

(** A lazy body up to the first occurrence of the close marker. *)
Lemma lazy_block_match (s C : str) (n a j : nat) (g : groups) :
  a ≤ j → j ≤ length s → occurs_at C s j = true →
  (∀ j', a ≤ j' < j → occurs_at C s j' = false) →
  rmatch s (RSeq (RGroup n (RLazyStar RAnyDotall)) (RLit C)) a g
    (λ j g', Some (j, g'))
  = Some (j + length C, (n, (a, j)) :: g).
Proof.
  intros Haj Hj Ho Hnone. rewrite rmatch_seq. unfold RLazyStar.
  cbn [rmatch].
  apply (lazy_any_first s _ g (j + length C, (n, (a, j)) :: g) j);
    [done | | done | lia |].
  - cbv beta. by rewrite rmatch_lit, Ho.
  - intros j' Hj'. cbv beta. by rewrite rmatch_lit, Hnone.
Qed.

(** In a text made of a lead text and of entries, each after a backslash
    of its own, every backslash is followed by one of the entries. *)
Lemma backslash_entry (entries : list str) :
  Forall (λ e, BACKSLASH ∉ e) entries →
  ∀ lead q,
    BACKSLASH ∉ lead →
    (lead ++ concat (map (cons BACKSLASH) entries)) !! q = Some BACKSLASH →
    ∃ e r, e ∈ entries
           ∧ drop (S q) (lead ++ concat (map (cons BACKSLASH) entries))
             = e ++ r.
Proof.
  induction 1 as [|e entries He _ IH]; intros lead q Hlead Hq.
  - cbn [concat map] in Hq. rewrite app_nil_r in Hq.
    by apply lookup_not_elem in Hq.
  - cbn [concat map] in *.
    destruct (Nat.lt_trichotomy q (length lead)) as [Hlt|[->|Hgt]].
    + rewrite lookup_app_l in Hq by done. by apply lookup_not_elem in Hq.
    + exists e, (concat (map (cons BACKSLASH) entries)). split; [left|].
      replace (lead ++ (BACKSLASH :: e) ++ concat (map (cons BACKSLASH) entries))
        with ((lead ++ [BACKSLASH])
              ++ e ++ concat (map (cons BACKSLASH) entries))
        by (by rewrite <- app_assoc).
      replace (S (length lead)) with (length (lead ++ [BACKSLASH]))
        by (rewrite length_app; simpl; lia).
      apply drop_app_length.
    + assert (lead ++ (BACKSLASH :: e) ++ concat (map (cons BACKSLASH) entries)
              = (lead ++ [BACKSLASH])
                ++ e ++ concat (map (cons BACKSLASH) entries)) as Heq
        by (by rewrite <- app_assoc).
      assert (length (lead ++ [BACKSLASH]) = S (length lead)) as Hl
        by (rewrite length_app; simpl; lia).
      rewrite Heq in Hq |- *. rewrite lookup_app_r in Hq by lia.
      destruct (IH e (q - length (lead ++ [BACKSLASH])) He Hq)
        as (e' & r & He' & Hdrop).
      exists e', r. split; [by right|].
      replace (S q)
        with (length (lead ++ [BACKSLASH])
              + S (q - length (lead ++ [BACKSLASH]))) by lia.
      by rewrite <- drop_drop, drop_app_length.
Qed.

Lemma items_as_entries (items : list str) :
  concat (map (λ it, lit "\item" ++ it) items)
  = concat (map (cons BACKSLASH) (map (λ it, lit "item" ++ it) items)).
Proof. by rewrite map_map. Qed.

Lemma item_entries_plain (items : list str) :
  Forall (λ it, BACKSLASH ∉ it) items →
  Forall (λ e, BACKSLASH ∉ e) (map (λ it, lit "item" ++ it) items).
Proof.
  intros H. apply Forall_forall.
  intros e (it & <- & Hit)%list_elem_of_In%in_map_iff.
  rewrite Forall_forall in H. apply list_elem_of_In, H in Hit.
  rewrite elem_of_app. intros [Hin|Hin]; [|done].
  revert Hin. by apply (bool_decide_unpack _).
Qed.

(** In the content of a list every backslash is the one of an [\item]. *)
Lemma item_content_backslash (lead : str) (items : list str) (q : nat) :
  BACKSLASH ∉ lead → Forall (λ it, BACKSLASH ∉ it) items →
  (lead ++ concat (map (λ it, lit "\item" ++ it) items)) !! q
  = Some BACKSLASH →
  (lead ++ concat (map (λ it, lit "\item" ++ it) items)) !! S q
  = Some (ch "i").
Proof.
  intros Hlead Hitems. rewrite items_as_entries. intros Hq.
  destruct (backslash_entry _ (item_entries_plain items Hitems) lead q
              Hlead Hq) as (e & r & He & Hdrop).
  apply list_elem_of_In, in_map_iff in He as (it & <- & _).
  pose proof (lookup_drop
                (lead ++ concat (map (cons BACKSLASH)
                                   (map (λ it, lit "item" ++ it) items)))
                (S q) 0) as Hl.
  rewrite Hdrop in Hl. rewrite Nat.add_0_r in Hl. by rewrite <- Hl.
Qed.

(** The close marker of a list does not stand in its content. *)
Lemma item_content_no_close (lead : str) (items : list str)
    (C before z : str) (c2 : char) (q : nat) :
  BACKSLASH ∉ lead → Forall (λ it, BACKSLASH ∉ it) items →
  C !! 0 = Some BACKSLASH → C !! 1 = Some c2 → c2 ≠ ch "i" →
  q < length (lead ++ concat (map (λ it, lit "\item" ++ it) items)) →
  occurs_at C
    (before ++ (lead ++ concat (map (λ it, lit "\item" ++ it) items)) ++ z)
    (length before + q) = false.
Proof.
  intros Hlead Hitems HC0 HC1 Hc2 Hq.
  set (content := lead ++ concat (map (λ it, lit "\item" ++ it) items)) in *.
  destruct (occurs_at C _ _) eqn:Ho; [|done]. exfalso.
  pose proof (occurs_at_lookup _ _ _ 0 _ Ho HC0) as H0.
  pose proof (occurs_at_lookup _ _ _ 1 _ Ho HC1) as H1.
  rewrite Nat.add_0_r in H0.
  rewrite lookup_app_r in H0 by lia.
  rewrite lookup_app_l in H0 by lia.
  replace (length before + q - length before) with q in H0 by lia.
  apply item_content_backslash in H0; [|done|done]. fold content in H0.
  pose proof (lookup_lt_Some _ _ _ H0) as Hlt.
  rewrite lookup_app_r in H1 by lia.
  rewrite lookup_app_l in H1 by lia.
  replace (length before + q + 1 - length before) with (S q) in H1 by lia.
  congruence.
Qed.

Section list_block.
Variables pre lead post : str.
Variable items : list str.
Variables O C : str.
Hypothesis pre_plain : BACKSLASH ∉ pre.
Hypothesis lead_plain : BACKSLASH ∉ lead.
Hypothesis post_plain : BACKSLASH ∉ post.
Hypothesis items_plain : Forall (λ it, BACKSLASH ∉ it) items.
Hypothesis open_head : head O = Some BACKSLASH.
Hypothesis close_head : C !! 0 = Some BACKSLASH.

Let lcontent : str := lead ++ concat (map (λ it, lit "\item" ++ it) items).
Let ltext : str := pre ++ (O ++ lcontent ++ C) ++ post.
Let lbody : nat := length pre + length O.

Lemma list_block_shape : ltext = (pre ++ O) ++ lcontent ++ (C ++ post).
Proof using Type. unfold ltext. by rewrite <- !app_assoc. Qed.

Lemma list_block_length :
  length ltext = lbody + length lcontent + length C + length post.
Proof using Type. unfold ltext, lbody. rewrite !length_app. lia. Qed.

Lemma list_block_group : slice ltext lbody (lbody + length lcontent) = lcontent.
Proof using Type.
  rewrite list_block_shape. unfold lbody. rewrite <- length_app.
  apply slice_middle.
Qed.

Lemma list_block_before (rest : regex) (i : nat) :
  i < length pre → match_at (RSeq (RLit O) rest) ltext i = None.
Proof using pre_plain open_head.
  intros Hi. apply (match_at_needs_head BACKSLASH); [done|].
  by apply lookup_before.
Qed.

Lemma list_block_after (rest : regex) (i : nat) :
  length pre + length (O ++ lcontent ++ C) ≤ i →
  match_at (RSeq (RLit O) rest) ltext i = None.
Proof using post_plain open_head.
  intros Hi. apply (match_at_needs_head BACKSLASH); [done|].
  unfold ltext. rewrite app_assoc. apply lookup_after; [done|].
  by rewrite length_app.
Qed.

(** The first character of the content is no open square bracket. *)
Lemma list_block_no_label :
  head lead ≠ Some (ch "[") → ltext !! lbody ≠ Some (ch "[").
Proof using lead_plain items_plain close_head.
  intros Hlead. rewrite list_block_shape. unfold lbody.
  rewrite <- length_app, lookup_app_r, Nat.sub_diag by done.
  unfold lcontent. destruct lead as [|c lead']; [|by intros [= ->]].
  destruct items as [|it its]; cbn [concat map app].
  - destruct C as [|c C']; [done|]. cbn [app lookup list_lookup].
    injection close_head as ->. done.
  - done.
Qed.

Variable c2 : char.
Hypothesis close_second : C !! 1 = Some c2.
Hypothesis close_not_item : c2 ≠ ch "i".

(** The text after the open marker: the lazy body is the whole content. *)
Lemma list_block_body (g : groups) :
  rmatch ltext (RSeq (RGroup 1 (RLazyStar RAnyDotall)) (RLit C)) lbody g
    (λ j g', Some (j, g'))
  = Some (lbody + length lcontent + length C,
          (1, (lbody, lbody + length lcontent)) :: g).
Proof using lead_plain items_plain close_head close_second close_not_item.
  apply lazy_block_match; [lia | rewrite list_block_length; lia | |].
  - rewrite list_block_shape. unfold lbody. rewrite <- length_app.
    replace ((pre ++ O) ++ lcontent ++ C ++ post)
      with (((pre ++ O) ++ lcontent) ++ C ++ post)
      by (by rewrite <- !app_assoc).
    rewrite <- length_app. apply occurs_at_middle.
  - intros j' Hj'. rewrite list_block_shape.
    replace j' with (length (pre ++ O) + (j' - lbody))
      by (unfold lbody in *; rewrite length_app; lia).
    apply (item_content_no_close lead items C (pre ++ O) (C ++ post) c2);
      try done. fold lcontent. lia.
Qed.
End list_block.

(** The items of a content are free of backslashes. *)
Lemma html_items_plain (lead : str) (items : list str) :
  BACKSLASH ∉ lead → Forall (λ it, BACKSLASH ∉ it) items →
  BACKSLASH ∉ html_items (lead ++ concat (map (λ it, lit "\item" ++ it) items)).
Proof.
  intros Hlead Hitems. unfold html_items. cbv zeta.
  rewrite re_split_items by done.
  intros (piece & Hin & Hp)%elem_of_concat_map.
  apply list_elem_of_In, in_map_iff in Hin as (x & <- & Hx).
  apply list_elem_of_In, list_elem_of_filter in Hx as [_ Hx].
  assert (BACKSLASH ∉ x) as Hplain.
  { apply elem_of_cons in Hx as [->|Hx]; [done|].
    apply list_elem_of_In, in_map_iff in Hx as (it & <- & Hit).
    rewrite Forall_forall in Hitems. apply list_elem_of_In, Hitems in Hit.
    intros Hin. apply Hit.
    destruct (space_split it) as (sp & Heq & _). rewrite Heq, elem_of_app.
    by right. }
  rewrite !elem_of_app in Hp. destruct Hp as [Hp|[Hp|Hp]].
  - revert Hp. by apply (bool_decide_unpack _).
  - assert (Forall (λ c, c ≠ BACKSLASH) (strip x)) as Hs.
    { apply strip_set_Forall, Forall_forall. by intros c Hc ->. }
    rewrite Forall_forall in Hs. by apply (Hs _ Hp).
  - revert Hp. by apply (bool_decide_unpack _).
Qed.

(** X20.  A numbered list without a label: an [enumerate] environment
    whose content is a lead text and [\item]s with their texts, in a text
    without other backslashes, becomes an [<ol>] element that holds the
    items of the content, and the text around it is kept. *)
Theorem convert_lists_enumerate (pre lead post : str) (items : list str) :
  BACKSLASH ∉ pre → BACKSLASH ∉ lead → BACKSLASH ∉ post →
  Forall (λ it, BACKSLASH ∉ it) items → head lead ≠ Some (ch "[") →
  let content := lead ++ concat (map (λ it, lit "\item" ++ it) items) in
  convert_lists
    (pre ++ (lit "\begin{enumerate}" ++ content ++ lit "\end{enumerate}")
     ++ post)
  = pre ++ (lit "<ol>" ++ html_items content ++ lit "</ol>") ++ post.
Proof.
  intros Hpre Hlead Hpost Hitems Hlabel content.
  set (O := lit "\begin{enumerate}"). set (C := lit "\end{enumerate}").
  set (text := pre ++ (O ++ content ++ C) ++ post).
  set (a := length pre + length O).
  assert (re_sub enumerate_re (convert_enumerate text) text
          = pre ++ (lit "<ol>" ++ html_items content ++ lit "</ol>") ++ post)
    as Hstep.
  { assert (slice text a (a + length content) = content) as Hg
      by exact (list_block_group pre lead post items O C).
    assert (rmatch text (RSeq (RGroup 1 (RLazyStar RAnyDotall)) (RLit C)) a []
              (λ j g', Some (j, g'))
            = Some (a + length content + length C,
                    [(1, (a, a + length content))])) as Hbody
      by (by apply (list_block_body pre lead post items O C
                      Hlead Hitems eq_refl (ch "e"))).
    assert (text !! a ≠ Some (ch "[")) as Hnl
      by (by apply (list_block_no_label pre lead post items O C)).
    rewrite (re_sub_once enumerate_re _ pre (O ++ content ++ C) post
               [(1, (a, a + length content))]).
    - unfold convert_enumerate, group_str, group.
      cbn [m_groups group_span Nat.eqb from_option id]. fold text.
      by rewrite Hg.
    - by unfold O.
    - fold text. unfold match_at, enumerate_re. cbn [RCat]. fold O C.
      rewrite rmatch_seq, rmatch_lit.
      assert (occurs_at O text (length pre) = true) as ->.
      { pose proof (occurs_at_middle pre (O ++ content ++ C) post) as Hoc.
        rewrite occurs_at_app in Hoc.
        by apply andb_true_iff in Hoc as [HO _]. }
      fold a. rewrite rmatch_seq, ropt_skip.
      + rewrite Hbody. do 2 f_equal. unfold a.
        rewrite !length_app. lia.
      + intros k'. rewrite rmatch_seq, rmatch_lit.
        destruct (occurs_at (lit "[") text a) eqn:Ho; [|done].
        by apply occurs_at_head in Ho.
    - intros i Hi. by apply (list_block_before pre lead post items O C).
    - intros i Hi. by apply (list_block_after pre lead post items O C). }
  unfold convert_lists. cbv zeta. rewrite Hstep.
  apply (re_sub_needs_char BACKSLASH); [done|].
  rewrite !elem_of_app.
  pose proof (html_items_plain lead items Hlead Hitems) as Hh.
  fold content in Hh.
  assert (BACKSLASH ∉ lit "<ol>") by (by apply (bool_decide_unpack _)).
  assert (BACKSLASH ∉ lit "</ol>") by (by apply (bool_decide_unpack _)).
  tauto.
Qed.

Lemma convert_lists_enumerate_witness :
  (BACKSLASH ∉ lit "so ") ∧ (BACKSLASH ∉ lit " ") ∧ (BACKSLASH ∉ lit " ok")
  ∧ Forall (λ it, BACKSLASH ∉ it) [lit " one "; lit " two "]
  ∧ head (lit " ") ≠ Some (ch "[")
  ∧ convert_lists
      (lit "so \begin{enumerate} \item one \item two \end{enumerate} ok")
    = lit "so <ol><li>one</li><li>two</li></ol> ok".
Proof.
  assert (BACKSLASH ∉ lit "so ") as H1 by (by apply (bool_decide_unpack _)).
  assert (BACKSLASH ∉ lit " ") as H2 by (by apply (bool_decide_unpack _)).
  assert (BACKSLASH ∉ lit " ok") as H3 by (by apply (bool_decide_unpack _)).
  assert (Forall (λ it, BACKSLASH ∉ it) [lit " one "; lit " two "]) as H4
    by (repeat constructor; by apply (bool_decide_unpack _)).
  assert (head (lit " ") ≠ Some (ch "[")) as H5 by done.
  split_and!; [done.. |].
  exact (convert_lists_enumerate (lit "so ") (lit " ") (lit " ok")
           [lit " one "; lit " two "] H1 H2 H3 H4 H5).
Defined.

Lemma occurs_at_tail (c : char) (x s : str) (j : nat) :
  occurs_at (c :: x) s j = true → starts_with x (drop (S j) s) = true.
Proof.
  unfold occurs_at. destruct (s !! j) as [d|] eqn:Hd.
  - rewrite (drop_S _ _ _ Hd). cbn [starts_with].
    by intros [_ H]%andb_true_iff.
  - by rewrite drop_ge by (by apply lookup_ge_None).
Qed.

(** A text with one [itemize] environment holds no open marker of an
    [enumerate] environment. *)
Lemma itemize_no_enumerate (pre lead post : str) (items : list str) (j : nat) :
  BACKSLASH ∉ pre → BACKSLASH ∉ lead → BACKSLASH ∉ post →
  Forall (λ it, BACKSLASH ∉ it) items →
  occurs_at (lit "\begin{enumerate}")
    (pre ++ (lit "\begin{itemize}"
             ++ (lead ++ concat (map (λ it, lit "\item" ++ it) items))
             ++ lit "\end{itemize}") ++ post) j = false.
Proof.
  intros Hpre Hlead Hpost Hitems.
  set (entries := (lit "begin{itemize}" ++ lead)
                  :: map (λ it, lit "item" ++ it) items
                  ++ [lit "end{itemize}" ++ post]).
  assert (pre ++ (lit "\begin{itemize}"
                  ++ (lead ++ concat (map (λ it, lit "\item" ++ it) items))
                  ++ lit "\end{itemize}") ++ post
          = pre ++ concat (map (cons BACKSLASH) entries)) as ->.
  { unfold entries. cbn [map concat]. rewrite map_app, concat_app.
    rewrite items_as_entries. cbn [map concat app].
    rewrite app_nil_r. f_equal. cbn [app]. f_equal.
    by rewrite <- !app_assoc. }
  assert (Forall (λ e, BACKSLASH ∉ e) entries) as Hentries.
  { unfold entries. apply Forall_cons. split.
    - rewrite elem_of_app. intros [Hin|Hin]; [|done].
      revert Hin. by apply (bool_decide_unpack _).
    - apply Forall_app. split; [by apply item_entries_plain|].
      apply Forall_singleton. rewrite elem_of_app. intros [Hin|Hin]; [|done].
      revert Hin. by apply (bool_decide_unpack _). }
  destruct (occurs_at _ _ j) eqn:Ho; [|done]. exfalso.
  change (lit "\begin{enumerate}")
    with (BACKSLASH :: lit "begin{enumerate}") in Ho.
  pose proof (occurs_at_head _ _ _ _ Ho) as Hj.
  apply occurs_at_tail in Ho.
  destruct (backslash_entry entries Hentries pre j Hpre Hj)
    as (e & r & He & Hdrop).
  rewrite Hdrop in Ho. unfold entries in He.
  apply elem_of_cons in He as [->|He]; [by vm_compute in Ho|].
  apply elem_of_app in He as [He|He].
  - apply list_elem_of_In, in_map_iff in He as (it & <- & _).
    by vm_compute in Ho.
  - apply list_elem_of_singleton in He as ->. by vm_compute in Ho.
Qed.

(** X21.  A bullet list: an [itemize] environment whose content is a
    lead text and [\item]s with their texts, in a text without other
    backslashes, becomes a [<ul>] element that holds the items of the
    content, and the text around it is kept. *)
Theorem convert_lists_itemize (pre lead post : str) (items : list str) :
  BACKSLASH ∉ pre → BACKSLASH ∉ lead → BACKSLASH ∉ post →
  Forall (λ it, BACKSLASH ∉ it) items →
  let content := lead ++ concat (map (λ it, lit "\item" ++ it) items) in
  convert_lists
    (pre ++ (lit "\begin{itemize}" ++ content ++ lit "\end{itemize}")
     ++ post)
  = pre ++ (lit "<ul>" ++ html_items content ++ lit "</ul>") ++ post.
Proof.
  intros Hpre Hlead Hpost Hitems content.
  set (O := lit "\begin{itemize}"). set (C := lit "\end{itemize}").
  set (text := pre ++ (O ++ content ++ C) ++ post).
  set (a := length pre + length O).
  unfold convert_lists. cbv zeta.
  assert (re_sub enumerate_re (convert_enumerate text) text = text) as ->.
  { apply re_sub_no_match. intros j. apply match_at_needs_prefix.
    by apply itemize_no_enumerate. }
  assert (slice text a (a + length content) = content) as Hg
    by exact (list_block_group pre lead post items O C).
  assert (rmatch text (RSeq (RGroup 1 (RLazyStar RAnyDotall)) (RLit C)) a []
            (λ j g', Some (j, g'))
          = Some (a + length content + length C,
                  [(1, (a, a + length content))])) as Hbody
    by (by apply (list_block_body pre lead post items O C
                    Hlead Hitems eq_refl (ch "e"))).
  rewrite (re_sub_once itemize_re _ pre (O ++ content ++ C) post
             [(1, (a, a + length content))]).
  - unfold convert_itemize, group_str, group.
    cbn [m_groups group_span Nat.eqb from_option id]. fold text.
    by rewrite Hg.
  - by unfold O.
  - fold text. unfold match_at, itemize_re. cbn [RCat]. fold O C.
    rewrite rmatch_seq, rmatch_lit.
    assert (occurs_at O text (length pre) = true) as ->.
    { pose proof (occurs_at_middle pre (O ++ content ++ C) post) as Hoc.
      rewrite occurs_at_app in Hoc.
      by apply andb_true_iff in Hoc as [HO _]. }
    fold a. rewrite Hbody. do 2 f_equal. unfold a.
    rewrite !length_app. lia.
  - intros i Hi. by apply (list_block_before pre lead post items O C).
  - intros i Hi. by apply (list_block_after pre lead post items O C).
Qed.

Lemma convert_lists_itemize_witness :
  (BACKSLASH ∉ lit "so ") ∧ (BACKSLASH ∉ lit " ") ∧ (BACKSLASH ∉ lit " ok")
  ∧ Forall (λ it, BACKSLASH ∉ it) [lit " one "; lit " two "]
  ∧ convert_lists
      (lit "so \begin{itemize} \item one \item two \end{itemize} ok")
    = lit "so <ul><li>one</li><li>two</li></ul> ok".
Proof.
  assert (BACKSLASH ∉ lit "so ") as H1 by (by apply (bool_decide_unpack _)).
  assert (BACKSLASH ∉ lit " ") as H2 by (by apply (bool_decide_unpack _)).
  assert (BACKSLASH ∉ lit " ok") as H3 by (by apply (bool_decide_unpack _)).
  assert (Forall (λ it, BACKSLASH ∉ it) [lit " one "; lit " two "]) as H4
    by (repeat constructor; by apply (bool_decide_unpack _)).
  split_and!; [done.. |].
  exact (convert_lists_itemize (lit "so ") (lit " ") (lit " ok")
           [lit " one "; lit " two "] H1 H2 H3 H4).
Defined.

(** ** Display environments *)

(** An optional star: taken when it is there, passed over when not. *)
Lemma ropt_star (s : str) (b : bool) (i : nat) (g : groups) (k : cont)
    (x : nat * groups) :
  (if b then s !! i = Some (ch "*") else s !! i ≠ Some (ch "*")) →
  k (i + (if b then 1 else 0)) g = Some x →
  rmatch s (ROpt (RChar (ch "*"))) i g k = Some x.
Proof.
  destruct b; intros Hi Hk.
  - unfold ROpt, RChar. cbn [rmatch].
    destruct (length s) as [|n] eqn:Hn.
    { apply lookup_lt_Some in Hi. lia. }
    change (S (0 + S n)) with (S (S n)).
    cbn [repeat_loop under Nat.leb Nat.ltb andb]. cbv zeta.
    cbn [rmatch]. rewrite Hi, char_eqb_refl.
    replace (i + 1) with (S i) in Hk by lia.
    assert ((S i <=? i) = false) as Hle by (apply Nat.leb_gt; lia).
    cbn [Nat.leb] in Hle. rewrite Hle. by rewrite Hk.
  - rewrite ropt_skip; [by rewrite Nat.add_0_r in Hk|].
    intros k'. unfold RChar. cbn [rmatch].
    destruct (s !! i) as [d|]; [|done].
    destruct (char_eqb (ch "*") d) eqn:E; [|done].
    by apply char_eqb_eq in E as <-.
Qed.

Lemma rmatch_group_lazy (s : str) (n : nat) (r2 : regex) (a : nat)
    (g : groups) (k : cont) :
  rmatch s (RSeq (RGroup n (RLazyStar RAnyDotall)) r2) a g k
  = repeat_loop (rmatch s RAnyDotall) false 0 None
      (λ j g', rmatch s r2 j ((n, (a, j)) :: g') k) (S (length s)) 0 a g.
Proof. done. Qed.

(** The substitution of a display environment, with or without stars at
    its markers, whose body does not hold the close marker. *)
Lemma starred_block_sub (O1 C1 pre body post : str) (b1 b2 : bool)
    (repl : rematch → str) :
  head O1 = Some BACKSLASH → marker C1 →
  BACKSLASH ∉ pre → BACKSLASH ∉ post → find C1 body = None →
  let star (b : bool) : str := if b then lit "*" else [] in
  let block :=
    O1 ++ star b1 ++ lit "}" ++ body ++ C1 ++ star b2 ++ lit "}" in
  let a := length pre + length O1 + length (star b1) + 1 in
  re_sub
    (RSeq (RLit O1)
       (RSeq (ROpt (RChar (ch "*")))
          (RSeq (RLit (lit "}"))
             (RSeq (RGroup 1 (RLazyStar RAnyDotall))
                (RSeq (RLit C1)
                   (RSeq (ROpt (RChar (ch "*"))) (RLit (lit "}"))))))))
    repl (pre ++ block ++ post)
  = pre ++ repl (MkMatch (length pre) (length pre + length block)
                   [(1, (a, a + length body))]) ++ post
  ∧ slice (pre ++ block ++ post) a (a + length body) = body.
Proof.
  intros HO HC Hpre Hpost Hbody star block a.
  set (text := pre ++ block ++ post).
  set (p1 := length pre + length O1).
  set (j := a + length body).
  set (p3 := j + length C1).
  set (p4 := p3 + length (star b2)).
  assert (length block = length O1 + length (star b1) + 1 + length body
                         + length C1 + length (star b2) + 1) as Hlen.
  { unfold block. rewrite !length_app. simpl. lia. }
  assert (length text = length pre + length block + length post) as Htlen
    by (unfold text; rewrite !length_app; lia).
  pose proof (occurs_at_middle pre block post) as Ho. fold text in Ho.
  unfold block in Ho. rewrite !occurs_at_app in Ho.
  change (length (lit "}")) with 1 in Ho.
  fold a in Ho. fold j in Ho. fold p3 in Ho. fold p4 in Ho. fold p1 in Ho.
  apply andb_true_iff in Ho as [HoO Ho].
  apply andb_true_iff in Ho as [Hs1 Ho].
  apply andb_true_iff in Ho as [Hb1 Ho].
  apply andb_true_iff in Ho as [Hob Ho].
  apply andb_true_iff in Ho as [HoC Ho].
  apply andb_true_iff in Ho as [Hs2 Hb2].
  assert (∀ b q, occurs_at (star b) text q = true →
                 occurs_at (lit "}") text (q + length (star b)) = true →
                 if b then text !! q = Some (ch "*")
                 else text !! q ≠ Some (ch "*")) as Hstar.
  { intros [|] q H1 H2.
    - by apply occurs_at_single in H1.
    - cbn [star length] in H2. rewrite Nat.add_0_r in H2.
      apply occurs_at_single in H2. by rewrite H2. }
  assert (∀ b, length (star b) = if b then 1 else 0) as Hsl by (by intros []).
  assert (slice text a (a + length body) = body) as Hg.
  { unfold text, block.
    replace (pre ++ (O1 ++ star b1 ++ lit "}" ++ body ++ C1 ++ star b2
                     ++ lit "}") ++ post)
      with ((pre ++ O1 ++ star b1 ++ lit "}") ++ body
            ++ (C1 ++ star b2 ++ lit "}" ++ post))
      by (by rewrite <- !app_assoc).
    replace a with (length (pre ++ O1 ++ star b1 ++ lit "}"))
      by (unfold a; rewrite !length_app; simpl; lia).
    apply slice_middle. }
  split; [|done].
  apply (re_sub_once _ repl pre block post [(1, (a, a + length body))]).
  - unfold block. by destruct O1.
  - fold text. unfold match_at.
    rewrite rmatch_seq, rmatch_lit, HoO. fold p1.
    rewrite rmatch_seq.
    rewrite (ropt_star text b1 p1 [] _
               (length pre + length block,
                [(1, (a, a + length body))])); [done | by apply Hstar |].
    rewrite <- Hsl. rewrite rmatch_seq, rmatch_lit, Hb1.
    change (length (lit "}")) with 1. fold a.
    rewrite rmatch_group_lazy.
    apply (lazy_any_first text _ []
             (length pre + length block, [(1, (a, a + length body))]) j);
      [unfold j, a; lia | | unfold j; lia | unfold j, a; lia |].
    + cbv beta. rewrite rmatch_seq, rmatch_lit, HoC. fold j p3.
      rewrite rmatch_seq.
      rewrite (ropt_star text b2 p3 _ _
                 (length pre + length block,
                  [(1, (a, a + length body))])); [done | by apply Hstar |].
      rewrite <- Hsl. fold p4. rewrite rmatch_lit, Hb2.
      change (length (lit "}")) with 1. do 2 f_equal.
      unfold p4, p3, j, a. lia.
    + intros j' Hj'. cbv beta. rewrite rmatch_seq, rmatch_lit.
      assert (occurs_at C1 text j' = false) as ->; [|done].
      pose proof (find_after C1 body (star b2 ++ lit "}" ++ post) HC Hbody)
        as Hf.
      apply find_Some in Hf as [_ Hf].
      specialize (Hf (j' - a) ltac:(unfold j in Hj'; lia)).
      rewrite <- Hf. unfold text, block.
      replace (pre ++ (O1 ++ star b1 ++ lit "}" ++ body ++ C1 ++ star b2
                       ++ lit "}") ++ post)
        with ((pre ++ O1 ++ star b1 ++ lit "}")
              ++ (body ++ C1 ++ star b2 ++ lit "}" ++ post))
        by (by rewrite <- !app_assoc).
      replace j' with (length (pre ++ O1 ++ star b1 ++ lit "}") + (j' - a))
        at 1 by (unfold a in *; rewrite !length_app; simpl; lia).
      unfold occurs_at. by rewrite <- drop_drop, drop_app_length.
  - intros i Hi. apply (match_at_needs_head BACKSLASH); [done|].
    by apply lookup_before.
  - intros i Hi. apply (match_at_needs_head BACKSLASH); [done|].
    rewrite app_assoc. apply lookup_after; [done|]. by rewrite length_app.
Qed.

Lemma end_align_marker : marker (lit "\end{align").
Proof.
  exists (lit "end{align"). split; [done | by apply (bool_decide_unpack _)].
Qed.

Lemma end_equation_marker : marker (lit "\end{equation").
Proof.
  exists (lit "end{equation"). split; [done | by apply (bool_decide_unpack _)].
Qed.

(** X22.  An [align] environment, with or without a star at either
    marker, whose body does not hold [\end{align] and which stands in a
    text without other backslashes, becomes a display-math block with the
    body in an [aligned] environment; the text around it is kept. *)
Theorem convert_align_block (pre body post : str) (b1 b2 : bool) :
  BACKSLASH ∉ pre → BACKSLASH ∉ post →
  find (lit "\end{align") body = None →
  convert_align
    (pre ++ (lit "\begin{align" ++ (if b1 then lit "*" else []) ++ lit "}"
             ++ body
             ++ lit "\end{align" ++ (if b2 then lit "*" else []) ++ lit "}")
     ++ post)
  = pre ++ (lit "\[\begin{aligned}" ++ body ++ lit "\end{aligned}\]") ++ post.
Proof.
  intros Hpre Hpost Hbody. unfold convert_align, align_re. cbn [RCat].
  set (text := pre ++ _ ++ post).
  destruct (starred_block_sub (lit "\begin{align") (lit "\end{align")
              pre body post b1 b2
              (λ m, lit "\[\begin{aligned}" ++ group_str text m 1
                    ++ lit "\end{aligned}\]")
              eq_refl end_align_marker Hpre Hpost Hbody) as [Hsub Hg].
  cbv zeta in Hsub, Hg. fold text in Hsub, Hg. rewrite Hsub.
  unfold group_str, group. cbn [m_groups group_span Nat.eqb from_option id].
  by rewrite Hg.
Qed.

Lemma convert_align_block_witness :
  (BACKSLASH ∉ lit "so ") ∧ (BACKSLASH ∉ lit " holds")
  ∧ find (lit "\end{align") (lit "x &\le y") = None
  ∧ convert_align (lit "so \begin{align*}x &\le y\end{align*} holds")
    = lit "so \[\begin{aligned}x &\le y\end{aligned}\] holds".
Proof.
  assert (BACKSLASH ∉ lit "so ") as H1 by (by apply (bool_decide_unpack _)).
  assert (BACKSLASH ∉ lit " holds") as H2
    by (by apply (bool_decide_unpack _)).
  assert (find (lit "\end{align") (lit "x &\le y") = None) as H3
    by (vm_compute; reflexivity).
  split_and!; [done.. |].
  exact (convert_align_block (lit "so ") (lit "x &\le y") (lit " holds")
           true true H1 H2 H3).
Defined.

(** X23.  An [equation] environment, with or without a star at either
    marker, whose body does not hold [\end{equation] and which stands in
    a text without other backslashes, becomes a display-math block of its
    body; the text around it is kept. *)
Theorem convert_equation_block (pre body post : str) (b1 b2 : bool) :
  BACKSLASH ∉ pre → BACKSLASH ∉ post →
  find (lit "\end{equation") body = None →
  convert_equation
    (pre ++ (lit "\begin{equation" ++ (if b1 then lit "*" else [])
             ++ lit "}" ++ body
             ++ lit "\end{equation" ++ (if b2 then lit "*" else [])
             ++ lit "}")
     ++ post)
  = pre ++ (lit "\[" ++ body ++ lit "\]") ++ post.
Proof.
  intros Hpre Hpost Hbody. unfold convert_equation, equation_re. cbn [RCat].
  set (text := pre ++ _ ++ post).
  destruct (starred_block_sub (lit "\begin{equation") (lit "\end{equation")
              pre body post b1 b2
              (λ m, lit "\[" ++ group_str text m 1 ++ lit "\]")
              eq_refl end_equation_marker Hpre Hpost Hbody) as [Hsub Hg].
  cbv zeta in Hsub, Hg. fold text in Hsub, Hg. rewrite Hsub.
  unfold group_str, group. cbn [m_groups group_span Nat.eqb from_option id].
  by rewrite Hg.
Qed.

Lemma convert_equation_block_witness :
  (BACKSLASH ∉ lit "so ") ∧ (BACKSLASH ∉ lit " holds")
  ∧ find (lit "\end{equation") (lit "x \le y") = None
  ∧ convert_equation (lit "so \begin{equation}x \le y\end{equation} holds")
    = lit "so \[x \le y\] holds".
Proof.
  assert (BACKSLASH ∉ lit "so ") as H1 by (by apply (bool_decide_unpack _)).
  assert (BACKSLASH ∉ lit " holds") as H2
    by (by apply (bool_decide_unpack _)).
  assert (find (lit "\end{equation") (lit "x \le y") = None) as H3
    by (vm_compute; reflexivity).
  split_and!; [done.. |].
  exact (convert_equation_block (lit "so ") (lit "x \le y") (lit " holds")
           false false H1 H2 H3).
Defined.

(** ** One definition by [\newcommand] *)

(** Steps of a match, from the continuation backwards. *)
Lemma seq_char (s : str) (c : char) (r : regex) (i : nat) (g : groups)
    (k : cont) (x : nat * groups) :
  s !! i = Some c → rmatch s r (S i) g k = Some x →
  rmatch s (RSeq (RChar c) r) i g k = Some x.
Proof. intros H Hk. by rewrite rmatch_char_here. Qed.

Lemma seq_lit (s m : str) (r : regex) (i : nat) (g : groups) (k : cont)
    (x : nat * groups) :
  occurs_at m s i = true → rmatch s r (i + length m) g k = Some x →
  rmatch s (RSeq (RLit m) r) i g k = Some x.
Proof. intros H Hk. by rewrite rmatch_seq, rmatch_lit, H. Qed.

(** An optional part with one way to match is taken when what follows
    matches after it. *)
Lemma ropt_take (s : str) (r : regex) (i j : nat) (g g1 : groups) (k : cont)
    (x : nat * groups) :
  i < j → j ≤ length s → (∀ K, rmatch s r i g K = K j g1) →
  k j g1 = Some x → rmatch s (ROpt r) i g k = Some x.
Proof.
  intros Hij Hj Hr Hk. unfold ROpt. cbn [rmatch].
  destruct (length s) as [|n] eqn:Hn; [lia|].
  change (S (0 + S n)) with (S (S n)).
  cbn [repeat_loop]. cbv zeta. rewrite Hr.
  assert ((j <=? i) = false) as -> by (apply Nat.leb_gt; lia).
  change (under 0 (Some 1)) with true. change (under 1 (Some 1)) with false.
  change (0 <=? 0) with true. change (0 <=? 1) with true.
  cbn [andb or_else]. by rewrite Hk.
Qed.

Lemma seq_opt_lit (s m part : str) (r : regex) (i : nat) (g : groups)
    (k : cont) (x : nat * groups) :
  (part = m ∧ m ≠ []) ∨ (part = [] ∧ occurs_at m s i = false) →
  occurs_at part s i = true →
  rmatch s r (i + length part) g k = Some x →
  rmatch s (RSeq (ROpt (RLit m)) r) i g k = Some x.
Proof.
  intros [[-> Hm]|[-> Hm]] Ho Hk; rewrite rmatch_seq.
  - apply (ropt_take s (RLit m) i (i + length m) g g); [| | |done].
    + destruct m; [done | simpl; lia].
    + destruct (occurs_at_length _ _ _ Ho); [lia | done].
    + intros K. by rewrite rmatch_lit, Ho.
  - rewrite ropt_skip.
    + by rewrite Nat.add_0_r in Hk.
    + intros k'. by rewrite rmatch_lit, Hm.
Qed.

(** The optional arity [[d]] of a definition. *)
Lemma seq_opt_arity (s : str) (arity : option char) (r : regex) (i : nat)
    (g : groups) (k : cont) (x : nat * groups) :
  match arity with
  | Some d => occurs_at (lit "[" ++ [d] ++ lit "]") s i = true
              ∧ is_decimal d = true
  | None => s !! i ≠ Some (ch "[")
  end →
  rmatch s r (i + match arity with Some _ => 3 | None => 0 end)
    (match arity with Some _ => [(2, (i + 1, i + 2))] | None => [] end ++ g)
    k = Some x →
  rmatch s
    (RSeq (ROpt (RSeq (RLit (lit "["))
                   (RSeq (RGroup 2 (RClass is_decimal)) (RLit (lit "]")))))
       r) i g k = Some x.
Proof.
  destruct arity as [d|]; intros Ha Hk; rewrite rmatch_seq.
  - destruct Ha as [Ho Hd]. pose proof Ho as Ho'.
    rewrite !occurs_at_app in Ho'. change (length (lit "[")) with 1 in Ho'.
    change (length [d]) with 1 in Ho'.
    apply andb_true_iff in Ho' as [H1 [H2 H3]%andb_true_iff].
    apply occurs_at_single in H2.
    apply (ropt_take s _ i (i + 3) g ((2, (i + 1, i + 2)) :: g));
      [lia | | |done].
    + destruct (occurs_at_length _ _ _ Ho) as [Hl|]; [|done].
      rewrite !length_app in Hl. simpl in Hl. lia.
    + intros K. rewrite rmatch_seq, rmatch_lit, H1.
      change (length (lit "[")) with 1. rewrite rmatch_seq. cbn [rmatch].
      rewrite H2, Hd. replace (S (i + 1)) with (i + 1 + 1) by lia.
      rewrite rmatch_lit, H3. change (length (lit "]")) with 1.
      f_equal; [lia|]. do 3 f_equal. lia.
  - rewrite ropt_skip.
    + by rewrite Nat.add_0_r in Hk.
    + intros k'. rewrite rmatch_seq, rmatch_lit.
      destruct (occurs_at (lit "[") s i) eqn:Ho; [|done].
      by apply occurs_at_head in Ho.
Qed.

(** The group of a command name: a backslash and the letters up to the
    first character that is no letter. *)
Lemma seq_command_group (n : nat) (s letters : str) (r : regex) (i : nat)
    (g : groups) (k : cont) (x : nat * groups) :
  occurs_at (BACKSLASH :: letters) s i = true → letters ≠ [] →
  Forall (λ c, is_alpha c = true) letters →
  (∀ c, s !! (i + length (BACKSLASH :: letters)) = Some c →
        is_alpha c = false) →
  rmatch s r (i + length (BACKSLASH :: letters))
    ((n, (i, i + length (BACKSLASH :: letters))) :: g) k = Some x →
  rmatch s
    (RSeq (RGroup n (RSeq (RChar BACKSLASH) (RPlus (RClass is_alpha)))) r)
    i g k = Some x.
Proof.
  intros Ho Hne Hl Hnext Hk. rewrite rmatch_seq. unfold RPlus, RChar.
  change (rmatch s
            (RGroup n (RSeq (RClass (char_eqb BACKSLASH))
                         (RRepeat true 1 None (RClass is_alpha)))) i g
            (λ j g', rmatch s r j g' k))
    with (match s !! i with
          | Some c =>
              if char_eqb BACKSLASH c
              then rmatch s (RRepeat true 1 None (RClass is_alpha)) (S i) g
                     (λ j g', rmatch s r j ((n, (i, j)) :: g') k)
              else None
          | None => None
          end).
  rewrite (occurs_at_head _ _ _ _ Ho), char_eqb_refl.
  cbn [length] in *.
  apply (rmatch_class_greedy s is_alpha 1 _ g x (S i) (i + S (length letters)));
    [destruct letters; [done | simpl; lia] | | | done | done].
  - destruct (occurs_at_length _ _ _ Ho) as [Hlen|]; [|done].
    simpl in Hlen. lia.
  - intros q Hq.
    destruct (lookup_lt_is_Some_2 letters (q - S i)) as [c Hc]; [lia|].
    exists c. split.
    + pose proof (occurs_at_lookup _ _ i (S (q - S i)) c Ho Hc) as H.
      by replace (i + S (q - S i)) with q in H by lia.
    + rewrite Forall_forall in Hl. apply Hl.
      by eapply list_elem_of_lookup_2.
Qed.

(** A lazy [.+?] hands to its continuation the first offset after at
    least one character at which the continuation succeeds. *)
Lemma lazy_plus_first (s : str) (k : cont) (g : groups) (x : nat * groups)
    (j : nat) :
  j ≤ length s → k j g = Some x →
  ∀ fuel n i,
    i ≤ j → j - i < fuel → (n = 0 → i < j) →
    (∀ j', i ≤ j' < j → 1 ≤ n + (j' - i) → k j' g = None) →
    (∀ q, i ≤ q < j → s !! q ≠ Some NL) →
    repeat_loop (rmatch s RAny) false 1 None k fuel n i g = Some x.
Proof.
  intros Hj Hk. induction fuel as [|fuel IH];
    intros n i Hi Hf Hn Hnone Hline; [lia|].
  cbn [repeat_loop under]. cbv zeta. unfold or_else.
  assert (∀ n', i < j →
            rmatch s RAny i g
              (λ j0 g', if (1 <=? n) && (j0 <=? i) then None
                        else repeat_loop (rmatch s RAny) false 1 None k fuel
                               n' j0 g')
            = repeat_loop (rmatch s RAny) false 1 None k fuel n' (S i) g)
    as Hstep.
  { intros n' Hlt. unfold RAny. cbn [rmatch].
    destruct (lookup_lt_is_Some_2 s i) as [c Hc]; [lia|]. rewrite Hc.
    destruct (char_eqb c NL) eqn:E.
    { apply char_eqb_eq in E as ->. by apply Hline in Hc; [|lia]. }
    cbn [negb].
    assert ((S i <=? i) = false) as -> by (apply Nat.leb_gt; lia).
    by rewrite andb_false_r. }
  destruct (Nat.leb_spec 1 n) as [Hle|Hgt].
  - destruct (decide (i = j)) as [->|Hne]; [by rewrite Hk|].
    rewrite Hnone by lia. rewrite Hstep by lia.
    apply IH; [lia | lia | lia | | ].
    + intros j' Hj' _. apply Hnone; lia.
    + intros q Hq. apply Hline. lia.
  - assert (n = 0) as -> by lia. specialize (Hn eq_refl).
    rewrite Hstep by lia.
    apply IH; [lia | lia | lia | | ].
    + intros j' Hj' _. apply Hnone; lia.
    + intros q Hq. apply Hline. lia.
Qed.

(** The end of a definition: the close brace, white space and the end of
    the text. *)
Lemma line_end_match (s ws : str) (j : nat) (g : groups) :
  occurs_at (lit "}" ++ ws) s j = true → j + 1 + length ws = length s →
  Forall (λ c, is_space c = true) ws →
  rmatch s
    (RSeq (RLit (lit "}")) (RSeq (RStar (RClass is_space)) (REol true)))
    j g (λ j g', Some (j, g'))
  = Some (length s, g).
Proof.
  intros Ho Hlen Hws. pose proof Ho as Ho'. rewrite occurs_at_app in Ho'.
  change (length (lit "}")) with 1 in Ho'.
  apply andb_true_iff in Ho' as [H1 H2].
  apply seq_lit; [done|]. change (length (lit "}")) with 1.
  rewrite rmatch_seq. unfold RStar.
  apply (rmatch_class_greedy s is_space 0 _ g _ (j + 1) (length s));
    [lia | lia | | | ].
  - intros q Hq.
    destruct (lookup_lt_is_Some_2 ws (q - (j + 1))) as [c Hc]; [lia|].
    exists c. split.
    + pose proof (occurs_at_lookup _ _ (j + 1) (q - (j + 1)) c H2 Hc) as H.
      by replace (j + 1 + (q - (j + 1))) with q in H by lia.
    + rewrite Forall_forall in Hws. apply Hws.
      by eapply list_elem_of_lookup_2.
  - intros c Hc. apply lookup_lt_Some in Hc. lia.
  - cbn [rmatch]. by rewrite Nat.eqb_refl.
Qed.

(** A close brace inside the body does not end the definition: the line
    goes on to the last close brace. *)
Lemma line_end_fail (s : str) (j pc : nat) (g : groups) :
  j < pc → s !! pc = Some (ch "}") →
  (∀ q, j < q < pc → s !! q ≠ Some NL) →
  rmatch s
    (RSeq (RLit (lit "}")) (RSeq (RStar (RClass is_space)) (REol true)))
    j g (λ j g', Some (j, g'))
  = None.
Proof.
  intros Hj Hpc Hline.
  destruct (rmatch _ _ _ _ _) as [x|] eqn:H; [|done]. exfalso.
  rewrite rmatch_seq, rmatch_lit in H.
  destruct (occurs_at (lit "}") s j); [|done].
  change (length (lit "}")) with 1 in H. rewrite rmatch_seq in H.
  apply rmatch_class_inv in H as (e & He & Hrun & H).
  assert (e ≤ pc) as Hle.
  { destruct (decide (e ≤ pc)) as [|Hgt]; [done|].
    destruct (Hrun pc) as (c & Hc & Hsp); [lia|].
    rewrite Hpc in Hc. by injection Hc as <-. }
  pose proof (lookup_lt_Some _ _ _ Hpc) as Hlt.
  cbn [rmatch] in H.
  destruct (Nat.eqb_spec e (length s)) as [|_]; [lia|]. cbn [orb] in H.
  destruct (bool_decide (s !! e = Some NL)) eqn:Hnl; [|done].
  apply bool_decide_eq_true in Hnl.
  destruct (decide (e = pc)) as [->|]; [by rewrite Hpc in Hnl|].
  by apply (Hline e); [lia|].
Qed.

Lemma rmatch_group_lazy_plus (s : str) (n : nat) (r2 : regex) (a : nat)
    (g : groups) (k : cont) :
  rmatch s (RSeq (RGroup n (RLazyPlus RAny)) r2) a g k
  = repeat_loop (rmatch s RAny) false 1 None
      (λ j g', rmatch s r2 j ((n, (a, j)) :: g') k) (S (1 + length s)) 0 a g.
Proof. done. Qed.

Lemma occurs_at_eq (m s : str) (i j : nat) :
  i = j → occurs_at m s i = true → occurs_at m s j = true.
Proof. by intros ->. Qed.

Lemma re_finditer_none (r : regex) (s : str) :
  (∀ j, match_at r s j = None) → re_finditer r s = [].
Proof.
  intros H. unfold re_finditer. cbn [finditer_loop].
  destruct (length s <? 0); [done|].
  unfold re_search. by rewrite search_loop_None.
Qed.

(** The one match of the definition pattern in a text that ends with a
    definition. *)
Lemma newcommand_match (pre letters body ws : str) (renew : bool)
    (arity : option char) :
  letters ≠ [] → Forall (λ c, is_alpha c = true) letters →
  body ≠ [] → NL ∉ body → Forall (λ c, is_space c = true) ws →
  (∀ d, arity = Some d → is_decimal d = true) →
  let s := pre ++ newcommand_text renew letters arity body ws in
  ∃ m,
    match_at newcommand_re s (length pre) = Some m
    ∧ m_start m = length pre ∧ m_end m = length s
    ∧ group_str s m 1 = BACKSLASH :: letters
    ∧ group s m 2 = (λ d, [d]) <$> arity
    ∧ group_str s m 3 = body.
Proof.
  intros Hne Hl Hbody Hnl Hws Hdec s.
  set (re_part := if renew then lit "re" else []).
  set (arity_part :=
         match arity with Some d => lit "[" ++ [d] ++ lit "]" | None => [] end).
  set (alen := match arity with Some _ => 3 | None => 0 end).
  set (p0 := length pre). set (p1 := S p0).
  set (p2 := p1 + length re_part).
  set (p3 := p2 + length (lit "newcommand{")).
  set (p4 := p3 + length (BACKSLASH :: letters)).
  set (p5 := p4 + length (lit "}")).
  set (p6 := p5 + alen).
  set (p7 := p6 + length (lit "{")).
  set (p8 := p7 + length body).
  set (G := (3, (p7, p8))
            :: (match arity with
                | Some _ => [(2, (p5 + 1, p5 + 2))]
                | None => []
                end ++ [(1, (p3, p4))])).
  assert (length arity_part = alen) as Hal by (by destruct arity).
  assert (length s = p8 + 1 + length ws) as Hlen.
  { unfold s, newcommand_text. fold re_part arity_part.
    rewrite !length_app. unfold p8, p7, p6, p5, p4, p3, p2, p1, p0.
    rewrite <- Hal. cbn [length]. change (length (lit "}")) with 1.
    change (length (lit "{")) with 1. lia. }
  pose proof (occurs_at_middle pre
                (newcommand_text renew letters arity body ws) []) as Ho.
  rewrite app_nil_r in Ho. fold s in Ho.
  unfold newcommand_text in Ho. fold re_part arity_part in Ho.
  rewrite !occurs_at_app in Ho. rewrite Hal in Ho.
  apply andb_true_iff in Ho as [H0 Ho].
  apply andb_true_iff in Ho as [H1 Ho].
  apply andb_true_iff in Ho as [H2 Ho].
  apply andb_true_iff in Ho as [H3 Ho].
  apply andb_true_iff in Ho as [H4 Ho].
  apply andb_true_iff in Ho as [H5 Ho].
  apply andb_true_iff in Ho as [H6 Ho].
  apply andb_true_iff in Ho as [H7 Ho].
  apply andb_true_iff in Ho as [H8 H9].
  apply occurs_at_single in H0.
  assert (occurs_at re_part s p1 = true) as F1.
  { eapply occurs_at_eq; [|exact H1]. unfold p1, p0. cbn [length]. lia. }
  assert (occurs_at (lit "newcommand{") s p2 = true) as F2.
  { eapply occurs_at_eq; [|exact H2]. unfold p2, p1, p0. cbn [length]. lia. }
  assert (occurs_at (BACKSLASH :: letters) s p3 = true) as F3.
  { eapply occurs_at_eq; [|exact H3].
    unfold p3, p2, p1, p0. cbn [length]. lia. }
  assert (occurs_at (lit "}") s p4 = true) as F4.
  { eapply occurs_at_eq; [|exact H4].
    unfold p4, p3, p2, p1, p0. cbn [length]. lia. }
  assert (occurs_at arity_part s p5 = true) as F5.
  { eapply occurs_at_eq; [|exact H5].
    unfold p5, p4, p3, p2, p1, p0. cbn [length]. lia. }
  assert (occurs_at (lit "{") s p6 = true) as F6.
  { eapply occurs_at_eq; [|exact H6].
    unfold p6, p5, p4, p3, p2, p1, p0. cbn [length]. lia. }
  assert (occurs_at body s p7 = true) as F7.
  { eapply occurs_at_eq; [|exact H7].
    unfold p7, p6, p5, p4, p3, p2, p1, p0. cbn [length]. lia. }
  assert (occurs_at (lit "}") s p8 = true) as F8.
  { eapply occurs_at_eq; [|exact H8].
    unfold p8, p7, p6, p5, p4, p3, p2, p1, p0. cbn [length]. lia. }
  assert (occurs_at (lit "}" ++ ws) s p8 = true) as F9.
  { rewrite occurs_at_app, F8. cbn [andb].
    eapply occurs_at_eq; [|exact H9].
    unfold p8, p7, p6, p5, p4, p3, p2, p1, p0. cbn [length]. lia. }
  assert (∀ q, p7 ≤ q < p8 → s !! q ≠ Some NL) as Hline.
  { intros q Hq Hc.
    destruct (lookup_lt_is_Some_2 body (q - p7)) as [c Hb];
      [unfold p8 in Hq; lia|].
    pose proof (occurs_at_lookup _ _ p7 (q - p7) c F7 Hb) as H.
    replace (p7 + (q - p7)) with q in H by lia.
    rewrite H in Hc. injection Hc as ->. apply Hnl.
    by eapply list_elem_of_lookup_2. }
  assert (rmatch s
            (RSeq (RChar BACKSLASH)
               (RSeq (ROpt (RLit (lit "re")))
                  (RSeq (RLit (lit "newcommand{"))
                     (RSeq (RGroup 1 (RSeq (RChar BACKSLASH)
                                        (RPlus (RClass is_alpha))))
                        (RSeq (RLit (lit "}"))
                           (RSeq (ROpt (RSeq (RLit (lit "["))
                                          (RSeq (RGroup 2 (RClass is_decimal))
                                             (RLit (lit "]")))))
                              (RSeq (RLit (lit "{"))
                                 (RSeq (RGroup 3 (RLazyPlus RAny))
                                    (RSeq (RLit (lit "}"))
                                       (RSeq (RStar (RClass is_space))
                                          (REol true))))))))))) p0 []
            (λ j g', Some (j, g'))
          = Some (length s, G)) as Hr.
  { apply seq_char; [done|]. fold p1.
    apply (seq_opt_lit s (lit "re") re_part); [|done|]. 
    { unfold re_part. destruct renew; [by left | right]. split; [done|].
      destruct (occurs_at (lit "re") s p1) eqn:E; [|done].
      apply occurs_at_head in E.
      replace p2 with p1 in F2 by (unfold p2, re_part; simpl; lia).
      apply occurs_at_head in F2. rewrite F2 in E. discriminate. }
    fold p2. apply seq_lit; [done|]. fold p3.
    apply (seq_command_group 1 s letters); [done | done | done | | ].
    { fold p4. intros c Hc. apply occurs_at_head in F4.
      rewrite F4 in Hc. by injection Hc as <-. }
    fold p4. apply seq_lit; [done|]. fold p5.
    apply (seq_opt_arity s arity).
    { unfold arity_part in F5. destruct arity as [d|]; [by auto|].
      replace p6 with p5 in F6 by (unfold p6, alen; lia).
      apply occurs_at_head in F6. by rewrite F6. }
    fold alen p6. apply seq_lit; [done|]. fold p7.
    rewrite rmatch_group_lazy_plus.
    apply (lazy_plus_first s _ _ _ p8); [lia | | lia | lia | | | done].
    - cbv beta. rewrite (line_end_match s ws p8); [done | done | lia | done].
    - intros _. unfold p8.
      destruct (decide (length body = 0)) as [E%nil_length_inv|]; [done | lia].
    - intros j' Hj' _. cbv beta.
      apply (line_end_fail s j' p8); [lia | by apply occurs_at_head in F8 |].
      intros q Hq. apply Hline. lia. }
  exists (MkMatch p0 (length s) G). split_and!.
  - unfold match_at, newcommand_re. cbn [RCat]. by rewrite Hr.
  - done.
  - done.
  - unfold group_str, group, G. cbn [m_groups group_span Nat.eqb].
    rewrite group_span_app by (destruct arity; repeat constructor; done).
    cbn [group_span Nat.eqb default from_option id].
    unfold p4. by apply occurs_at_slice.
  - unfold group, G. cbn [m_groups group_span Nat.eqb].
    destruct arity as [d|]; cbn [app group_span Nat.eqb fmap option_fmap
                                 option_map]; [|done].
    f_equal. unfold arity_part in F5. rewrite !occurs_at_app in F5.
    apply andb_true_iff in F5 as [_ [F5 _]%andb_true_iff].
    change (length (lit "[")) with 1 in F5.
    replace (p5 + 2) with (p5 + 1 + length [d]) by (simpl; lia).
    by apply occurs_at_slice.
  - unfold group_str, group, G.
    cbn [m_groups group_span Nat.eqb default from_option id].
    unfold p8. by apply occurs_at_slice.
Qed.

(** X24.  A text that ends with one definition by [\newcommand] or
    [\renewcommand], with or without an arity, whose body is not empty
    and holds no line break, after a text without backslash, and that
    holds no [\Declare]: the macro table has exactly one entry, with the
    name, the value of the arity digit (0 without one) and the whole body
    up to the last close brace. *)
Theorem parse_macros_newcommand (pre letters body ws : str) (renew : bool)
    (arity : option char) :
  BACKSLASH ∉ pre → letters ≠ [] → Forall (λ c, is_alpha c = true) letters →
  body ≠ [] → NL ∉ body → Forall (λ c, is_space c = true) ws →
  (∀ d, arity = Some d → is_decimal d = true) →
  find (lit "\Declare")
    (pre ++ newcommand_text renew letters arity body ws) = None →
  parse_macros (pre ++ newcommand_text renew letters arity body ws)
  = [(BACKSLASH :: letters,
      match arity with Some d => default 0 (digit_value d) | None => 0 end,
      body)].
Proof.
  intros Hpre Hne Hl Hbody Hnl Hws Hdec Hdecl.
  destruct (newcommand_match pre letters body ws renew arity
              Hne Hl Hbody Hnl Hws Hdec)
    as (m & Hm & Hstart & Hend & Hg1 & Hg2 & Hg3).
  set (s := pre ++ newcommand_text renew letters arity body ws) in *.
  assert (length pre < length s) as Hlt.
  { unfold s, newcommand_text. rewrite !length_app. simpl. lia. }
  assert (re_finditer newcommand_re s = [m]) as Hnew.
  { apply re_finditer_single.
    - by rewrite Hstart.
    - rewrite Hstart. intros i Hi. unfold newcommand_re. cbn [RCat].
      apply match_at_needs_char. by apply lookup_before.
    - rewrite Hend. intros i Hi. unfold newcommand_re. cbn [RCat].
      apply match_at_needs_char. by rewrite lookup_ge_None_2.
    - rewrite Hstart, Hend. lia. }
  assert (∀ tail rest, re_finditer (RSeq (RLit (lit "\Declare" ++ tail)) rest) s
                       = []) as Hnone.
  { intros tail rest. apply re_finditer_none. intros j.
    apply match_at_needs_prefix.
    by rewrite occurs_at_app, (find_None _ _ j Hdecl). }
  unfold parse_macros. rewrite Hnew.
  unfold mathoperator_re, documentcommand_re, paireddelimiter_re.
  cbn [RCat].
  change (lit "\DeclareMathOperator{")
    with (lit "\Declare" ++ lit "MathOperator{").
  change (lit "\DeclareDocumentCommand\")
    with (lit "\Declare" ++ lit "DocumentCommand\").
  change (lit "\DeclarePairedDelimiter\")
    with (lit "\Declare" ++ lit "PairedDelimiter\").
  rewrite !Hnone. cbn [map app]. unfold newcommand_entry. cbv zeta.
  rewrite Hg1, Hg2, Hg3. destruct arity as [d|]; [|done].
  cbn [fmap option_fmap option_map].
  by rewrite bool_decide_eq_false_2 by done.
Qed.

Lemma parse_macros_newcommand_witness :
  (BACKSLASH ∉ lit "% norms ") ∧ lit "norm" ≠ []
  ∧ Forall (λ c, is_alpha c = true) (lit "norm")
  ∧ lit "\lVert #1 \rVert" ≠ [] ∧ (NL ∉ lit "\lVert #1 \rVert")
  ∧ Forall (λ c, is_space c = true) [NL]
  ∧ find (lit "\Declare")
      (lit "% norms \newcommand{\norm}[1]{\lVert #1 \rVert}" ++ [NL]) = None
  ∧ parse_macros
      (lit "% norms \newcommand{\norm}[1]{\lVert #1 \rVert}" ++ [NL])
    = [(lit "\norm", 1, lit "\lVert #1 \rVert")].
Proof.
  assert (BACKSLASH ∉ lit "% norms ") as H1
    by (by apply (bool_decide_unpack _)).
  assert (lit "norm" ≠ []) as H2 by done.
  assert (Forall (λ c, is_alpha c = true) (lit "norm")) as H3
    by (by repeat constructor).
  assert (lit "\lVert #1 \rVert" ≠ []) as H4 by done.
  assert (NL ∉ lit "\lVert #1 \rVert") as H5
    by (by apply (bool_decide_unpack _)).
  assert (Forall (λ c, is_space c = true) [NL]) as H6
    by (by repeat constructor).
  assert (∀ d, Some (ch "1") = Some d → is_decimal d = true) as H7
    by (by intros d [= <-]).
  assert (find (lit "\Declare")
            (lit "% norms \newcommand{\norm}[1]{\lVert #1 \rVert}" ++ [NL])
          = None) as H8 by (vm_compute; reflexivity).
  split_and!; [done.. |].
  exact (parse_macros_newcommand (lit "% norms ") (lit "norm")
           (lit "\lVert #1 \rVert") [NL] false (Some (ch "1"))
           H1 H2 H3 H4 H5 H6 H7 H8).
Defined.

(** ** One pass of the expander, without arguments *)

Lemma letter_follows_drop (s : str) (j : nat) :
  letter_follows (drop j s)
  = match s !! j with Some c => is_alpha c | None => false end.
Proof.
  destruct (s !! j) as [c|] eqn:E.
  - by rewrite (drop_S _ _ _ E).
  - rewrite drop_ge; [done|]. by apply lookup_ge_None.
Qed.

Lemma letter_follows_app (a b : str) :
  letter_follows b = false → letter_follows (a ++ b) = letter_follows a.
Proof. intros H. by destruct a. Qed.

Lemma letter_follows_join (a b : str) :
  letter_follows a = false → letter_follows b = false →
  letter_follows (a ++ b) = false.
Proof. intros Ha Hb. by destruct a. Qed.

Lemma control_word_head (name : str) :
  control_word name → ∀ t, letter_follows (name ++ t) = false.
Proof. by intros (l & -> & _) t. Qed.

(** The pattern of a definition without arguments matches at the calls of
    its name. *)
Lemma match_at_arity0 (name s : str) (i : nat) :
  match_at (arity0_re name) s i
  = if call_at name s i then Some (MkMatch i (i + length name) []) else None.
Proof.
  unfold match_at, arity0_re, call_at.
  change (rmatch s (RSeq (RLit name) (RAhead false (RClass is_alpha))) i []
            (λ j g, Some (j, g)))
    with (rmatch s (RLit name) i []
            (λ j g, rmatch s (RAhead false (RClass is_alpha)) j g
                      (λ j' g', Some (j', g')))).
  rewrite rmatch_lit. destruct (occurs_at name s i); [|done].
  cbn [rmatch andb]. rewrite letter_follows_drop.
  destruct (s !! (i + length name)) as [c|]; [|done].
  by destruct (is_alpha c).
Qed.

Lemma search_loop_before (r : regex) (s : str) (fuel i : nat) (m : rematch) :
  search_loop r s fuel i = Some m →
  ∀ j, i ≤ j < m_start m → match_at r s j = None.
Proof.
  revert i. induction fuel as [|fuel IH]; intros i; cbn [search_loop];
    destruct (match_at r s i) as [m'|] eqn:Hm; try done.
  - intros [= ->]. destruct (match_at_inv _ _ _ _ Hm) as [-> _]. lia.
  - intros [= ->]. destruct (match_at_inv _ _ _ _ Hm) as [-> _]. lia.
  - intros H j Hj. destruct (decide (j = i)) as [->|]; [done|].
    apply (IH _ H). lia.
Qed.

Lemma search_loop_nothing (r : regex) (s : str) (fuel i : nat) :
  search_loop r s fuel i = None →
  ∀ j, i ≤ j ≤ i + fuel → match_at r s j = None.
Proof.
  revert i. induction fuel as [|fuel IH]; intros i; cbn [search_loop];
    destruct (match_at r s i) as [m'|] eqn:Hm; try done.
  - intros _ j Hj. by replace j with i by lia.
  - intros H j Hj. destruct (decide (j = i)) as [->|]; [done|].
    apply (IH _ H). lia.
Qed.

Lemma call_at_length (name s : str) (i : nat) :
  name ≠ [] → call_at name s i = true → i + length name ≤ length s.
Proof.
  intros Hn [Ho _]%andb_true_iff.
  by destruct (occurs_at_length _ _ _ Ho).
Qed.

Lemma call_at_drop (name s : str) (p i : nat) :
  call_at name (drop p s) i = call_at name s (p + i).
Proof.
  unfold call_at. rewrite occurs_at_drop, drop_drop.
  by rewrite Nat.add_assoc.
Qed.

Lemma call_at_app_r (name a b : str) (i : nat) :
  call_at name (a ++ b) (length a + i) = call_at name b i.
Proof.
  rewrite <- (call_at_drop name (a ++ b) (length a) i).
  by rewrite drop_app_length.
Qed.

Lemma starts_with_letters (l a b : str) :
  Forall (λ c, is_alpha c = true) l → letter_follows b = false →
  starts_with l (a ++ b) = starts_with l a.
Proof.
  intros Hl Hb. revert a. induction Hl as [|c l Hc _ IH]; intros a; [done|].
  destruct a as [|x a]; cbn [app].
  - destruct b as [|y b]; [done|]. cbn [starts_with letter_follows] in *.
    destruct (char_eqb c y) eqn:E; [|done].
    apply char_eqb_eq in E as ->. congruence.
  - cbn [starts_with]. by rewrite IH.
Qed.

(** A call in the first part of a text that goes on with something other
    than a letter is a call in the first part alone. *)
Lemma call_at_app_l (name a b : str) (i : nat) :
  control_word name → letter_follows b = false → i < length a →
  call_at name (a ++ b) i = call_at name a i.
Proof.
  intros (l & -> & _ & Hl) Hb Hi. unfold call_at.
  assert (occurs_at (BACKSLASH :: l) (a ++ b) i
          = occurs_at (BACKSLASH :: l) a i) as ->.
  { unfold occurs_at. rewrite drop_app_le by lia.
    destruct (drop i a) as [|x d] eqn:E.
    - apply (f_equal length) in E. rewrite length_drop in E. simpl in E. lia.
    - cbn [app starts_with]. by rewrite starts_with_letters. }
  destruct (occurs_at (BACKSLASH :: l) a i) eqn:Ho; [|done].
  cbn [andb]. destruct (occurs_at_length _ _ _ Ho) as [Hle|]; [|done].
  rewrite drop_app_le by done. by rewrite letter_follows_app.
Qed.

Section arity0.
Variables (name template s : str).
Hypothesis name_word : control_word name.
Hypothesis template_head : letter_follows template = false.

(** The substitution of the calls of [name] from offset [pos] on: the
    result goes on with something other than a letter when the text does
    from [pos], and a command that the template does not hold is called
    nowhere in the result when each of its calls in the text, from [pos]
    on, is a call of [name]. *)
Lemma stitch_arity0 (fuel : nat) :
  ∀ pos, pos ≤ length s → length s - pos < fuel →
    let out := stitch (λ _, template) s pos
                 (finditer_loop (arity0_re name) s fuel pos) in
    (letter_follows (drop pos s) = false → letter_follows out = false)
    ∧ ∀ n', control_word n' → find n' template = None →
            (∀ i, pos ≤ i → call_at n' s i = true → call_at name s i = true) →
            quiet n' out.
Proof.
  assert (name ≠ []) as Hne by (by destruct name_word as (l & -> & _)).
  induction fuel as [|fuel IH]; intros pos Hpos Hfuel; [lia|].
  cbn [finditer_loop]. destruct (Nat.ltb_spec (length s) pos) as [|_]; [lia|].
  destruct (re_search (arity0_re name) s pos) as [m|] eqn:Hm.
  - pose proof Hm as Hfirst. unfold re_search in Hfirst.
    rewrite Nat.min_l in Hfirst by done.
    pose proof (search_loop_before _ _ _ _ _ Hfirst) as Hbefore.
    clear Hfirst.
    apply re_search_inv in Hm as (H1 & H2 & H3); [|done].
    destruct m as [p e gs]. cbn [m_start m_end] in *.
    rewrite match_at_arity0 in H3.
    destruct (call_at name s p) eqn:Hcall; [|done]. injection H3 as <- <-.
    pose proof (call_at_length _ _ _ Hne Hcall) as Hlen.
    assert (0 < length name) as Hpos' by (destruct name; [done|simpl; lia]).
    destruct (Nat.eqb_spec (p + length name) p) as [|_]; [lia|].
    cbn [stitch m_start m_end]. cbv zeta.
    destruct (IH (p + length name)) as [Hb Hq]; [lia | lia |].
    set (out' := stitch (λ _, template) s (p + length name)
                   (finditer_loop (arity0_re name) s fuel (p + length name)))
      in *.
    assert (letter_follows out' = false) as Hout'.
    { apply Hb. by apply andb_true_iff in Hcall as [_ ?%negb_true_iff]. }
    assert (letter_follows (template ++ out') = false) as Htail
      by (by apply letter_follows_join).
    assert (drop pos s = slice s pos p ++ drop p s) as Hsplit.
    { unfold slice. replace p with (pos + (p - pos)) at 2 by lia.
      rewrite <- drop_drop. by rewrite take_drop. }
    assert (letter_follows (drop p s) = false) as Hp.
    { apply andb_true_iff in Hcall as [Ho _]. unfold occurs_at in Ho.
      apply starts_with_prefix in Ho as [k ->].
      by apply control_word_head. }
    assert (length (slice s pos p) = p - pos) as Hg.
    { unfold slice. rewrite length_take, length_drop. lia. }
    split.
    + rewrite Hsplit. destruct (slice s pos p) as [|c g]; [|done].
      by intros _.
    + intros n' Hn' Hfind Hcalls i.
      destruct (Nat.lt_ge_cases i (p - pos)) as [Hi|Hi].
      * rewrite call_at_app_l by (done || lia).
        destruct (call_at n' (slice s pos p) i) eqn:E; [|done].
        rewrite <- (call_at_app_l n' _ (drop p s)) in E by (done || lia).
        rewrite <- Hsplit, call_at_drop in E.
        pose proof (Hcalls (pos + i) ltac:(lia) E) as Hc.
        pose proof (Hbefore (pos + i) ltac:(lia)) as Hnone.
        rewrite match_at_arity0, Hc in Hnone. done.
      * replace i with (length (slice s pos p) + (i - (p - pos))) by lia.
        rewrite call_at_app_r.
        destruct (Nat.lt_ge_cases (i - (p - pos)) (length template))
          as [Ht|Ht].
        -- rewrite call_at_app_l by done.
           unfold call_at. by rewrite (find_None _ _ _ Hfind).
        -- replace (i - (p - pos))
             with (length template + (i - (p - pos) - length template))
             by lia.
           rewrite call_at_app_r. apply Hq; [done | done |].
           intros j Hj. apply Hcalls. lia.
  - cbn [stitch]. cbv zeta. split; [done|].
    intros n' Hn' Hfind Hcalls i. rewrite call_at_drop.
    destruct (call_at n' s (pos + i)) eqn:E; [|done].
    assert (n' ≠ []) as Hne' by (by destruct Hn' as (l & -> & _)).
    pose proof (call_at_length _ _ _ Hne' E) as Hlen.
    pose proof (Hcalls (pos + i) ltac:(lia) E) as Hc.
    unfold re_search in Hm. rewrite Nat.min_l in Hm by done.
    pose proof (search_loop_nothing _ _ _ _ Hm (pos + i) ltac:(lia)) as Hnone.
    rewrite match_at_arity0, Hc in Hnone. done.
Qed.

(** One definition without arguments applied to a text: a command that
    the template does not hold is not called in the result, when it is
    the command of the definition or was not called in the text. *)
Lemma expand_one_quiet (n' : str) :
  control_word n' → find n' template = None →
  n' = name ∨ quiet n' s →
  quiet n' (expand_one s (name, 0, template)).
Proof.
  intros Hn' Hfind Hor. unfold expand_one. cbn [Nat.eqb].
  unfold re_sub, re_finditer.
  destruct (stitch_arity0 (S (length s)) 0) as [_ H]; [lia | lia |].
  apply H; [done | done |]. intros i _ Hi.
  destruct Hor as [->|Hq]; [done|]. by rewrite Hq in Hi.
Qed.
End arity0.

(** A definition that takes none of the branches, or whose command is
    called nowhere, leaves the text as it is. *)
Lemma expand_one_idle (text : str) (mac : macro) :
  mac.1.2 ≠ 1 → mac.1.2 ≠ 2 → (mac.1.2 = 0 → quiet mac.1.1 text) →
  expand_one text mac = text.
Proof.
  destruct mac as [[name num_args] replacement]. cbn [fst snd].
  intros H1 H2 H0. unfold expand_one.
  destruct num_args as [|[|[|n]]]; [|done..]. cbn [Nat.eqb].
  apply re_sub_no_match. intros j. rewrite match_at_arity0.
  by rewrite (H0 eq_refl j).
Qed.

Lemma expand_pass_idle (macros : list macro) (text : str) :
  Forall (λ m : macro, m.1.2 ≠ 1 ∧ m.1.2 ≠ 2
                       ∧ (m.1.2 = 0 → quiet m.1.1 text)) macros →
  expand_pass macros text = text.
Proof.
  unfold expand_pass. induction 1 as [|mac macros (H1 & H2 & H0) _ IH];
    [done|].
  cbn [foldl]. by rewrite expand_one_idle.
Qed.

(** After one pass a command that no template holds is called nowhere,
    when it is the command of a definition without arguments of the table
    or was not called in the text. *)
Lemma expand_pass_quiet (macros : list macro) (n' : str) :
  control_word n' →
  Forall (λ m : macro, control_word m.1.1 ∧ m.1.2 ≠ 1 ∧ m.1.2 ≠ 2
                       ∧ letter_follows m.2 = false
                       ∧ find n' m.2 = None) macros →
  ∀ text,
    quiet n' text ∨ (∃ m, m ∈ macros ∧ m.1.1 = n' ∧ m.1.2 = 0) →
    quiet n' (expand_pass macros text).
Proof.
  intros Hn'. unfold expand_pass.
  induction 1 as [|mac macros (Hw & H1 & H2 & Hl & Hf) _ IH]; intros text Hor.
  { destruct Hor as [|(m & Hm & _)]; [done|]. by apply elem_of_nil in Hm. }
  cbn [foldl]. apply IH.
  destruct mac as [[name num_args] template]. cbn [fst snd] in *.
  destruct num_args as [|[|[|n]]]; [|done|done|].
  - destruct Hor as [Hq|(m & Hm & Hname & Har)].
    + left. apply expand_one_quiet; auto.
    + apply elem_of_cons in Hm as [->|Hm].
      * left. cbn [fst snd] in Hname. apply expand_one_quiet; auto.
      * right. by exists m.
  - change (expand_one text (name, S (S (S n)), template)) with text.
    destruct Hor as [Hq|(m & Hm & Hname & Har)]; [by left|].
    apply elem_of_cons in Hm as [->|Hm]; [done|]. right. by exists m.
Qed.

(** C4, as the code has it.  For every text and every table of macros
    whose names are commands (a backslash and ASCII letters, as
    [parse_macros] builds them), none of arity 1 or 2, in which no
    template holds a macro name and no template starts with an ASCII
    letter, one pass reaches a fixed point: a second and a third pass
    leave the text unchanged, [expand_macros] returns the text of the
    first pass, and expanding its result again changes nothing. *)
Theorem expansion_fixed_point (text : str) (macros : list macro) :
  Forall (λ m : macro, control_word m.1.1) macros →
  Forall (λ m : macro, m.1.2 ≠ 1 ∧ m.1.2 ≠ 2) macros →
  (∀ m m' : macro, m ∈ macros → m' ∈ macros → find m'.1.1 m.2 = None) →
  Forall (λ m : macro, letter_follows m.2 = false) macros →
  expand_pass macros (expand_pass macros text) = expand_pass macros text
  ∧ expand_pass macros (expand_pass macros (expand_pass macros text))
    = expand_pass macros text
  ∧ expand_macros text macros = expand_pass macros text
  ∧ expand_macros (expand_macros text macros) macros
    = expand_macros text macros.
Proof.
  intros Hw Ha Hf Hl.
  assert (∀ t, expand_pass macros (expand_pass macros t)
               = expand_pass macros t) as Hfix.
  { intros t. apply expand_pass_idle. apply Forall_forall. intros m Hm.
    rewrite Forall_forall in Hw, Ha, Hl.
    destruct (Ha m Hm) as [H1 H2]. split_and!; [done | done |].
    intros H0. apply expand_pass_quiet; [by apply Hw | |].
    - apply Forall_forall. intros m' Hm'. destruct (Ha m' Hm') as [? ?].
      split_and!; [by apply Hw | done | done | by apply Hl | by apply Hf].
    - right. by exists m. }
  assert (expand_macros text macros = expand_pass macros text) as H3.
  { unfold expand_macros. cbn [Nat.iter nat_rect]. by rewrite !Hfix. }
  split_and!; [done | by rewrite !Hfix | done |].
  rewrite H3. unfold expand_macros. cbn [Nat.iter nat_rect]. by rewrite !Hfix.
Qed.

Lemma expansion_fixed_point_witness :
  Forall (λ m : macro, control_word m.1.1)
    [(lit "\R", 0, lit "\mathbb{R}"); (lit "\eps", 0, lit "\varepsilon")]
  ∧ expand_pass
      [(lit "\R", 0, lit "\mathbb{R}"); (lit "\eps", 0, lit "\varepsilon")]
      (expand_pass
         [(lit "\R", 0, lit "\mathbb{R}"); (lit "\eps", 0, lit "\varepsilon")]
         (lit "\Re z \in \R, \eps>0"))
    = expand_pass
        [(lit "\R", 0, lit "\mathbb{R}"); (lit "\eps", 0, lit "\varepsilon")]
        (lit "\Re z \in \R, \eps>0")
  ∧ expand_macros (lit "\Re z \in \R, \eps>0")
      [(lit "\R", 0, lit "\mathbb{R}"); (lit "\eps", 0, lit "\varepsilon")]
    = expand_pass
        [(lit "\R", 0, lit "\mathbb{R}"); (lit "\eps", 0, lit "\varepsilon")]
        (lit "\Re z \in \R, \eps>0").
Proof.
  assert (Forall (λ m : macro, control_word m.1.1)
            [(lit "\R", 0, lit "\mathbb{R}");
             (lit "\eps", 0, lit "\varepsilon")]) as Hw.
  { repeat constructor.
    - exists (lit "R"). split_and!; [reflexivity | discriminate |].
      repeat constructor.
    - exists (lit "eps"). split_and!; [reflexivity | discriminate |].
      repeat constructor. }
  split; [exact Hw|].
  destruct (expansion_fixed_point (lit "\Re z \in \R, \eps>0")
              [(lit "\R", 0, lit "\mathbb{R}");
               (lit "\eps", 0, lit "\varepsilon")] Hw)
    as (H1 & _ & H3 & _).
  - repeat constructor; cbn [fst snd]; lia.
  - intros m m' Hm Hm'.
    apply elem_of_cons in Hm as [->|Hm];
      [|apply elem_of_cons in Hm as [->|Hm]; [|by apply elem_of_nil in Hm]];
      (apply elem_of_cons in Hm' as [->|Hm'];
       [|apply elem_of_cons in Hm' as [->|Hm'];
         [|by apply elem_of_nil in Hm']]);
      vm_compute; reflexivity.
  - repeat constructor.
  - split; [exact H1 | exact H3].
Defined.

(** C4, as the claim states it, fails.  The template "b" of the macro
    [\ab] holds no macro name, and yet one pass over the text [\a\ab]
    leaves [\ab], which the second pass rewrites to "b": the replacement
    joins the text before it into a new macro name.  In the same way
    [expand_macros] changes its own result on [\a\a\a\a\ab].  A template
    that starts with something other than a letter does not help a macro
    with arguments: a call of [\f] in the argument of a call of [\f], or
    of [\g] in the first argument of [\g], is cut at its first closing
    brace and left for the next pass.  Nor does it help a name that is
    not a command: the template "." closes the name [a..] in [aa...]. *)
Lemma one_pass_counterexample :
  (find (lit "\ab") (lit "b") = None
   ∧ expand_pass [(lit "\ab", 0, lit "b")] (lit "\a\ab") = lit "\ab"
   ∧ expand_pass [(lit "\ab", 0, lit "b")]
       (expand_pass [(lit "\ab", 0, lit "b")] (lit "\a\ab")) = lit "b"
   ∧ expand_pass [(lit "\ab", 0, lit "b")]
       (expand_pass [(lit "\ab", 0, lit "b")] (lit "\a\ab"))
     ≠ expand_pass [(lit "\ab", 0, lit "b")] (lit "\a\ab")
   ∧ expand_macros (lit "\a\a\a\a\ab") [(lit "\ab", 0, lit "b")] = lit "\a\ab"
   ∧ expand_macros
       (expand_macros (lit "\a\a\a\a\ab") [(lit "\ab", 0, lit "b")])
       [(lit "\ab", 0, lit "b")]
     ≠ expand_macros (lit "\a\a\a\a\ab") [(lit "\ab", 0, lit "b")])
  ∧ (find (lit "\f") (lit "[#1]") = None
     ∧ letter_follows (lit "[#1]") = false
     ∧ expand_pass [(lit "\f", 1, lit "[#1]")] (lit "\f{\f{x}}")
       = lit "[\f{x]}"
     ∧ expand_pass [(lit "\f", 1, lit "[#1]")]
         (expand_pass [(lit "\f", 1, lit "[#1]")] (lit "\f{\f{x}}"))
       = lit "[[x]]"
     ∧ expand_macros (lit "\f{\f{\f{\f{x}}}}") [(lit "\f", 1, lit "[#1]")]
       = lit "[[[\f{x]]]}"
     ∧ expand_macros
         (expand_macros (lit "\f{\f{\f{\f{x}}}}")
            [(lit "\f", 1, lit "[#1]")])
         [(lit "\f", 1, lit "[#1]")]
       = lit "[[[[x]]]]")
  ∧ (find (lit "\g") (lit "(#1,#2)") = None
     ∧ letter_follows (lit "(#1,#2)") = false
     ∧ expand_pass [(lit "\g", 2, lit "(#1,#2)")] (lit "\g{\g{a}{b}}{c}")
       = lit "(\g{a,b)}{c}"
     ∧ expand_pass [(lit "\g", 2, lit "(#1,#2)")]
         (expand_pass [(lit "\g", 2, lit "(#1,#2)")]
            (lit "\g{\g{a}{b}}{c}"))
       = lit "((a,b),c)")
  ∧ (find (lit "a..") (lit ".") = None
     ∧ letter_follows (lit ".") = false
     ∧ expand_pass [(lit "a..", 0, lit ".")] (lit "aa...") = lit "a.."
     ∧ expand_pass [(lit "a..", 0, lit ".")]
         (expand_pass [(lit "a..", 0, lit ".")] (lit "aa..."))
       = lit ".").
Proof.
  split_and!; try (vm_compute; reflexivity); vm_compute; discriminate.
Qed.
